(** * fluent.runtime resolver: a shallow embedding and its properties

    Source: [fluent/runtime/resolver.py].  The resolver is a recursive
    interpreter over the Fluent syntax tree.  It threads one mutable
    [ResolverEnvironment] through every call and signals defects with Python
    exceptions.  Here the environment is passed explicitly, an exception is
    an outcome that carries the environment as it was when raised.  The
    resolver recurses on the interpreter's stack without a bound of its own:
    [handle] and [fully_resolve] take the depth of nested calls that the
    interpreter's recursion limit leaves, and a call that needs more ends in
    [RecursionError]. *)

From Stdlib Require Import ZArith List Lia Ascii String.
From stdpp Require Import gmap list.

Open Scope Z_scope.
Set Warnings "-register-all,-clear-no-such-hyp".

(** ** Data *)

(** Python text: a sequence of code points ([len] counts code points). *)
Abbreviation text := (list N).

(** A Python object the resolver only passes around (a float, a Decimal, a
    date, a locale, a function object, ...), named by its address. *)
Inductive opaque := Opaque (addr : N).

(** [MessageReference(id)], [TermReference(id)] and
    [AttributeExpression(ref, name)]; identifiers are kept as their [name]. *)
Inductive reference :=
| MessageReference (id : text)
| TermReference (id : text)
| AttributeExpression (ref : reference) (name : text).

(** Everything [handle] can be called with: runtime values and syntax nodes.
    [Int], [Float], [Decimal] and [Date] also stand for their Fluent
    subclasses ([FluentInt], ..., [FluentDate]); [Date] covers [date],
    [datetime] and [FluentDateType].  A [Pattern] carries its object
    identity, which is what the guard set [dirty] stores. *)
Inductive obj :=
| PyNone
| Str (s : text)
| Int (z : Z)
| Float (x : opaque)
| Decimal (x : opaque)
| Date (x : opaque)
| FluentNone (name : option text)
| Unsupported (x : opaque)
| Message (value : obj)
| Term (value : obj)
| Attribute (value : obj)
| Pattern (ident : nat) (elements : list obj)
| TextElement (value : text)
| Placeable (expression : obj)
| StringLiteral (value : text)
| NumberLiteral (value : text)
| Ref (r : reference)
| VariableReference (name : text)
| VariantList (variants : list variant)
| SelectExpression (selector : obj) (variants : list variant)
| VariantExpression (ref : reference) (key : text)
| CallExpression (callee : reference) (positional : list obj)
                 (named : list (text * obj))
| Identifier (name : text)
with variant :=
| Variant (key : obj) (value : obj) (default : bool).

Definition variant_key (v : variant) : obj :=
  match v with Variant k _ _ => k end.
Definition variant_value (v : variant) : obj :=
  match v with Variant _ b _ => b end.
Definition variant_default (v : variant) : bool :=
  match v with Variant _ _ d => d end.

(** The entries appended to [env.errors]. *)
Inductive diagnostic :=
| CyclicReference                                   (* FluentCyclicReferenceError("Cyclic reference") *)
| TooManyParts                                      (* ValueError("Too many parts in message ...") *)
| TooManyCharacters (len : nat)                     (* ValueError("Too many characters in part ...") *)
| UnknownReference (ref_id : text)                  (* unknown_reference_error_obj(ref_id) *)
| UnknownExternal (name : text)                     (* FluentReferenceError("Unknown external: ...") *)
| UnsupportedExternalType (name : text) (arg_val : obj)  (* TypeError("Unsupported external type ...") *)
| UnknownVariant (key : obj)                        (* FluentReferenceError("Unknown variant: ...") *)
| IgnoredPositionalArguments (ref_id : text)        (* FluentFormatError("Ignored positional ...") *)
| UnknownFunction (name : text)                     (* FluentReferenceError("Unknown function: ...") *)
| FunctionError (e : opaque).                       (* reported by inspect_function_args / args_match *)

(** Exceptions that the resolver's own statements raise.  The interpreter's
    [RecursionError] is an outcome of its own, below; the exceptions of the
    helpers and of registered functions are outside the model (see
    [Runtime]). *)
Inductive exn :=
| TypeError            (* handle: no rule for this object *)
| LookupError          (* handle_none: "Message body not defined" *)
| UnboundLocalError    (* a local read before any assignment *)
| AssertionError       (* handle_variant_expression *)
| AttributeError       (* an attribute the object does not have *)
| KeyError.            (* set.remove of a missing element *)

(** The bundle ([env.context]): the fields the resolver reads. *)
Record FluentBundle := {
  _messages_and_terms : gmap text obj;
  _functions : gmap text opaque;
  _use_isolating : bool;
  _plural_form : obj -> text;
  _babel_locale : opaque
}.

Record CurrentEnvironment := {
  args : gmap text obj;
  error_for_missing_arg : bool
}.

Record ResolverEnvironment := {
  context : FluentBundle;
  errors : list diagnostic;
  dirty : gset nat;
  part_count : Z;
  current : CurrentEnvironment
}.

Definition set_errors (es : list diagnostic) (env : ResolverEnvironment) :=
  {| context := context env; errors := es; dirty := dirty env;
     part_count := part_count env; current := current env |}.
Definition set_dirty (d : gset nat) (env : ResolverEnvironment) :=
  {| context := context env; errors := errors env; dirty := d;
     part_count := part_count env; current := current env |}.
Definition set_part_count (n : Z) (env : ResolverEnvironment) :=
  {| context := context env; errors := errors env; dirty := dirty env;
     part_count := n; current := current env |}.
Definition set_current (c : CurrentEnvironment) (env : ResolverEnvironment) :=
  {| context := context env; errors := errors env; dirty := dirty env;
     part_count := part_count env; current := c |}.

(** [env.errors.append(e)] and [env.errors.extend(es)]. *)
Definition errors_append (e : diagnostic) (env : ResolverEnvironment) :=
  set_errors (errors env ++ [e]) env.
Definition errors_extend (es : list diagnostic) (env : ResolverEnvironment) :=
  set_errors (errors env ++ es) env.

(** What a call does: return a value, raise, or exceed the depth of nested
    calls that the interpreter allows.  The first two carry the environment
    the call leaves behind.  [RecursionError] is Python's exception of that
    name: no [except] clause of the resolver catches it (they catch
    [LookupError] around one subscript each), so it ends the call of
    [resolve]; the environment is not looked at afterwards. *)
Inductive outcome (A : Type) :=
| Return (a : A) (env : ResolverEnvironment)
| Raise (e : exn) (env : ResolverEnvironment)
| RecursionError.
Arguments Return {A} a env.
Arguments Raise {A} e env.
Arguments RecursionError {A}.

Notation "'let!' ( x , e ) := m 'in' k" :=
  (match m with
   | Return x e => k
   | Raise ex e' => Raise ex e'
   | RecursionError => RecursionError
   end)
  (at level 10, x name, e name, m at level 100, k at level 200,
   only parsing).

(** ** The helpers of [fluent.runtime.types] and [fluent.runtime.utils]

    These modules are imported by the resolver; the resolver's own code
    fixes how they are called, not what they compute.  They are taken to
    return: a helper or a registered function that raises is outside the
    model, and every statement below is about calls in which they return. *)
Class Runtime := {
  (** [a == b] when one side is neither text nor an int. *)
  py_eq_opaque : obj -> obj -> bool;
  (** [numeric_to_native(value)]: the int or float a number literal denotes. *)
  numeric_to_native : text -> obj;
  (** The prefix [reference_to_id] gives to the identifier of a term. *)
  TERM_SIGIL : text;
  (** [FluentNone(name).format(locale)]. *)
  FluentNone_format : option text -> opaque -> text;
  (** [fluent_number(n).format(locale)]. *)
  fluent_number_format : obj -> opaque -> text;
  (** [fluent_date(d).format(locale)]. *)
  fluent_date_format : obj -> opaque -> text;
  (** [inspect_function_args(function, name, errors)]: the argument
      specification and what it appends to [errors]. *)
  inspect_function_args : opaque -> text -> opaque * list opaque;
  (** [args_match(name, args, kwargs, arg_spec)]. *)
  args_match : text -> list obj -> gmap text obj -> opaque ->
               bool * list obj * gmap text obj * list opaque;
  (** [function( *args, **kwargs)]. *)
  call_function : opaque -> list obj -> gmap text obj -> obj
}.

(** ** Constants *)

Definition MAX_PART_LENGTH : Z := 2500.
Definition MAX_PARTS : Z := 1000.
Definition FSI : text := [8296%N].
Definition PDI : text := [8297%N].

Section Resolver.
Context `{Runtime}.

(** Modelled from the spec: [reference_to_id] of [fluent.runtime.utils] is
    not part of the sources; an attribute identifier joins the base
    identifier and the attribute name with a fixed separator
    ([base.attribute]). *)
Fixpoint reference_to_id (ref : reference) : text :=
  match ref with
  | AttributeExpression base name => reference_to_id base ++ [46%N] ++ name
  | TermReference id => TERM_SIGIL ++ id
  | MessageReference id => id
  end.

(** ** ResolverEnvironment.modified *)

(** The context manager: swap [current], run the body, restore.  The
    restore is the statement after [yield]; an exception raised by the body
    leaves the generator at [yield] and skips it. *)
Definition modified {A : Type} (evolve : CurrentEnvironment -> CurrentEnvironment)
    (body : ResolverEnvironment -> outcome A)
    (env : ResolverEnvironment) : outcome A :=
  let old_current := current env in
  match body (set_current (evolve old_current) env) with
  | Return a env' => Return a (set_current old_current env')
  | Raise e env' => Raise e env'
  | RecursionError => RecursionError
  end.

Definition modified_for_term_reference {A : Type}
    (new_args : option (gmap text obj))
    (body : ResolverEnvironment -> outcome A) : ResolverEnvironment -> outcome A :=
  modified (fun _ => {| args := match new_args with Some a => a | None => ∅ end;
                        error_for_missing_arg := false |}) body.

(** ** handle_pattern *)

Definition is_TextElement (o : obj) : bool :=
  match o with TextElement _ => true | _ => false end.

(** The [for element in pattern.elements] loop; [break] returns. *)
Fixpoint pattern_loop (fully_resolve' : obj -> ResolverEnvironment -> outcome text)
    (use_isolating : bool) (elements : list obj) (parts : list text)
    (env : ResolverEnvironment) : outcome (list text) :=
  match elements with
  | [] => Return parts env
  | element :: rest =>
    let env := set_part_count (part_count env + 1) env in
    if MAX_PARTS <? part_count env then
      if part_count env =? MAX_PARTS + 1 then
        let env := errors_append TooManyParts env in
        let! (part, env) := fully_resolve' (FluentNone None) env in
        Return (parts ++ [part]) env
      else Return parts env
    else
      match element with
      | TextElement value =>
        pattern_loop fully_resolve' use_isolating rest (parts ++ [value]) env
      | _ =>
        let! (part, env) := fully_resolve' element env in
        let parts := if use_isolating then parts ++ [FSI] else parts in
        let too_long := MAX_PART_LENGTH <? Z.of_nat (length part) in
        let env := if too_long
                   then errors_append (TooManyCharacters (length part)) env
                   else env in
        let part := if too_long then take (Z.to_nat MAX_PART_LENGTH) part
                    else part in
        let parts := parts ++ [part] in
        let parts := if use_isolating then parts ++ [PDI] else parts in
        pattern_loop fully_resolve' use_isolating rest parts env
      end
  end.

Definition handle_pattern (fully_resolve' : obj -> ResolverEnvironment -> outcome text)
    (pattern : nat) (elements : list obj) (env : ResolverEnvironment) : outcome obj :=
  if bool_decide (pattern ∈ dirty env) then
    Return (FluentNone None) (errors_append CyclicReference env)
  else
    let env := set_dirty ({[pattern]} ∪ dirty env) env in
    let use_isolating :=
      _use_isolating (context env) && (1 <? Z.of_nat (length elements)) in
    let! (parts, env) := pattern_loop fully_resolve' use_isolating elements [] env in
    let retval := concat parts in
    if bool_decide (pattern ∈ dirty env)
    then Return (Str retval) (set_dirty (dirty env ∖ {[pattern]}) env)
    else Raise KeyError env.

(** ** lookup_reference *)

Definition is_AttributeExpression (ref : reference) : option reference :=
  match ref with AttributeExpression base _ => Some base | _ => None end.

Definition lookup_reference (ref : reference) (env : ResolverEnvironment)
    : obj * ResolverEnvironment :=
  let ref_id := reference_to_id ref in
  match _messages_and_terms (context env) !! ref_id with
  | Some node => (node, env)
  | None =>
    let env := errors_append (UnknownReference ref_id) env in
    match is_AttributeExpression ref with
    | Some base =>
      let parent_id := reference_to_id base in
      match _messages_and_terms (context env) !! parent_id with
      | Some node => (node, env)
      | None => (FluentNone (Some ref_id), env)
      end
    | None => (FluentNone (Some ref_id), env)
    end
  end.

(** ** handle_variable_reference *)

(** [isinstance(arg_val, (int, float, Decimal, date, datetime, text_type))]. *)
Definition is_supported_external (arg_val : obj) : bool :=
  match arg_val with
  | Int _ | Float _ | Decimal _ | Date _ | Str _ => true
  | _ => false
  end.

Definition handle_variable_reference (name : text) (env : ResolverEnvironment)
    : obj * ResolverEnvironment :=
  match args (current env) !! name with
  | None =>
    let env := if error_for_missing_arg (current env)
               then errors_append (UnknownExternal name) env else env in
    (FluentNone (Some name), env)
  | Some arg_val =>
    if is_supported_external arg_val then (arg_val, env)
    else (FluentNone (Some name),
          errors_append (UnsupportedExternalType name arg_val) env)
  end.

(** ** match *)

Definition is_number (val : obj) : bool :=
  match val with Int _ | Float _ => true | _ => false end.

Definition is_None (val : obj) : bool :=
  match val with PyNone => true | _ => false end.

Definition is_None_or_FluentNone (val : obj) : bool :=
  match val with PyNone | FluentNone _ => true | _ => false end.

(** Python's [==] on the values that meet in [match]. *)
Definition py_eq (a b : obj) : bool :=
  match a, b with
  | Str s, Str t => bool_decide (s = t)
  | Int x, Int y => x =? y
  | Str _, Int _ | Int _, Str _ => false
  | _, _ => py_eq_opaque a b
  end.

(** [match] calls itself once, with the operands swapped; [depth] bounds
    that recursion. *)
Fixpoint match_rec (depth : nat) (val1 val2 : obj) (env : ResolverEnvironment)
    : option bool :=
  match depth with
  | O => None
  | S depth' =>
    if is_None_or_FluentNone val1 then Some false
    else if is_None_or_FluentNone val2 then Some false
    else if is_number val1 then
      if negb (is_number val2)
      then Some (py_eq (Str (_plural_form (context env) val1)) val2)
      else Some (py_eq val1 val2)
    else if is_number val2 then match_rec depth' val2 val1 env
    else Some (py_eq val1 val2)
  end.

Definition match_ (val1 val2 : obj) (env : ResolverEnvironment) : bool :=
  match match_rec 2 val1 val2 env with Some b => b | None => false end.

(** ** select_from_variant_list *)

(** The loop of [select_from_variant_list].  The local [default] is
    assigned only inside the loop: [None] is the local before any
    assignment.  The result is [(found, default)]. *)
Fixpoint variant_list_loop (handle' : obj -> ResolverEnvironment -> outcome obj)
    (key : obj) (variants : list variant) (default : option variant)
    (env : ResolverEnvironment) : outcome (option variant * option variant) :=
  match variants with
  | [] => Return (None, default) env
  | variant :: rest =>
    let default := if variant_default variant then Some variant else default in
    if variant_default variant && is_None key
    then Return (None, default) env
    else
      let! (compare_value, env) := handle' (variant_key variant) env in
      if match_ key compare_value env
      then Return (Some variant, default) env
      else variant_list_loop handle' key rest default env
  end.

Definition select_from_variant_list (handle' : obj -> ResolverEnvironment -> outcome obj)
    (variants : list variant) (env : ResolverEnvironment) (key : obj)
    : outcome obj :=
  let! (r, env) := variant_list_loop handle' key variants None env in
  let '(found, default) := r in
  let after_default : outcome (option variant) :=
    match found with
    | Some v => Return (Some v) env
    | None =>
      let env := if negb (is_None_or_FluentNone key)
                 then errors_append (UnknownVariant key) env else env in
      match default with
      | None => Raise UnboundLocalError env
      | Some d => Return (Some d) env
      end
    end in
  let! (found, env) := after_default in
  match found with
  | None => Return (FluentNone None) env
  | Some v => handle' (variant_value v) env
  end.

(** ** select_from_select_expression *)

Fixpoint select_expression_loop (handle' : obj -> ResolverEnvironment -> outcome obj)
    (key : obj) (variants : list variant) (default : option variant)
    (env : ResolverEnvironment) : outcome (option variant * option variant) :=
  match variants with
  | [] => Return (None, default) env
  | variant :: rest =>
    let default := if variant_default variant then Some variant else default in
    let! (compare_value, env) := handle' (variant_key variant) env in
    if match_ key compare_value env
    then Return (Some variant, default) env
    else select_expression_loop handle' key rest default env
  end.

Definition select_from_select_expression
    (handle' : obj -> ResolverEnvironment -> outcome obj)
    (variants : list variant) (env : ResolverEnvironment) (key : obj)
    : outcome obj :=
  let! (r, env) := select_expression_loop handle' key variants None env in
  let '(found, default) := r in
  let found := match found with Some v => Some v | None => default end in
  match found with
  | None => Return (FluentNone None) env
  | Some v => handle' (variant_value v) env
  end.

Definition handle_select_expression
    (handle' : obj -> ResolverEnvironment -> outcome obj)
    (selector : obj) (variants : list variant) (env : ResolverEnvironment)
    : outcome obj :=
  let! (key, env) := handle' selector env in
  select_from_select_expression handle' variants env key.

(** ** handle_variant_expression *)

(** [node.value]: the attribute exists on these classes only. *)
Definition node_value (node : obj) : option obj :=
  match node with
  | Message v | Term v | Attribute v => Some v
  | TextElement s | StringLiteral s | NumberLiteral s => Some (Str s)
  | _ => None
  end.

Definition is_FluentNone (val : obj) : bool :=
  match val with FluentNone _ => true | _ => false end.

Definition handle_variant_expression
    (handle' : obj -> ResolverEnvironment -> outcome obj)
    (ref : reference) (key : text) (env : ResolverEnvironment) : outcome obj :=
  let '(message, env) := lookup_reference ref env in
  if is_FluentNone message then Return message env
  else
    match node_value message with
    | None => Raise AttributeError env
    | Some (VariantList variants) =>
      let variant_name := key in
      select_from_variant_list handle' variants env (Str variant_name)
    | Some _ => Raise AssertionError env
    end.

(** ** handle_call_expression *)

(** [[handle(arg, env) for arg in expression.positional]]. *)
Fixpoint handle_positional (handle' : obj -> ResolverEnvironment -> outcome obj)
    (positional : list obj) (env : ResolverEnvironment) : outcome (list obj) :=
  match positional with
  | [] => Return [] env
  | arg :: rest =>
    let! (v, env) := handle' arg env in
    let! (vs, env) := handle_positional handle' rest env in
    Return (v :: vs) env
  end.

(** [{kwarg.name.name: handle(kwarg.value, env) for kwarg in expression.named}]. *)
Fixpoint handle_named (handle' : obj -> ResolverEnvironment -> outcome obj)
    (named : list (text * obj)) (kwargs : gmap text obj)
    (env : ResolverEnvironment) : outcome (gmap text obj) :=
  match named with
  | [] => Return kwargs env
  | (name, value) :: rest =>
    let! (v, env) := handle' value env in
    handle_named handle' rest (<[name := v]> kwargs) env
  end.

Definition handle_call_expression
    (handle' : obj -> ResolverEnvironment -> outcome obj)
    (callee : reference) (positional : list obj) (named : list (text * obj))
    (env : ResolverEnvironment) : outcome obj :=
  let! (args, env) := handle_positional handle' positional env in
  let! (kwargs, env) := handle_named handle' named ∅ env in
  match callee with
  | TermReference _ | AttributeExpression _ _ =>
    let '(term, env) := lookup_reference callee env in
    let env := match args with
               | [] => env
               | _ :: _ => errors_append
                             (IgnoredPositionalArguments (reference_to_id callee)) env
               end in
    modified_for_term_reference (Some kwargs) (handle' term) env
  | MessageReference function_name =>
    (* builtin or custom function call: [expression.callee.id.name] *)
    match _functions (context env) !! function_name with
    | None =>
      Return (FluentNone (Some (function_name ++ [40%N; 41%N])))
             (errors_append (UnknownFunction function_name) env)
    | Some function =>
      let '(arg_spec, inspect_errors) := inspect_function_args function function_name in
      let env := errors_extend (FunctionError <$> inspect_errors) env in
      let '(matched, sanitized_args, sanitized_kwargs, match_errors) :=
        args_match function_name args kwargs arg_spec in
      let env := errors_extend (FunctionError <$> match_errors) env in
      if matched
      then Return (call_function function sanitized_args sanitized_kwargs) env
      else Return (FluentNone (Some (function_name ++ [40%N; 41%N]))) env
    end
  end.

(** ** handle and fully_resolve *)

(** [handle] is a [singledispatch] on the class of [expr]; each case below
    is the rule registered for that class, and the last is the unregistered
    default.  [handle'] and [fully_resolve'] are the recursive calls. *)
Definition dispatch (handle' : obj -> ResolverEnvironment -> outcome obj)
    (fully_resolve' : obj -> ResolverEnvironment -> outcome text)
    (expr : obj) (env : ResolverEnvironment) : outcome obj :=
  match expr with
  | Message value => handle' value env
  | Term value => handle' value env
  | Pattern pattern elements =>
    handle_pattern fully_resolve' pattern elements env
  | TextElement value => Return (Str value) env
  | Placeable expression => handle' expression env
  | StringLiteral value => Return (Str value) env
  | NumberLiteral value => Return (numeric_to_native value) env
  | Ref (MessageReference id) =>
    let '(node, env) := lookup_reference (MessageReference id) env in
    handle' node env
  | Ref (TermReference id) =>
    modified_for_term_reference None
      (fun env => let '(node, env) := lookup_reference (TermReference id) env in
                  handle' node env) env
  | FluentNone name =>
    Return (Str (FluentNone_format name (_babel_locale (context env)))) env
  | PyNone => Raise LookupError env
  | VariableReference name =>
    let '(val, env) := handle_variable_reference name env in Return val env
  | Ref (AttributeExpression ref name) =>
    let '(node, env) := lookup_reference (AttributeExpression ref name) env in
    handle' node env
  | Attribute value => handle' value env
  | VariantList variants =>
    select_from_variant_list handle' variants env PyNone
  | SelectExpression selector variants =>
    handle_select_expression handle' selector variants env
  | Identifier name => Return (Str name) env
  | VariantExpression ref key =>
    handle_variant_expression handle' ref key env
  | CallExpression callee positional named =>
    handle_call_expression handle' callee positional named env
  | Int _ | Float _ | Decimal _ =>
    Return (Str (fluent_number_format expr (_babel_locale (context env)))) env
  | Date _ =>
    Return (Str (fluent_date_format expr (_babel_locale (context env)))) env
  | Str _ | Unsupported _ => Raise TypeError env
  end.

(** [fuel] is the depth of nested calls of [handle] and [fully_resolve] that
    the interpreter's recursion limit leaves: each such call takes a bounded
    number of stack frames (the [singledispatch] wrapper, the rule, a
    helper), and the call that would go deeper raises [RecursionError]. *)
Fixpoint handle (fuel : nat) (expr : obj) (env : ResolverEnvironment)
    {struct fuel} : outcome obj :=
  match fuel with
  | O => RecursionError
  | S fuel' => dispatch (handle fuel') (fully_resolve fuel') expr env
  end
with fully_resolve (fuel : nat) (expr : obj) (env : ResolverEnvironment)
    {struct fuel} : outcome text :=
  match fuel with
  | O => RecursionError
  | S fuel' =>
    let! (retval, env) := handle fuel' expr env in
    match retval with
    | Str s => Return s env
    | _ => fully_resolve fuel' retval env
    end
  end.

(** ** resolve *)

Definition initial_environment (context : FluentBundle) (args : gmap text obj)
    : ResolverEnvironment :=
  {| context := context; errors := []; dirty := ∅; part_count := 0;
     current := {| args := args; error_for_missing_arg := true |} |}.

Definition resolve (fuel : nat) (context : FluentBundle) (message : obj)
    (args : gmap text obj) : outcome (text * list diagnostic) :=
  let env := initial_environment context args in
  let! (s, env) := fully_resolve fuel message env in
  Return (s, errors env) env.

End Resolver.

(** ** State relations used by the properties *)

(** Number of "too many parts" diagnostics in a list. *)
Fixpoint count_too_many_parts (es : list diagnostic) : nat :=
  match es with
  | [] => O
  | TooManyParts :: es' => S (count_too_many_parts es')
  | _ :: es' => count_too_many_parts es'
  end.

Fixpoint count_cyclic (es : list diagnostic) : nat :=
  match es with
  | [] => O
  | CyclicReference :: es' => S (count_cyclic es')
  | _ :: es' => count_cyclic es'
  end.

(** 1 when the counter moved from at most [MAX_PARTS] to above it. *)
Definition crossing (c c' : Z) : nat :=
  if (c <=? MAX_PARTS) && (MAX_PARTS <? c') then 1%nat else 0%nat.

(** What a call that returns may have done to the environment: the bundle,
    the bindings and the guard set are as before, the counter did not go
    down, diagnostics were only appended, and a "too many parts" diagnostic
    was appended exactly when the counter crossed the ceiling. *)
Definition frame (env env' : ResolverEnvironment) : Prop :=
  context env' = context env /\
  current env' = current env /\
  dirty env' = dirty env /\
  part_count env <= part_count env' /\
  exists es, errors env' = errors env ++ es /\
             count_too_many_parts es = crossing (part_count env) (part_count env').

(** The parts one non-text element contributes. *)
Definition element_parts (iso : bool) (part : text) : list text :=
  let kept := if MAX_PART_LENGTH <? Z.of_nat (length part)
              then take (Z.to_nat MAX_PART_LENGTH) part else part in
  if iso then [FSI; kept; PDI] else [kept].

(** The match predicate as the specification words it: false if either side
    is a placeholder or absent; a numeric selector against a non-numeric
    candidate compares the selector's plural category with the candidate;
    when only the candidate is numeric the operands are swapped and the same
    rule applies; otherwise equality. *)
Definition match_spec `{Runtime} (key candidate : obj) (env : ResolverEnvironment)
    : bool :=
  let plural := fun n label => py_eq (Str (_plural_form (context env) n)) label in
  if is_None_or_FluentNone key || is_None_or_FluentNone candidate then false
  else if is_number key && negb (is_number candidate) then plural key candidate
  else if negb (is_number key) && is_number candidate then plural candidate key
  else py_eq key candidate.

(** ** Well-formed input *)

(** The values [handle] returns on well-formed input: text, the values
    rendered by the locale, and placeholders. *)
Definition is_data (v : obj) : bool :=
  match v with
  | Str _ | Int _ | Float _ | Decimal _ | Date _ | FluentNone _ => true
  | _ => false
  end.

(** A variant key as the parser produces it. *)
Definition is_simple_key (k : obj) : bool :=
  match k with
  | Identifier _ | NumberLiteral _ | StringLiteral _ => true
  | _ => false
  end.

Definition is_VariantList (v : obj) : bool :=
  match v with VariantList _ => true | _ => false end.

(** What a variant expression may find: nothing, or an entry whose value is
    a variant list. *)
Definition variant_target_ok (found : option obj) : bool :=
  match found with
  | None => true
  | Some node =>
    match node_value node with
    | Some v => is_VariantList v
    | None => false
    end
  end.

(** An expression free of the defects that make the resolver raise: no
    absent body, no object without a rule, a default in every variant list,
    and variant expressions only on entries whose value is a variant list. *)
Fixpoint wf_expr `{Runtime} (registry : gmap text obj) (e : obj) {struct e} : bool :=
  match e with
  | PyNone | Str _ | Unsupported _ => false
  | Int _ | Float _ | Decimal _ | Date _ | FluentNone _ => true
  | Message v | Term v | Attribute v | Placeable v => wf_expr registry v
  | Pattern _ elements =>
    (fix all (l : list obj) : bool :=
       match l with
       | [] => true
       | x :: l' => wf_expr registry x && all l'
       end) elements
  | TextElement _ | StringLiteral _ | NumberLiteral _ | Identifier _
  | VariableReference _ | Ref _ => true
  | VariantList variants =>
    existsb variant_default variants &&
    (fix all (l : list variant) : bool :=
       match l with
       | [] => true
       | v :: l' => wf_variant registry v && all l'
       end) variants
  | SelectExpression selector variants =>
    wf_expr registry selector &&
    (fix all (l : list variant) : bool :=
       match l with
       | [] => true
       | v :: l' => wf_variant registry v && all l'
       end) variants
  | VariantExpression ref _ =>
    variant_target_ok (registry !! reference_to_id ref) &&
    match is_AttributeExpression ref with
    | Some base => variant_target_ok (registry !! reference_to_id base)
    | None => true
    end
  | CallExpression _ positional named =>
    (fix all (l : list obj) : bool :=
       match l with
       | [] => true
       | x :: l' => wf_expr registry x && all l'
       end) positional &&
    (fix all (l : list (text * obj)) : bool :=
       match l with
       | [] => true
       | (_, x) :: l' => wf_expr registry x && all l'
       end) named
  end
with wf_variant `{Runtime} (registry : gmap text obj) (v : variant) {struct v} : bool :=
  match v with
  | Variant k b _ => wf_expr registry k && wf_expr registry b
  end.

(** The body of a registered entry: a pattern, or a variant list with a
    default whose keys are plain and whose values are patterns. *)
Definition wf_variant_entry `{Runtime} (registry : gmap text obj) (v : variant) : bool :=
  is_simple_key (variant_key v) &&
  match variant_value v with
  | Pattern _ _ => wf_expr registry (variant_value v)
  | _ => false
  end.

Definition wf_body `{Runtime} (registry : gmap text obj) (body : obj) : bool :=
  match body with
  | Pattern _ _ => wf_expr registry body
  | VariantList variants =>
    existsb variant_default variants && forallb (wf_variant_entry registry) variants
  | _ => false
  end.

Definition wf_entry `{Runtime} (registry : gmap text obj) (node : obj) : bool :=
  match node with
  | Message v | Term v | Attribute v => wf_body registry v
  | _ => false
  end.

(** The identifiers [lookup_reference] may look up for a reference: its
    own, and for an attribute the identifier of the base entry. *)
Definition reference_ids `{Runtime} (ref : reference) : list text :=
  reference_to_id ref ::
  match is_AttributeExpression ref with
  | Some base => [reference_to_id base]
  | None => []
  end.

(** The identifiers the resolution of an expression may look up in the
    registry, before following any of them. *)
Fixpoint lookups `{Runtime} (e : obj) {struct e} : list text :=
  match e with
  | Message v | Term v | Attribute v | Placeable v => lookups v
  | Pattern _ elements =>
    (fix all (l : list obj) : list text :=
       match l with
       | [] => []
       | x :: l' => lookups x ++ all l'
       end) elements
  | Ref ref => reference_ids ref
  | VariantList variants =>
    (fix all (l : list variant) : list text :=
       match l with
       | [] => []
       | v :: l' => lookups_variant v ++ all l'
       end) variants
  | SelectExpression selector variants =>
    lookups selector ++
    (fix all (l : list variant) : list text :=
       match l with
       | [] => []
       | v :: l' => lookups_variant v ++ all l'
       end) variants
  | VariantExpression ref _ => reference_ids ref
  | CallExpression callee positional named =>
    match callee with
    | MessageReference _ => []
    | _ => reference_ids callee
    end ++
    (fix all (l : list obj) : list text :=
       match l with
       | [] => []
       | x :: l' => lookups x ++ all l'
       end) positional ++
    (fix all (l : list (text * obj)) : list text :=
       match l with
       | [] => []
       | (_, x) :: l' => lookups x ++ all l'
       end) named
  | _ => []
  end
with lookups_variant `{Runtime} (v : variant) {struct v} : list text :=
  match v with
  | Variant k b _ => lookups k ++ lookups b
  end.

(** The identifiers the resolution of [message] can reach: those it looks
    up itself, and those looked up by a registered entry it can reach. *)
Inductive reachable `{Runtime} (registry : gmap text obj) (message : obj)
    : text -> Prop :=
| reachable_here id :
    id ∈ lookups message -> reachable registry message id
| reachable_step id node id' :
    reachable registry message id ->
    registry !! id = Some node ->
    id' ∈ lookups node ->
    reachable registry message id'.

(** Every registered entry that the resolution of [message] can reach is a
    message, term or attribute with a body. *)
Definition wf_reachable `{Runtime} (registry : gmap text obj) (message : obj)
    : Prop :=
  forall id node,
    reachable registry message id -> registry !! id = Some node ->
    wf_entry registry node = true.

(** A check of [wf_reachable]: [ids] holds what [message] looks up, and for
    each of them that is registered the entry is in order and looks up
    identifiers of [ids] only. *)
Definition reach_check `{Runtime} (registry : gmap text obj) (message : obj)
    (ids : list text) : bool :=
  forallb (fun id => bool_decide (id ∈ ids)) (lookups message) &&
  forallb (fun id =>
             match registry !! id with
             | None => true
             | Some node =>
               wf_entry registry node &&
               forallb (fun id' => bool_decide (id' ∈ ids)) (lookups node)
             end) ids.

(** Number literals denote numbers and functions return plain values. *)
Definition wf_runtime `{Runtime} : Prop :=
  (forall value, is_number (numeric_to_native value) = true) /\
  (forall function positional named,
     is_data (call_function function positional named) = true).

(** The patterns an entry's body enters first. *)
Definition body_patterns (body : obj) : list nat :=
  match body with
  | Pattern pattern _ => [pattern]
  | VariantList variants =>
    flat_map (fun v => match variant_value v with
                       | Pattern pattern _ => [pattern]
                       | _ => []
                       end) variants
  | _ => []
  end.

Definition entry_patterns (registry : gmap text obj) : gset nat :=
  list_to_set
    (flat_map (fun kv => match node_value kv.2 with
                         | Some body => body_patterns body
                         | None => []
                         end) (map_to_list registry)).

(** The size of an expression. *)
Fixpoint osize (e : obj) {struct e} : nat :=
  match e with
  | Message v | Term v | Attribute v | Placeable v => S (osize v)
  | Pattern _ elements =>
    S ((fix sum (l : list obj) : nat :=
          match l with
          | [] => O
          | x :: l' => (osize x + sum l')%nat
          end) elements)
  | VariantList variants =>
    S ((fix sum (l : list variant) : nat :=
          match l with
          | [] => O
          | v :: l' => (vsize v + sum l')%nat
          end) variants)
  | SelectExpression selector variants =>
    S (osize selector +
       (fix sum (l : list variant) : nat :=
          match l with
          | [] => O
          | v :: l' => (vsize v + sum l')%nat
          end) variants)
  | CallExpression _ positional named =>
    S ((fix sum (l : list obj) : nat :=
          match l with
          | [] => O
          | x :: l' => (osize x + sum l')%nat
          end) positional +
       (fix sum (l : list (text * obj)) : nat :=
          match l with
          | [] => O
          | (_, x) :: l' => (osize x + sum l')%nat
          end) named)
  | _ => 1%nat
  end
with vsize (v : variant) {struct v} : nat :=
  match v with
  | Variant k b _ => S (osize k + osize b)
  end.

(** [env] belongs to a call on [bundle] in which at most [k] of the
    registered entry patterns are not yet being resolved. *)
Definition within (bundle : FluentBundle) (k : nat) (env : ResolverEnvironment)
    : Prop :=
  context env = bundle /\
  (size (entry_patterns (_messages_and_terms bundle) ∖ dirty env) <= k)%nat.

(** [handle] returns a plain value, given enough depth. *)
Definition handles `{Runtime} (e : obj) (env : ResolverEnvironment) : Prop :=
  exists fuel v env', handle fuel e env = Return v env' /\ is_data v = true.

(** [fully_resolve] returns, given enough depth. *)
Definition resolves `{Runtime} (e : obj) (env : ResolverEnvironment) : Prop :=
  exists fuel s env', fully_resolve fuel e env = Return s env'.

(** A message whose pattern is a single reference to the message [next]. *)
Definition forwarding (pattern : nat) (next : text) : obj :=
  Message (Pattern pattern [Placeable (Ref (MessageReference next))]).

Definition next_in_chain (first : text) (rest : list (text * nat)) : text :=
  match rest with
  | [] => first
  | (next, _) :: _ => next
  end.

(** The registry holds a chain of such messages: each one forwards to the
    one after it, and the last one forwards to [first]. *)
Fixpoint forwarding_chain (registry : gmap text obj) (first : text)
    (chain : list (text * nat)) : Prop :=
  match chain with
  | [] => True
  | (id, pattern) :: rest =>
    registry !! id = Some (forwarding pattern (next_in_chain first rest)) /\
    forwarding_chain registry first rest
  end.

(** ** Notions used by the further properties *)

(** The call ends in the [KeyError] of [set.remove]. *)
Definition raises_KeyError {A : Type} (o : outcome A) : bool :=
  match o with
  | Raise KeyError _ => true
  | _ => false
  end.

Definition never_KeyError {A B : Type} (f : A -> ResolverEnvironment -> outcome B)
    : Prop :=
  forall a env, raises_KeyError (f a env) = false.

(** Whatever [f] returns is a plain value. *)
Definition returns_data {A : Type} (f : A -> ResolverEnvironment -> outcome obj)
    : Prop :=
  forall a env v env', f a env = Return v env' -> is_data v = true.

(** The text [fully_resolve] makes of a value that [handle] returned: text
    as it is, the others through the formatter of their class. *)
Definition value_text `{Runtime} (locale : opaque) (v : obj) : text :=
  match v with
  | Str s => s
  | FluentNone name => FluentNone_format name locale
  | Date _ => fluent_date_format v locale
  | _ => fluent_number_format v locale
  end.

(** The name of a variant whose key is an identifier. *)
Definition is_Identifier (k : obj) : bool :=
  match k with Identifier _ => true | _ => false end.

(** Whether the selector value [key] selects a variant named [name]: text by
    equality, a number by its plural category, a placeholder never. *)
Definition selects (bundle : FluentBundle) (key : obj) (v : variant) : bool :=
  match variant_key v with
  | Identifier name =>
    match key with
    | Str k => bool_decide (k = name)
    | Int _ | Float _ => bool_decide (_plural_form bundle key = name)
    | _ => false
    end
  | _ => false
  end.

(** Selector values compared without the equality of opaque objects. *)
Definition is_plain_selector (key : obj) : bool :=
  match key with
  | Str _ | Int _ | Float _ | FluentNone _ | PyNone => true
  | _ => false
  end.

(** The node [lookup_reference] returns for [ref] in [bundle]. *)
Definition referent `{Runtime} (bundle : FluentBundle) (ref : reference) : obj :=
  (lookup_reference ref (initial_environment bundle ∅)).1.

(** The value [handle_variable_reference] returns for [name] under the
    bindings [cur]. *)
Definition variable_value (cur : CurrentEnvironment) (name : text) : obj :=
  match args cur !! name with
  | Some arg_val =>
    if is_supported_external arg_val then arg_val else FluentNone (Some name)
  | None => FluentNone (Some name)
  end.

(** The variant a select expression takes for the selector value [key]: the
    first one that [key] selects, else the last one flagged as default. *)
Definition chosen_variant (bundle : FluentBundle) (key : obj)
    (variants : list variant) : option variant :=
  match List.find (selects bundle key) variants with
  | Some v => Some v
  | None => last (List.filter variant_default variants)
  end.

(** Re-entries, read off the syntax.  [reentries depth bundle cur guarded e]
    follows [e] through the registry the way the resolver does - into the
    elements of a pattern, through references to messages, terms and
    attributes, into the variant that a select expression on a variable
    takes - with [guarded] the patterns being resolved and [cur] the
    bindings in force, and counts the times it arrives at a pattern that is
    in [guarded], where it stops, and the pattern elements it visits.
    [None]: nested deeper than [depth], or an expression of another kind (a
    call, a variant list or expression, another selector). *)
Fixpoint reentries `{Runtime} (depth : nat) (bundle : FluentBundle)
    (cur : CurrentEnvironment) (guarded : gset nat) (e : obj)
    : option (nat * nat) :=
  match depth with
  | O => None
  | S depth' =>
    match e with
    | StringLiteral _ | NumberLiteral _ | VariableReference _ | FluentNone _ =>
      Some (O, O)
    | Message v | Term v | Attribute v | Placeable v =>
      reentries depth' bundle cur guarded v
    | Pattern pattern elements =>
      if bool_decide (pattern ∈ guarded) then Some (1%nat, O)
      else
        (fix loop (l : list obj) : option (nat * nat) :=
           match l with
           | [] => Some (O, O)
           | x :: l' =>
             match (if is_TextElement x then Some (O, O)
                    else reentries depth' bundle cur ({[pattern]} ∪ guarded) x),
                   loop l' with
             | Some (c1, n1), Some (c2, n2) => Some ((c1 + c2)%nat, S (n1 + n2))
             | _, _ => None
             end
           end) elements
    | Ref ref =>
      reentries depth' bundle
        (match ref with
         | TermReference _ => {| args := ∅; error_for_missing_arg := false |}
         | _ => cur
         end) guarded (referent bundle ref)
    | SelectExpression (VariableReference name) variants =>
      if forallb (fun v => is_Identifier (variant_key v)) variants &&
         is_plain_selector (variable_value cur name)
      then match chosen_variant bundle (variable_value cur name) variants with
           | Some v => reentries depth' bundle cur guarded (variant_value v)
           | None => Some (O, O)
           end
      else None
    | _ => None
    end
  end.

(** The call, if it returns, leaves [k] cyclic-reference diagnostics. *)
Definition cyclic_is {A : Type} (k : nat) (o : outcome A) : Prop :=
  match o with
  | Return _ env' => count_cyclic (errors env') = k
  | _ => True
  end.

(** A call of [f] that returns has appended no cyclic-reference
    diagnostic. *)
Definition silent {A B : Type} (f : A -> ResolverEnvironment -> outcome B) : Prop :=
  forall a env, cyclic_is (count_cyclic (errors env)) (f a env).

(** 1 when [expr] is a pattern that is in the guard set of [env]. *)
Definition guard_hit (expr : obj) (env : ResolverEnvironment) : nat :=
  match expr with
  | Pattern pattern _ => if bool_decide (pattern ∈ dirty env) then 1%nat else O
  | _ => O
  end.

(** Total length of the literal text elements of a pattern. *)
Fixpoint text_length (elements : list obj) : Z :=
  match elements with
  | [] => 0
  | TextElement value :: rest => Z.of_nat (length value) + text_length rest
  | _ :: rest => text_length rest
  end.

(** ** A concrete runtime and concrete messages *)

Module Demo.

Definition txt (s : string) : text :=
  (fun a => N_of_ascii a) <$> list_ascii_of_string s.

Definition is_digit (c : N) : bool := ((48 <=? c) && (c <=? 57))%N.

(** The integer a string of digits denotes; other characters are skipped. *)
Fixpoint parse_digits (acc : Z) (s : text) : Z :=
  match s with
  | [] => acc
  | c :: s' => parse_digits (if is_digit c then 10 * acc + Z.of_N (c - 48) else acc) s'
  end.

(** A float is named by the code points of its literal. *)
Definition float_of_literal (s : text) : opaque :=
  Opaque (fold_left (fun acc c => acc * 1114112 + c)%N s 0%N).

(** [numeric_to_native]: a literal is ['-'? digits ('.' digits)?]; it
    denotes a float when it has a point and an int otherwise. *)
Definition parse_number (s : text) : obj :=
  if existsb (N.eqb 46) s then Float (float_of_literal s)
  else match s with
       | c :: digits =>
         if (c =? 45)%N then Int (- parse_digits 0 digits)
         else Int (parse_digits 0 s)
       | [] => Int 0
       end.

Definition runtime : Runtime := {|
  py_eq_opaque := fun _ _ => false;
  numeric_to_native := parse_number;
  TERM_SIGIL := txt "-";
  FluentNone_format := fun name _ =>
    match name with
    | Some (c :: n) => c :: n
    | _ => txt "???"
    end;
  fluent_number_format := fun _ _ => txt "#";
  fluent_date_format := fun _ _ => txt "@";
  inspect_function_args := fun f _ => (f, []);
  args_match := fun _ positional named _ => (true, positional, named, []);
  call_function := fun _ positional _ =>
    Str (match positional with
         | Str s :: _ => s
         | _ => []
         end)
|}.

Definition bundle (entries : list (text * obj)) : FluentBundle := {|
  _messages_and_terms := list_to_map entries;
  _functions := ∅;
  _use_isolating := false;
  _plural_form := fun _ => txt "other";
  _babel_locale := Opaque 0
|}.

(** [-brand = Firefox], [about = About { -brand[short] }]: a variant
    expression on a term that has no variants. *)
Definition brand : obj := Term (Pattern 1 [TextElement (txt "Firefox")]).
Definition about : obj :=
  Message (Pattern 2 [TextElement (txt "About ");
                      Placeable (VariantExpression (TermReference (txt "brand"))
                                                   (txt "short"))]).
Definition about_bundle : FluentBundle :=
  bundle [(txt "-brand", brand); (txt "about", about)].

(** [-wrapped = { -brand[short] }], referenced from a message with one
    external argument. *)
Definition wrapped : obj :=
  Term (Pattern 3 [Placeable (VariantExpression (TermReference (txt "brand"))
                                                (txt "short"))]).
Definition wrapped_bundle : FluentBundle :=
  bundle [(txt "-brand", brand); (txt "-wrapped", wrapped)].

(** [loop = { loop }{ loop }]: two references back to itself. *)
Definition twice : obj :=
  Message (Pattern 4 [Placeable (Ref (MessageReference (txt "loop")));
                      Placeable (Ref (MessageReference (txt "loop")))]).
Definition twice_bundle : FluentBundle := bundle [(txt "loop", twice)].

(** A term whose value is a variant list without a default variant. *)
Definition no_default : obj :=
  Term (VariantList [Variant (Identifier (txt "nominative"))
                             (Pattern 5 [TextElement (txt "Firefox")]) false]).
Definition no_default_bundle : FluentBundle :=
  bundle [(txt "-brand", no_default)].
Definition genitive : obj :=
  Message (Pattern 6 [Placeable (VariantExpression (TermReference (txt "brand"))
                                                   (txt "genitive"))]).

(** A text longer than the part ceiling, and an argument mapping that
    binds it. *)
Definition long_text : text := repeat 97%N (Z.to_nat 3000).
Definition long_args : gmap text obj := {[ txt "x" := Str long_text ]}.

(** [hello = Hello], and the reference [hello.title] to an attribute it
    does not have. *)
Definition hello_bundle : FluentBundle :=
  bundle [(txt "hello", Message (Pattern 10 [TextElement (txt "Hello")]))].
Definition hello_title : reference :=
  AttributeExpression (MessageReference (txt "hello")) (txt "title").

(** [-thing = { $name }]. *)
Definition thing_bundle : FluentBundle :=
  bundle [(txt "-thing", Term (Pattern 11 [Placeable (VariableReference (txt "name"))]))].

(** 1001 text elements, and 1000 placeables. *)
Definition many_texts : list text := repeat (txt "a") (Z.to_nat 1001).
Definition many_placeables : list obj :=
  repeat (Placeable (StringLiteral (txt "b"))) (Z.to_nat 1000).

(** [ping = { pong }] and [pong = { ping }]. *)
Definition ping_pong : list (text * nat) := [(txt "ping", 13%nat); (txt "pong", 14%nat)].
Definition ping_pong_bundle : FluentBundle :=
  bundle [(txt "ping", forwarding 13 (txt "pong"));
          (txt "pong", forwarding 14 (txt "ping"))].

(** A bundle without structural defects, and a message with an argument of
    an unsupported type, a reference to a message that is not registered and
    a variant key that no variant has. *)
Definition cases : obj :=
  Term (VariantList
          [Variant (Identifier (txt "nominative"))
                   (Pattern 15 [TextElement (txt "Firefox")]) true;
           Variant (Identifier (txt "genitive"))
                   (Pattern 16 [TextElement (txt "Firefoxa")]) false]).
Definition welcome : obj :=
  Message (Pattern 17
    [TextElement (txt "Hi ");
     Placeable (VariableReference (txt "user"));
     Placeable (Ref (MessageReference (txt "missing")));
     Placeable (VariantExpression (TermReference (txt "brand")) (txt "locative"))]).
Definition sound_bundle : FluentBundle :=
  bundle [(txt "-brand", cases); (txt "welcome", welcome)].
Definition odd_args : gmap text obj := {[ txt "user" := Unsupported (Opaque 1) ]}.

(** The same bundle with one more message, registered without a body, that
    nothing refers to. *)
Definition partial_bundle : FluentBundle :=
  bundle [(txt "-brand", cases); (txt "welcome", welcome);
          (txt "stub", Message PyNone)].

(** Messages that lead back to themselves: [echo = x{ echo }];
    [near = { -far }] with [-far = { near }]; and
    [pick = { $n -> [one] { pick } *[other] x }]. *)
Definition echo : obj :=
  Message (Pattern 50 [TextElement (txt "x");
                       Placeable (Ref (MessageReference (txt "echo")))]).
Definition near : obj :=
  Message (Pattern 51 [Placeable (Ref (TermReference (txt "far")))]).
Definition far : obj :=
  Term (Pattern 52 [Placeable (Ref (MessageReference (txt "near")))]).
Definition pick : obj :=
  Message (Pattern 53
    [Placeable
       (SelectExpression (VariableReference (txt "n"))
          [Variant (Identifier (txt "one"))
                   (Pattern 54 [Placeable (Ref (MessageReference (txt "pick")))]) false;
           Variant (Identifier (txt "other"))
                   (Pattern 55 [TextElement (txt "x")]) true])]).
Definition cycles_bundle : FluentBundle :=
  bundle [(txt "echo", echo); (txt "near", near); (txt "-far", far);
          (txt "pick", pick); (txt "loop", twice)].

(** A bundle that asks for isolation marks. *)
Definition isolating_bundle : FluentBundle := {|
  _messages_and_terms := ∅;
  _functions := ∅;
  _use_isolating := true;
  _plural_form := fun _ => txt "other";
  _babel_locale := Opaque 0
|}.

(** The variants [[one] item] and [*[other] items], and a count. *)
Definition plural_variants : list variant :=
  [Variant (Identifier (txt "one")) (Pattern 40 [TextElement (txt "item")]) false;
   Variant (Identifier (txt "other")) (Pattern 41 [TextElement (txt "items")]) true].
Definition count_args : gmap text obj := {[ txt "n" := Int 3 ]}.
Definition kind_args : gmap text obj := {[ txt "n" := Str (txt "one") ]}.

(** The variants of [cases]. *)
Definition cases_variants : list variant :=
  [Variant (Identifier (txt "nominative"))
           (Pattern 15 [TextElement (txt "Firefox")]) true;
   Variant (Identifier (txt "genitive"))
           (Pattern 16 [TextElement (txt "Firefoxa")]) false].

(** A message registered without a body. *)
Definition bodiless_bundle : FluentBundle := bundle [(txt "empty", Message PyNone)].

(** [hello = Hello] with the attribute [.title = Greeting]. *)
Definition titled_bundle : FluentBundle :=
  bundle [(txt "hello", Message (Pattern 10 [TextElement (txt "Hello")]));
          (txt "hello.title", Attribute (Pattern 12 [TextElement (txt "Greeting")]))].

Definition name_args : gmap text obj := {[ txt "name" := Str (txt "x") ]}.
Definition seven_args : gmap text obj := {[ txt "x" := Int 7 ]}.

End Demo.

(** ** Properties *)

Ltac inv_outcome H :=
  match type of H with
  | context [match ?m with Return _ _ => _ | Raise _ _ => _ | RecursionError => _ end] =>
      let E := fresh "E" in
      destruct m as [? ? | ? ? | ] eqn:E; try discriminate H
  end.

Ltac env_simpl :=
  cbn [context errors dirty part_count current args error_for_missing_arg
       set_part_count set_dirty set_current set_errors errors_append
       errors_extend initial_environment] in *.

Section Properties.
Context `{Runtime}.

(** *** The frame of a returning call *)

Lemma count_too_many_parts_app es1 es2 :
  count_too_many_parts (es1 ++ es2)
  = (count_too_many_parts es1 + count_too_many_parts es2)%nat.
Proof.
  induction es1 as [|d es1 IH]; simpl; [reflexivity|].
  destruct d; simpl; rewrite IH; reflexivity.
Qed.

Lemma count_too_many_parts_function es :
  count_too_many_parts (FunctionError <$> es) = O.
Proof. induction es; simpl; auto. Qed.

Lemma crossing_same c : crossing c c = O.
Proof.
  unfold crossing.
  destruct (Z.leb_spec c MAX_PARTS), (Z.ltb_spec MAX_PARTS c); simpl; auto; lia.
Qed.

Lemma crossing_trans c1 c2 c3 :
  c1 <= c2 -> c2 <= c3 ->
  (crossing c1 c2 + crossing c2 c3)%nat = crossing c1 c3.
Proof.
  intros H12 H23. unfold crossing.
  destruct (Z.leb_spec c1 MAX_PARTS), (Z.ltb_spec MAX_PARTS c2),
           (Z.leb_spec c2 MAX_PARTS), (Z.ltb_spec MAX_PARTS c3);
    simpl; auto; lia.
Qed.

Lemma frame_refl env : frame env env.
Proof.
  repeat split; try reflexivity. exists []. rewrite app_nil_r.
  split; [reflexivity|]. simpl. symmetry. apply crossing_same.
Qed.

Lemma frame_trans e1 e2 e3 : frame e1 e2 -> frame e2 e3 -> frame e1 e3.
Proof.
  intros (Hc1 & Hk1 & Hd1 & Hp1 & es1 & He1 & Hn1)
         (Hc2 & Hk2 & Hd2 & Hp2 & es2 & He2 & Hn2).
  repeat split; try congruence; try lia.
  exists (es1 ++ es2). split.
  - rewrite He2, He1, app_assoc. reflexivity.
  - rewrite count_too_many_parts_app, Hn1, Hn2. apply crossing_trans; lia.
Qed.

Lemma frame_errors_append d env :
  d <> TooManyParts -> frame env (errors_append d env).
Proof.
  intros Hd. repeat split; simpl; try reflexivity. exists [d]. split; [reflexivity|].
  rewrite crossing_same. destruct d; simpl; congruence.
Qed.

Lemma frame_errors_extend_function es env :
  frame env (errors_extend (FunctionError <$> es) env).
Proof.
  repeat split; simpl; try reflexivity. eexists. split; [reflexivity|].
  rewrite crossing_same. apply count_too_many_parts_function.
Qed.

Lemma frame_count_step env :
  part_count env <> MAX_PARTS ->
  frame env (set_part_count (part_count env + 1) env).
Proof.
  intros Hne. repeat split; simpl; try reflexivity; try lia.
  exists []. rewrite app_nil_r. split; [reflexivity|]. simpl.
  unfold crossing.
  destruct (Z.leb_spec (part_count env) MAX_PARTS),
           (Z.ltb_spec MAX_PARTS (part_count env + 1)); simpl; auto; lia.
Qed.

Lemma frame_count_cross env :
  part_count env = MAX_PARTS ->
  frame env (errors_append TooManyParts (set_part_count (part_count env + 1) env)).
Proof.
  intros He. repeat split; simpl; try reflexivity; try lia.
  exists [TooManyParts]. split; [reflexivity|]. simpl.
  unfold crossing. rewrite He. reflexivity.
Qed.

(** A callee that frames its calls. *)
Definition framing {A B : Type} (f : A -> ResolverEnvironment -> outcome B) : Prop :=
  forall a env b env', f a env = Return b env' -> frame env env'.

Lemma pattern_loop_frame fr iso :
  framing fr ->
  forall elements parts env parts' env',
    pattern_loop fr iso elements parts env = Return parts' env' ->
    frame env env'.
Proof.
  intros Hfr elements.
  induction elements as [|element rest IH]; intros parts env parts' env' Hl; simpl in Hl.
  - injection Hl as _ <-. apply frame_refl.
  - destruct (Z.ltb_spec MAX_PARTS (part_count env + 1)) as [Hgt|Hle].
    + simpl in Hl.
      destruct (Z.eqb_spec (part_count env + 1) (MAX_PARTS + 1)) as [Heq|Hne].
      * inv_outcome Hl. injection Hl as _ <-.
        eapply frame_trans; [apply frame_count_cross; lia|].
        eapply Hfr; eassumption.
      * injection Hl as _ <-. apply frame_count_step. lia.
    + simpl in Hl.
      assert (Hstep : frame env (set_part_count (part_count env + 1) env))
        by (apply frame_count_step; lia).
      eapply frame_trans; [exact Hstep|].
      destruct (is_TextElement element) eqn:Htext.
      * destruct element; try discriminate Htext. eapply IH; eassumption.
      * assert (Hrest : exists part env1,
                   fr element (set_part_count (part_count env + 1) env) = Return part env1 /\
                   exists parts1 env2, frame env1 env2 /\
                     pattern_loop fr iso rest parts1 env2 = Return parts' env').
        { destruct element; try discriminate Htext;
            inv_outcome Hl; do 2 eexists; (split; [reflexivity|]);
            do 2 eexists; (split; [|exact Hl]);
            destruct (MAX_PART_LENGTH <? Z.of_nat (length a));
            try apply frame_refl; apply frame_errors_append; discriminate. }
        destruct Hrest as (part & env1 & Hcall & parts1 & env2 & Hf & Hloop).
        eapply frame_trans; [eapply Hfr; exact Hcall|].
        eapply frame_trans; [exact Hf|]. eapply IH; exact Hloop.
Qed.

Lemma handle_pattern_frame fr pattern elements env v env' :
  framing fr ->
  handle_pattern fr pattern elements env = Return v env' -> frame env env'.
Proof.
  intros Hfr Hp. unfold handle_pattern in Hp.
  destruct (bool_decide (pattern ∈ dirty env)) eqn:Hin.
  - injection Hp as _ <-. apply frame_errors_append. discriminate.
  - apply bool_decide_eq_false in Hin.
    inv_outcome Hp.
    apply (pattern_loop_frame _ _ Hfr) in E.
    destruct E as (Hc & Hk & Hd & Hn & es & He & Hcount). simpl in *.
    destruct (bool_decide (pattern ∈ dirty env0)); [|discriminate Hp].
    injection Hp as _ <-.
    repeat split; simpl; try assumption.
    + rewrite Hd. set_solver.
    + exists es. split; assumption.
Qed.

Lemma lookup_reference_frame ref env node env' :
  lookup_reference ref env = (node, env') -> frame env env'.
Proof.
  unfold lookup_reference. intros Hl.
  destruct (_messages_and_terms (context env) !! reference_to_id ref).
  - injection Hl as _ <-. apply frame_refl.
  - destruct (is_AttributeExpression ref); simpl in Hl;
      [destruct (_messages_and_terms (context env) !! reference_to_id r)|];
      injection Hl as _ <-; apply frame_errors_append; discriminate.
Qed.

Lemma handle_variable_reference_frame name env val env' :
  handle_variable_reference name env = (val, env') -> frame env env'.
Proof.
  unfold handle_variable_reference. intros Hv.
  destruct (args (current env) !! name) as [arg_val|].
  - destruct (is_supported_external arg_val); injection Hv as _ <-;
      [apply frame_refl | apply frame_errors_append; discriminate].
  - destruct (error_for_missing_arg (current env)); injection Hv as _ <-;
      [apply frame_errors_append; discriminate | apply frame_refl].
Qed.

Lemma variant_list_loop_frame h key :
  framing h ->
  forall variants default env r env',
    variant_list_loop h key variants default env = Return r env' ->
    frame env env'.
Proof.
  intros Hh variants.
  induction variants as [|v rest IH]; intros default env r env' Hl; simpl in Hl.
  - injection Hl as _ <-. apply frame_refl.
  - destruct (variant_default v && is_None key).
    + injection Hl as _ <-. apply frame_refl.
    + inv_outcome Hl. apply Hh in E.
      destruct (match_ key a env0).
      * injection Hl as _ <-. exact E.
      * eapply frame_trans; [exact E|]. eapply IH; exact Hl.
Qed.

Lemma select_expression_loop_frame h key :
  framing h ->
  forall variants default env r env',
    select_expression_loop h key variants default env = Return r env' ->
    frame env env'.
Proof.
  intros Hh variants.
  induction variants as [|v rest IH]; intros default env r env' Hl; simpl in Hl.
  - injection Hl as _ <-. apply frame_refl.
  - inv_outcome Hl. apply Hh in E.
    destruct (match_ key a env0).
    + injection Hl as _ <-. exact E.
    + eapply frame_trans; [exact E|]. eapply IH; exact Hl.
Qed.

Lemma select_from_variant_list_frame h variants env key v env' :
  framing h ->
  select_from_variant_list h variants env key = Return v env' ->
  frame env env'.
Proof.
  intros Hh Hs. unfold select_from_variant_list in Hs.
  inv_outcome Hs. apply (variant_list_loop_frame _ _ Hh) in E.
  eapply frame_trans; [exact E|]. clear E.
  destruct a as [[found|] default].
  - eapply Hh; exact Hs.
  - destruct default as [d|]; [|discriminate Hs].
    eapply frame_trans; [|eapply Hh; exact Hs].
    destruct (negb (is_None_or_FluentNone key));
      [apply frame_errors_append; discriminate | apply frame_refl].
Qed.

Lemma select_from_select_expression_frame h variants env key v env' :
  framing h ->
  select_from_select_expression h variants env key = Return v env' ->
  frame env env'.
Proof.
  intros Hh Hs. unfold select_from_select_expression in Hs.
  inv_outcome Hs. apply (select_expression_loop_frame _ _ Hh) in E.
  eapply frame_trans; [exact E|]. clear E.
  destruct a as [[found|] [d|]].
  - eapply Hh; exact Hs.
  - eapply Hh; exact Hs.
  - eapply Hh; exact Hs.
  - injection Hs as _ <-. apply frame_refl.
Qed.

Lemma handle_variant_expression_frame h ref key env v env' :
  framing h ->
  handle_variant_expression h ref key env = Return v env' ->
  frame env env'.
Proof.
  intros Hh Hv. unfold handle_variant_expression in Hv.
  destruct (lookup_reference ref env) as [message env1] eqn:Hl.
  apply lookup_reference_frame in Hl.
  eapply frame_trans; [exact Hl|].
  destruct (is_FluentNone message).
  - injection Hv as _ <-. apply frame_refl.
  - destruct (node_value message) as [[]|]; try discriminate Hv.
    eapply select_from_variant_list_frame; eassumption.
Qed.

Lemma handle_positional_frame h :
  framing h -> framing (handle_positional h).
Proof.
  intros Hh positional.
  induction positional as [|arg rest IH]; intros env vs env' Hp; simpl in Hp.
  - injection Hp as _ <-. apply frame_refl.
  - inv_outcome Hp. inv_outcome Hp. injection Hp as _ <-.
    eapply frame_trans; [eapply Hh; eassumption|]. eapply IH; eassumption.
Qed.

Lemma handle_named_frame h :
  framing h ->
  forall named kwargs env kwargs' env',
    handle_named h named kwargs env = Return kwargs' env' -> frame env env'.
Proof.
  intros Hh named.
  induction named as [|[name value] rest IH]; intros kwargs env kwargs' env' Hn;
    simpl in Hn.
  - injection Hn as _ <-. apply frame_refl.
  - inv_outcome Hn.
    eapply frame_trans; [eapply Hh; eassumption|]. eapply IH; eassumption.
Qed.

Lemma modified_frame {A : Type} evolve (body : ResolverEnvironment -> outcome A)
    env a env' :
  (forall e b e', body e = Return b e' -> frame e e') ->
  modified evolve body env = Return a env' -> frame env env'.
Proof.
  intros Hb Hm. unfold modified in Hm.
  destruct (body (set_current (evolve (current env)) env)) as [b e1| |] eqn:E;
    try discriminate Hm.
  injection Hm as _ <-. apply Hb in E.
  destruct E as (Hc & Hk & Hd & Hn & es & He & Hcount). simpl in *.
  repeat split; simpl; try assumption. exists es. split; assumption.
Qed.

Lemma handle_call_expression_frame h callee positional named env v env' :
  framing h ->
  handle_call_expression h callee positional named env = Return v env' ->
  frame env env'.
Proof.
  intros Hh Hc. unfold handle_call_expression in Hc.
  inv_outcome Hc. apply (handle_positional_frame _ Hh) in E.
  eapply frame_trans; [exact E|]. clear E.
  inv_outcome Hc. apply (handle_named_frame _ Hh) in E.
  eapply frame_trans; [exact E|]. clear E.
  assert (Hterm : forall ref,
    (let '(term, env) := lookup_reference ref env1 in
     let env := match a with
                | [] => env
                | _ :: _ => errors_append
                              (IgnoredPositionalArguments (reference_to_id ref)) env
                end in
     modified_for_term_reference (Some a0) (h term) env) = Return v env' ->
    frame env1 env').
  { intros ref Ht.
    destruct (lookup_reference ref env1) as [term env2] eqn:Hl.
    apply lookup_reference_frame in Hl.
    eapply frame_trans; [exact Hl|].
    eapply frame_trans; [|eapply modified_frame; [|exact Ht]; intros; eapply Hh; eassumption].
    destruct a; [apply frame_refl | apply frame_errors_append; discriminate]. }
  destruct callee as [function_name| |]; try (eapply Hterm; exact Hc).
  destruct (_functions (context env1) !! function_name) as [function|].
  - destruct (inspect_function_args function function_name) as [arg_spec ierrs].
    destruct (args_match function_name a a0 arg_spec) as [[[matched sa] sk] merrs].
    eapply frame_trans; [apply (frame_errors_extend_function ierrs)|].
    eapply frame_trans; [apply (frame_errors_extend_function merrs)|].
    destruct matched; injection Hc as _ <-; apply frame_refl.
  - injection Hc as _ <-. apply frame_errors_append. discriminate.
Qed.

Lemma dispatch_frame h fr :
  framing h -> framing fr -> framing (dispatch h fr).
Proof.
  intros IHh IHf expr env v env' Hx. unfold dispatch in Hx.
  destruct expr as [ | | | | | | | | | | | | | | | |[| |]| | | | | | ];
    try discriminate Hx;
    try (injection Hx as _ <-; apply frame_refl);
    try (eapply IHh; exact Hx).
  - eapply handle_pattern_frame; eassumption.
  - destruct (lookup_reference (MessageReference id) env) as [node env1] eqn:Hl.
    apply lookup_reference_frame in Hl.
    eapply frame_trans; [exact Hl|]. eapply IHh; exact Hx.
  - eapply modified_frame; [|exact Hx]. intros e b e' Hb. simpl in Hb.
    destruct (lookup_reference (TermReference id) e) as [node env1] eqn:Hl.
    apply lookup_reference_frame in Hl.
    eapply frame_trans; [exact Hl|]. eapply IHh; exact Hb.
  - destruct (lookup_reference (AttributeExpression ref name) env) as [node env1] eqn:Hl.
    apply lookup_reference_frame in Hl.
    eapply frame_trans; [exact Hl|]. eapply IHh; exact Hx.
  - destruct (handle_variable_reference name env) as [val env1] eqn:Hv.
    injection Hx as _ <-. eapply handle_variable_reference_frame; exact Hv.
  - eapply select_from_variant_list_frame; eassumption.
  - unfold handle_select_expression in Hx. inv_outcome Hx.
    eapply frame_trans; [eapply IHh; exact E|].
    eapply select_from_select_expression_frame; eassumption.
  - eapply handle_variant_expression_frame; eassumption.
  - eapply handle_call_expression_frame; eassumption.
Qed.

(** Every call of [handle] and of [fully_resolve] that returns frames the
    environment. *)
Lemma handle_fully_resolve_frame fuel :
  framing (handle fuel) /\ framing (fully_resolve fuel).
Proof.
  induction fuel as [|fuel [IHh IHf]]; [split; intros ? ? ? ? Hx; discriminate Hx|].
  split; [apply dispatch_frame; assumption|].
  intros expr env s env' Hx. simpl in Hx. inv_outcome Hx.
  apply IHh in E. eapply frame_trans; [exact E|].
  destruct a; try (eapply IHf; exact Hx).
  injection Hx as _ <-. apply frame_refl.
Qed.

Lemma handle_frame fuel : framing (handle fuel).
Proof. apply handle_fully_resolve_frame. Qed.

Lemma fully_resolve_frame fuel : framing (fully_resolve fuel).
Proof. apply handle_fully_resolve_frame. Qed.

(** *** A larger depth budget changes no result *)

(** [g] agrees with [f] wherever [f] does not run out of budget. *)
Definition refines {A B : Type} (f g : A -> ResolverEnvironment -> outcome B) : Prop :=
  forall a env, f a env = RecursionError \/ g a env = f a env.

Ltac mono_call Hr :=
  match goal with
  | |- context [match ?f ?a ?e with Return _ _ => _ | Raise _ _ => _ | RecursionError => _ end] =>
    let Hf := fresh "Hf" in
    let Hg := fresh "Hg" in
    destruct (Hr a e) as [Hf|Hg];
    [ rewrite Hf; left; reflexivity
    | rewrite Hg; destruct (f a e) as [? ?| |];
      [ | right; reflexivity | left; reflexivity ] ]
  end.

Lemma pattern_loop_mono fr fr' iso :
  refines fr fr' ->
  forall elements parts env,
    pattern_loop fr iso elements parts env = RecursionError \/
    pattern_loop fr' iso elements parts env = pattern_loop fr iso elements parts env.
Proof.
  intros Hr elements.
  induction elements as [|element rest IH]; intros parts env; simpl.
  - right; reflexivity.
  - destruct (MAX_PARTS <? part_count env + 1).
    + destruct (part_count env + 1 =? MAX_PARTS + 1); [|right; reflexivity].
      mono_call Hr. right; reflexivity.
    + destruct element; try apply IH; mono_call Hr; apply IH.
Qed.

Lemma handle_pattern_mono fr fr' pattern elements env :
  refines fr fr' ->
  handle_pattern fr pattern elements env = RecursionError \/
  handle_pattern fr' pattern elements env = handle_pattern fr pattern elements env.
Proof.
  intros Hr. unfold handle_pattern.
  destruct (bool_decide (pattern ∈ dirty env)); [right; reflexivity|].
  destruct (pattern_loop_mono _ _ (_use_isolating (context env) &&
              (1 <? Z.of_nat (length elements))) Hr elements []
              (set_dirty ({[pattern]} ∪ dirty env) env)) as [Hf|Hg]; simpl in *.
  - rewrite Hf. left; reflexivity.
  - rewrite Hg. right; reflexivity.
Qed.

Lemma variant_list_loop_mono h h' key :
  refines h h' ->
  forall variants default env,
    variant_list_loop h key variants default env = RecursionError \/
    variant_list_loop h' key variants default env
    = variant_list_loop h key variants default env.
Proof.
  intros Hr variants.
  induction variants as [|v rest IH]; intros default env; simpl.
  - right; reflexivity.
  - destruct (variant_default v && is_None key); [right; reflexivity|].
    mono_call Hr. destruct (match_ key a env0); [right; reflexivity|apply IH].
Qed.

Lemma select_expression_loop_mono h h' key :
  refines h h' ->
  forall variants default env,
    select_expression_loop h key variants default env = RecursionError \/
    select_expression_loop h' key variants default env
    = select_expression_loop h key variants default env.
Proof.
  intros Hr variants.
  induction variants as [|v rest IH]; intros default env; simpl.
  - right; reflexivity.
  - mono_call Hr. destruct (match_ key a env0); [right; reflexivity|apply IH].
Qed.

Lemma select_from_variant_list_mono h h' variants env key :
  refines h h' ->
  select_from_variant_list h variants env key = RecursionError \/
  select_from_variant_list h' variants env key
  = select_from_variant_list h variants env key.
Proof.
  intros Hr. unfold select_from_variant_list.
  destruct (variant_list_loop_mono _ _ key Hr variants None env) as [Hf|Hg].
  - rewrite Hf. left; reflexivity.
  - rewrite Hg. destruct (variant_list_loop h key variants None env)
      as [[[found|] [d|]] env1| |]; try (right; reflexivity); try (left; reflexivity);
      apply Hr.
Qed.

Lemma select_from_select_expression_mono h h' variants env key :
  refines h h' ->
  select_from_select_expression h variants env key = RecursionError \/
  select_from_select_expression h' variants env key
  = select_from_select_expression h variants env key.
Proof.
  intros Hr. unfold select_from_select_expression.
  destruct (select_expression_loop_mono _ _ key Hr variants None env) as [Hf|Hg].
  - rewrite Hf. left; reflexivity.
  - rewrite Hg. destruct (select_expression_loop h key variants None env)
      as [[[found|] [d|]] env1| |]; try (right; reflexivity); try (left; reflexivity);
      apply Hr.
Qed.

Lemma handle_select_expression_mono h h' selector variants env :
  refines h h' ->
  handle_select_expression h selector variants env = RecursionError \/
  handle_select_expression h' selector variants env
  = handle_select_expression h selector variants env.
Proof.
  intros Hr. unfold handle_select_expression.
  mono_call Hr. apply select_from_select_expression_mono, Hr.
Qed.

Lemma handle_variant_expression_mono h h' ref key env :
  refines h h' ->
  handle_variant_expression h ref key env = RecursionError \/
  handle_variant_expression h' ref key env = handle_variant_expression h ref key env.
Proof.
  intros Hr. unfold handle_variant_expression.
  destruct (lookup_reference ref env) as [message env1].
  destruct (is_FluentNone message); [right; reflexivity|].
  destruct (node_value message) as [[]|]; try (right; reflexivity).
  apply select_from_variant_list_mono, Hr.
Qed.

Lemma handle_positional_mono h h' :
  refines h h' -> refines (handle_positional h) (handle_positional h').
Proof.
  intros Hr positional.
  induction positional as [|arg rest IH]; intros env; simpl.
  - right; reflexivity.
  - mono_call Hr. destruct (IH env0) as [Hf1|Hg1].
    + rewrite Hf1. left; reflexivity.
    + rewrite Hg1. right; reflexivity.
Qed.

Lemma handle_named_mono h h' :
  refines h h' ->
  forall named kwargs env,
    handle_named h named kwargs env = RecursionError \/
    handle_named h' named kwargs env = handle_named h named kwargs env.
Proof.
  intros Hr named.
  induction named as [|[name value] rest IH]; intros kwargs env; simpl.
  - right; reflexivity.
  - mono_call Hr. apply IH.
Qed.

Lemma modified_mono {A : Type} evolve (body body' : ResolverEnvironment -> outcome A) env :
  (forall e, body e = RecursionError \/ body' e = body e) ->
  modified evolve body env = RecursionError \/
  modified evolve body' env = modified evolve body env.
Proof.
  intros Hr. unfold modified.
  destruct (Hr (set_current (evolve (current env)) env)) as [Hf|Hg].
  - rewrite Hf. left; reflexivity.
  - rewrite Hg. right; reflexivity.
Qed.

Lemma handle_call_expression_mono h h' callee positional named env :
  refines h h' ->
  handle_call_expression h callee positional named env = RecursionError \/
  handle_call_expression h' callee positional named env
  = handle_call_expression h callee positional named env.
Proof.
  intros Hr. unfold handle_call_expression.
  destruct (handle_positional_mono _ _ Hr positional env) as [Hf|Hg].
  { rewrite Hf. left; reflexivity. }
  rewrite Hg. destruct (handle_positional h positional env) as [a env0| |];
    [|right; reflexivity|left; reflexivity].
  destruct (handle_named_mono _ _ Hr named ∅ env0) as [Hf1|Hg1].
  { rewrite Hf1. left; reflexivity. }
  rewrite Hg1. destruct (handle_named h named ∅ env0) as [kw env1| |];
    [|right; reflexivity|left; reflexivity].
  destruct callee as [function_name|id|base name]; try (right; reflexivity);
    match goal with
    | |- context [lookup_reference ?r ?e] => destruct (lookup_reference r e) as [term env2]
    end;
    apply modified_mono; intros e; apply Hr.
Qed.

Lemma dispatch_mono h h' fr fr' :
  refines h h' -> refines fr fr' -> refines (dispatch h fr) (dispatch h' fr').
Proof.
  intros IHh IHf expr env. unfold dispatch.
  destruct expr as [ | | | | | | | | | | | | | | | |[| |]| | | | | | ];
    try (right; reflexivity); try apply IHh.
  - apply handle_pattern_mono, IHf.
  - destruct (lookup_reference (MessageReference id) env). apply IHh.
  - apply modified_mono. intros e.
    destruct (lookup_reference (TermReference id) e). apply IHh.
  - destruct (lookup_reference (AttributeExpression ref name) env). apply IHh.
  - apply select_from_variant_list_mono, IHh.
  - apply handle_select_expression_mono, IHh.
  - apply handle_variant_expression_mono, IHh.
  - apply handle_call_expression_mono, IHh.
Qed.

Lemma handle_fully_resolve_step fuel :
  refines (handle fuel) (handle (S fuel)) /\
  refines (fully_resolve fuel) (fully_resolve (S fuel)).
Proof.
  induction fuel as [|fuel [IHh IHf]]; [split; intros ? ?; left; reflexivity|].
  split; [apply dispatch_mono; assumption|].
  intros expr env.
  change (fully_resolve (S (S fuel)) expr env) with
    (let! (retval, env) := handle (S fuel) expr env in
     match retval with
     | Str s => Return s env
     | _ => fully_resolve (S fuel) retval env
     end).
  change (fully_resolve (S fuel) expr env) with
    (let! (retval, env) := handle fuel expr env in
     match retval with
     | Str s => Return s env
     | _ => fully_resolve fuel retval env
     end).
  destruct (IHh expr env) as [Hf|Hg].
  { rewrite Hf. left; reflexivity. }
  rewrite Hg. destruct (handle fuel expr env) as [a env0| |];
    [|right; reflexivity|left; reflexivity].
  destruct a; try apply IHf. right; reflexivity.
Qed.

Lemma handle_fuel_mono n m expr env :
  (n <= m)%nat -> handle n expr env <> RecursionError ->
  handle m expr env = handle n expr env.
Proof.
  intros Hle Hne. induction Hle as [|m Hle IH]; [reflexivity|].
  destruct (proj1 (handle_fully_resolve_step m) expr env) as [Hf|Hg]; congruence.
Qed.

Lemma fully_resolve_fuel_mono n m expr env :
  (n <= m)%nat -> fully_resolve n expr env <> RecursionError ->
  fully_resolve m expr env = fully_resolve n expr env.
Proof.
  intros Hle Hne. induction Hle as [|m Hle IH]; [reflexivity|].
  destruct (proj2 (handle_fully_resolve_step m) expr env) as [Hf|Hg]; congruence.
Qed.

(** *** Unfolding one level of the recursion *)

Lemma handle_S fuel expr env :
  handle (S fuel) expr env = dispatch (handle fuel) (fully_resolve fuel) expr env.
Proof. reflexivity. Qed.

Lemma fully_resolve_S fuel expr env :
  fully_resolve (S fuel) expr env
  = let! (retval, env1) := handle fuel expr env in
    match retval with
    | Str s => Return s env1
    | _ => fully_resolve fuel retval env1
    end.
Proof. reflexivity. Qed.

Lemma fully_resolve_FluentNone fuel name env :
  fully_resolve (S (S fuel)) (FluentNone name) env
  = Return (FluentNone_format name (_babel_locale (context env))) env.
Proof. reflexivity. Qed.

(** *** Records and the guard set *)

Lemma guard_release (pattern : nat) (d : gset nat) :
  pattern ∉ d -> ({[pattern]} ∪ d) ∖ {[pattern]} = d.
Proof. set_solver. Qed.

Lemma set_part_count_same env : set_part_count (part_count env) env = env.
Proof. destruct env; reflexivity. Qed.

(** *** The pattern loop on text and on other elements *)

Lemma pattern_loop_text fr iso values rest parts env :
  part_count env + Z.of_nat (length values) <= MAX_PARTS ->
  pattern_loop fr iso ((TextElement <$> values) ++ rest) parts env
  = pattern_loop fr iso rest (parts ++ values)
      (set_part_count (part_count env + Z.of_nat (length values)) env).
Proof.
  revert parts env.
  induction values as [|value values IH]; intros parts env Hle.
  - simpl. rewrite app_nil_r, Z.add_0_r, set_part_count_same. reflexivity.
  - rewrite fmap_cons. cbn [app pattern_loop].
    cbn [length] in Hle. rewrite Nat2Z.inj_succ in Hle.
    cbn [part_count set_part_count].
    destruct (Z.ltb_spec MAX_PARTS (part_count env + 1)) as [Hgt|_]; [lia|].
    rewrite IH by (cbn [part_count set_part_count]; lia).
    cbn [length]. rewrite Nat2Z.inj_succ, <- app_assoc.
    cbn [part_count set_part_count app].
    replace (part_count env + 1 + Z.of_nat (length values))
      with (part_count env + Z.succ (Z.of_nat (length values))) by lia.
    destruct env; reflexivity.
Qed.

Lemma pattern_loop_all_text fr iso values parts env :
  part_count env + Z.of_nat (length values) <= MAX_PARTS ->
  pattern_loop fr iso (TextElement <$> values) parts env
  = Return (parts ++ values)
      (set_part_count (part_count env + Z.of_nat (length values)) env).
Proof.
  intros Hle. rewrite <- (app_nil_r (TextElement <$> values)).
  rewrite pattern_loop_text by assumption. reflexivity.
Qed.

Lemma pattern_loop_element fr iso element rest parts env :
  part_count env + 1 <= MAX_PARTS ->
  is_TextElement element = false ->
  pattern_loop fr iso (element :: rest) parts env
  = let! (part, env1) := fr element (set_part_count (part_count env + 1) env) in
    pattern_loop fr iso rest (parts ++ element_parts iso part)
      (if MAX_PART_LENGTH <? Z.of_nat (length part)
       then errors_append (TooManyCharacters (length part)) env1 else env1).
Proof.
  intros Hle Htext. cbn [pattern_loop part_count set_part_count].
  destruct (Z.ltb_spec MAX_PARTS (part_count env + 1)) as [Hgt|_]; [lia|].
  unfold element_parts.
  destruct element; try discriminate Htext;
    (destruct (fr _ _) as [part env1| |]; [|reflexivity|reflexivity]);
    destruct iso, (MAX_PART_LENGTH <? Z.of_nat (length part));
    rewrite <- ?app_assoc; reflexivity.
Qed.

Lemma handle_pattern_fresh fr pattern elements env :
  framing fr ->
  pattern ∉ dirty env ->
  handle_pattern fr pattern elements env
  = let! (parts, env1) :=
      pattern_loop fr (_use_isolating (context env) &&
                       (1 <? Z.of_nat (length elements)))
        elements [] (set_dirty ({[pattern]} ∪ dirty env) env) in
    Return (Str (concat parts)) (set_dirty (dirty env) env1).
Proof.
  intros Hfr Hfresh. unfold handle_pattern.
  rewrite bool_decide_eq_false_2 by assumption. cbn [context set_dirty].
  destruct (pattern_loop _ _ _ _ _) as [parts env1| |] eqn:Hl; try reflexivity.
  apply (pattern_loop_frame _ _ Hfr) in Hl.
  destruct Hl as (_ & _ & Hd & _). cbn [dirty set_dirty] in Hd.
  rewrite bool_decide_eq_true_2 by (rewrite Hd; set_solver).
  rewrite Hd, guard_release by assumption. reflexivity.
Qed.

(** C10: a literal text element, whatever its length, is appended to the
    output as it is: no truncation to the part ceiling, no "part too long"
    diagnostic, no isolation marks (also when the bundle asks for them);
    it moves the shared part counter by one.  First for one element met by
    the loop, then for a whole pattern of text elements. *)
Theorem text_element_appended_verbatim
    fr iso value rest parts env fuel pattern values :
  (part_count env + 1 <= MAX_PARTS ->
   pattern_loop fr iso (TextElement value :: rest) parts env
   = pattern_loop fr iso rest (parts ++ [value])
       (set_part_count (part_count env + 1) env)) /\
  (pattern ∉ dirty env ->
   part_count env + Z.of_nat (length values) <= MAX_PARTS ->
   handle (S fuel) (Pattern pattern (TextElement <$> values)) env
   = Return (Str (concat values))
       (set_part_count (part_count env + Z.of_nat (length values)) env)).
Proof.
  split.
  - intros Hle.
    apply (pattern_loop_text fr iso [value] rest parts env). simpl. lia.
  - intros Hfresh Hle. cbn [handle dispatch].
    rewrite handle_pattern_fresh by (apply fully_resolve_frame || assumption).
    rewrite pattern_loop_all_text by (cbn [part_count set_dirty]; lia).
    cbn [app]. destruct env; reflexivity.
Qed.

(** C6: a non-text element whose resolved text is longer than 2500
    characters appends one "part too long" diagnostic, and exactly its first
    2500 characters take its place in the output: first for one element met
    by the loop, then for a pattern whose other elements are text, which come
    out unchanged around it. *)
Theorem long_part_truncated
    fuel iso element rest parts env part env1 pattern before after :
  is_TextElement element = false ->
  MAX_PART_LENGTH < Z.of_nat (length part) ->
  let kept := take (Z.to_nat MAX_PART_LENGTH) part in
  let marks := fun (b : bool) => if b then [FSI; kept; PDI] else [kept] in
  Z.of_nat (length kept) = MAX_PART_LENGTH /\
  (part_count env + 1 <= MAX_PARTS ->
   fully_resolve fuel element (set_part_count (part_count env + 1) env)
   = Return part env1 ->
   pattern_loop (fully_resolve fuel) iso (element :: rest) parts env
   = pattern_loop (fully_resolve fuel) iso rest (parts ++ marks iso)
       (errors_append (TooManyCharacters (length part)) env1)) /\
  (pattern ∉ dirty env ->
   part_count env + Z.of_nat (length before) + 1 <= MAX_PARTS ->
   fully_resolve fuel element
     (set_part_count (part_count env + Z.of_nat (length before) + 1)
        (set_dirty ({[pattern]} ∪ dirty env) env))
   = Return part env1 ->
   part_count env1 + Z.of_nat (length after) <= MAX_PARTS ->
   handle (S fuel)
     (Pattern pattern ((TextElement <$> before) ++ element :: (TextElement <$> after)))
     env
   = Return
       (Str (concat before ++
             concat (marks (_use_isolating (context env) &&
                            (1 <? Z.of_nat (length before + S (length after))))) ++
             concat after))
       (set_dirty (dirty env)
          (set_part_count (part_count env1 + Z.of_nat (length after))
             (errors_append (TooManyCharacters (length part)) env1)))).
Proof.
  intros Htext Hlong kept marks.
  assert (Hparts : forall b, element_parts b part = marks b).
  { intros b. unfold element_parts, marks, kept.
    destruct (Z.ltb_spec MAX_PART_LENGTH (Z.of_nat (length part))); [reflexivity|lia]. }
  split; [|split].
  - unfold kept. rewrite length_take. unfold MAX_PART_LENGTH in *. lia.
  - intros Hle Hcall.
    rewrite pattern_loop_element, Hcall by assumption.
    rewrite Hparts.
    destruct (Z.ltb_spec MAX_PART_LENGTH (Z.of_nat (length part))); [reflexivity|lia].
  - intros Hfresh Hle Hcall Hafter. cbn [handle dispatch].
    rewrite handle_pattern_fresh by (apply fully_resolve_frame || assumption).
    rewrite pattern_loop_text by (cbn [part_count set_dirty]; lia).
    rewrite pattern_loop_element by (cbn [part_count set_part_count set_dirty]; (lia || assumption)).
    cbn [part_count set_part_count set_dirty] in *.
    match goal with
    | |- context [fully_resolve fuel element ?e] =>
      replace e with
        (set_part_count (part_count env + Z.of_nat (length before) + 1)
           (set_dirty ({[pattern]} ∪ dirty env) env)) by reflexivity
    end.
    rewrite Hcall.
    destruct (Z.ltb_spec MAX_PART_LENGTH (Z.of_nat (length part))); [|lia].
    rewrite pattern_loop_all_text by (cbn [part_count errors_append set_errors]; lia).
    rewrite Hparts, length_app. cbn [length]. rewrite !length_fmap.
    rewrite !concat_app. cbn [app concat part_count errors_append set_errors].
    rewrite <- !app_assoc. reflexivity.
Qed.

(** C8: an attribute reference whose full identifier (base, separator,
    attribute name) is not registered records one "unknown reference"
    diagnostic for the full identifier and retries with the base identifier
    alone; when that fails too, nothing more is recorded and the placeholder
    carries the full identifier. *)
Theorem attribute_lookup_falls_back base name env :
  let full := reference_to_id base ++ [46%N] ++ name in
  _messages_and_terms (context env) !! full = None ->
  reference_to_id (AttributeExpression base name) = full /\
  lookup_reference (AttributeExpression base name) env
  = (match _messages_and_terms (context env) !! reference_to_id base with
     | Some node => node
     | None => FluentNone (Some full)
     end,
     errors_append (UnknownReference full) env).
Proof.
  intros full Hmiss. split; [reflexivity|].
  unfold lookup_reference. cbn [reference_to_id is_AttributeExpression].
  fold full. rewrite Hmiss. cbn [context errors_append set_errors].
  destruct (_messages_and_terms (context env) !! reference_to_id base); reflexivity.
Qed.

Lemma match_rec_depth val1 val2 env :
  match_rec 2 val1 val2 env = Some (match_ val1 val2 env).
Proof.
  unfold match_. cbn [match_rec].
  destruct (is_None_or_FluentNone val1) eqn:H1; [reflexivity|].
  destruct (is_None_or_FluentNone val2) eqn:H2; [reflexivity|].
  destruct (is_number val1) eqn:N1, (is_number val2) eqn:N2; cbn [negb];
    rewrite ?H1, ?H2, ?N1, ?N2; reflexivity.
Qed.

(** C7: [match] is the predicate the specification describes, the
    candidate-only-numeric case is the swapped call, and a placeholder or
    absent operand never matches; with selector [5], a numeric variant key
    [5] and a default variant, the select expression resolves the numeric
    variant's value. *)
Theorem match_follows_specification lit z exact fallback other :
  (forall val1 val2 env, match_ val1 val2 env = match_spec val1 val2 env) /\
  (forall val1 val2 env,
     is_None_or_FluentNone val1 = false -> is_None_or_FluentNone val2 = false ->
     is_number val1 = false -> is_number val2 = true ->
     match_ val1 val2 env = match_ val2 val1 env) /\
  (forall val1 val2 env,
     is_None_or_FluentNone val1 = true \/ is_None_or_FluentNone val2 = true ->
     match_ val1 val2 env = false) /\
  (numeric_to_native lit = Int z ->
   forall fuel env,
     handle (S (S fuel))
       (SelectExpression (NumberLiteral lit)
          [Variant (NumberLiteral lit) exact false;
           Variant (Identifier other) fallback true]) env
     = handle (S fuel) exact env).
Proof.
  repeat split.
  - intros val1 val2 env. unfold match_, match_spec. cbn [match_rec].
    destruct (is_None_or_FluentNone val1) eqn:H1; [reflexivity|].
    destruct (is_None_or_FluentNone val2) eqn:H2; [reflexivity|].
    cbn [orb].
    destruct (is_number val1) eqn:N1, (is_number val2) eqn:N2; reflexivity.
  - intros val1 val2 env H1 H2 N1 N2. unfold match_. cbn [match_rec].
    rewrite H1, H2, N1, N2. reflexivity.
  - intros val1 val2 env [H1|H2]; unfold match_; cbn [match_rec].
    + rewrite H1. reflexivity.
    + rewrite H2. destruct (is_None_or_FluentNone val1); reflexivity.
  - intros Hlit fuel env.
    rewrite (handle_S (S fuel)). cbn [dispatch].
    unfold handle_select_expression, select_from_select_expression.
    cbn [select_expression_loop variant_key variant_default variant_value].
    do 2 (rewrite (handle_S fuel (NumberLiteral lit)); cbn [dispatch]; rewrite Hlit).
    unfold match_. cbn [match_rec is_None_or_FluentNone is_number negb py_eq].
    rewrite Z.eqb_refl. reflexivity.
Qed.

(** C9: a variable reference whose name is not bound returns a placeholder
    carrying the name, and records "unknown external" exactly when
    [error_for_missing_arg] is set: the flag is set in the environment
    [resolve] starts from and cleared in the one a term is resolved in, so
    the same reference is reported in a message's pattern and silent in the
    body of a called term. *)
Theorem missing_variable_placeholder name :
  (forall env,
     args (current env) !! name = None ->
     handle_variable_reference name env
     = (FluentNone (Some name),
        if error_for_missing_arg (current env)
        then errors_append (UnknownExternal name) env else env)) /\
  (forall bundle external,
     error_for_missing_arg (current (initial_environment bundle external)) = true) /\
  (forall (kwargs : option (gmap text obj))
          (body : ResolverEnvironment -> outcome obj) env,
     exists inner,
       error_for_missing_arg (current inner) = false /\
       args (current inner) = match kwargs with Some a => a | None => ∅ end /\
       modified_for_term_reference kwargs body env
       = match body inner with
         | Return v env' => Return v (set_current (current env) env')
         | other => other
         end) /\
  (forall fuel bundle external pattern,
     external !! name = None ->
     Z.of_nat (length (FluentNone_format (Some name) (_babel_locale bundle)))
       <= MAX_PART_LENGTH ->
     exists env',
       resolve (6 + fuel) bundle
         (Message (Pattern pattern [Placeable (VariableReference name)])) external
       = Return (FluentNone_format (Some name) (_babel_locale bundle),
                 [UnknownExternal name]) env') /\
  (forall fuel bundle external pattern id named kwargs env1,
     _messages_and_terms bundle !! (TERM_SIGIL ++ id)
       = Some (Term (Pattern pattern [Placeable (VariableReference name)])) ->
     handle_named (handle (6 + fuel)) named ∅ (initial_environment bundle external)
       = Return kwargs env1 ->
     kwargs !! name = None ->
     part_count env1 < MAX_PARTS ->
     Z.of_nat (length (FluentNone_format (Some name) (_babel_locale bundle)))
       <= MAX_PART_LENGTH ->
     handle (7 + fuel) (CallExpression (TermReference id) [] named)
       (initial_environment bundle external)
     = Return (Str (FluentNone_format (Some name) (_babel_locale bundle)))
         (set_part_count (part_count env1 + 1) env1)).
Proof.
  split; [|split; [|split; [|split]]].
  - intros env Hmiss. unfold handle_variable_reference. rewrite Hmiss. reflexivity.
  - reflexivity.
  - intros kwargs body env.
    exists (set_current
              {| args := match kwargs with Some a => a | None => ∅ end;
                 error_for_missing_arg := false |} env).
    split; [reflexivity|]. split; [reflexivity|].
    unfold modified_for_term_reference, modified.
    destruct (body _); reflexivity.
  - intros fuel bundle external pattern Hmiss Hlen. eexists.
    unfold resolve.
    change (6 + fuel)%nat with (S (S (S (S (S (S fuel)))))).
    rewrite fully_resolve_S, handle_S. cbn [dispatch].
    rewrite handle_S. cbn [dispatch].
    rewrite handle_pattern_fresh by first [apply fully_resolve_frame | set_solver].
    rewrite pattern_loop_element by first [cbn; unfold MAX_PARTS; lia | reflexivity].
    rewrite fully_resolve_S, handle_S. cbn [dispatch].
    rewrite handle_S. cbn [dispatch].
    unfold handle_variable_reference. env_simpl.
    rewrite Hmiss. rewrite fully_resolve_FluentNone. env_simpl.
    cbn [pattern_loop]. unfold element_parts.
    destruct (Z.ltb_spec MAX_PART_LENGTH
                (Z.of_nat (length (FluentNone_format (Some name) (_babel_locale bundle)))));
      [lia|].
    cbn [length]. change (1 <? Z.of_nat 1) with false.
    rewrite andb_false_r. cbn [concat app]. rewrite app_nil_r.
    reflexivity.
  - intros fuel bundle external pattern id named kwargs env1 Hterm Hnamed Hmiss Hcount Hlen.
    change (7 + fuel)%nat with (S (S (S (S (S (S (S fuel))))))).
    change (6 + fuel)%nat with (S (S (S (S (S (S fuel)))))) in Hnamed.
    rewrite handle_S. cbn [dispatch]. unfold handle_call_expression.
    cbn [handle_positional]. rewrite Hnamed.
    pose proof (handle_named_frame _ (handle_frame _) _ _ _ _ _ Hnamed)
      as (Hc & Hk & Hd & Hn & _).
    env_simpl.
    unfold lookup_reference. cbn [reference_to_id]. rewrite Hc. cbn [_messages_and_terms].
    rewrite Hterm.
    unfold modified_for_term_reference, modified.
    rewrite handle_S. cbn [dispatch]. rewrite handle_S. cbn [dispatch].
    rewrite handle_pattern_fresh
      by first [apply fully_resolve_frame | env_simpl; rewrite Hd; apply not_elem_of_empty].
    rewrite pattern_loop_element
      by first [env_simpl; lia | reflexivity].
    rewrite fully_resolve_S, handle_S. cbn [dispatch].
    rewrite handle_S. cbn [dispatch].
    unfold handle_variable_reference. env_simpl.
    rewrite Hmiss. rewrite fully_resolve_FluentNone. env_simpl.
    rewrite Hc.
    cbn [pattern_loop]. unfold element_parts.
    destruct (Z.ltb_spec MAX_PART_LENGTH
                (Z.of_nat (length (FluentNone_format (Some name) (_babel_locale bundle)))));
      [lia|].
    cbn [length]. change (1 <? Z.of_nat 1) with false.
    rewrite andb_false_r. cbn [concat app]. rewrite app_nil_r.
    env_simpl. destruct env1; reflexivity.
Qed.

(** *** The part counter *)

Lemma pattern_loop_crossing fr iso element rest parts env :
  part_count env = MAX_PARTS ->
  pattern_loop fr iso (element :: rest) parts env
  = let! (part, env1) :=
      fr (FluentNone None)
         (errors_append TooManyParts (set_part_count (MAX_PARTS + 1) env)) in
    Return (parts ++ [part]) env1.
Proof.
  intros Hc. cbn [pattern_loop]. env_simpl. rewrite Hc. reflexivity.
Qed.

Lemma pattern_loop_exceeded fr iso element rest parts env :
  MAX_PARTS < part_count env ->
  pattern_loop fr iso (element :: rest) parts env
  = Return parts (set_part_count (part_count env + 1) env).
Proof.
  intros Hc. cbn [pattern_loop]. env_simpl.
  destruct (Z.ltb_spec MAX_PARTS (part_count env + 1)); [|lia].
  destruct (Z.eqb_spec (part_count env + 1) (MAX_PARTS + 1)); [lia|reflexivity].
Qed.

Lemma pattern_loop_count fr iso :
  framing fr ->
  forall elements parts env parts' env',
    pattern_loop fr iso elements parts env = Return parts' env' ->
    MAX_PARTS < part_count env' \/
    part_count env + Z.of_nat (length elements) <= part_count env'.
Proof.
  intros Hfr elements.
  induction elements as [|element rest IH]; intros parts env parts' env' Hl.
  - injection Hl as _ <-. right. simpl. lia.
  - destruct (Z.ltb_spec MAX_PARTS (part_count env + 1)) as [Hgt|Hle].
    + left.
      destruct (Z.eq_dec (part_count env) MAX_PARTS) as [Heq|Hne].
      * rewrite pattern_loop_crossing in Hl by assumption.
        inv_outcome Hl. injection Hl as _ <-.
        apply Hfr in E. destruct E as (_ & _ & _ & Hn & _). env_simpl. lia.
      * rewrite pattern_loop_exceeded in Hl by lia.
        injection Hl as _ <-. env_simpl. lia.
    + destruct (is_TextElement element) eqn:Htext.
      * destruct element; try discriminate Htext.
        cbn [pattern_loop] in Hl. env_simpl.
        destruct (Z.ltb_spec MAX_PARTS (part_count env + 1)); [lia|].
        apply IH in Hl. env_simpl. cbn [length]. lia.
      * rewrite pattern_loop_element in Hl by assumption.
        inv_outcome Hl. apply Hfr in E. destruct E as (_ & _ & _ & Hn & _).
        apply IH in Hl. env_simpl. cbn [length].
        destruct (MAX_PART_LENGTH <? Z.of_nat (length a)); env_simpl; lia.
Qed.

Lemma pattern_loop_last_irrelevant fr iso last last' :
  framing fr ->
  forall elements parts env,
    MAX_PARTS <= part_count env + Z.of_nat (length elements) ->
    pattern_loop fr iso (elements ++ [last]) parts env
    = pattern_loop fr iso (elements ++ [last']) parts env.
Proof.
  intros Hfr elements.
  induction elements as [|element rest IH]; intros parts env Hc.
  - cbn [app pattern_loop length] in *. env_simpl.
    destruct (Z.ltb_spec MAX_PARTS (part_count env + 1)); [reflexivity|lia].
  - cbn [app length] in *.
    destruct (Z.ltb_spec MAX_PARTS (part_count env + 1)) as [Hgt|Hle].
    + cbn [pattern_loop]. env_simpl.
      destruct (Z.ltb_spec MAX_PARTS (part_count env + 1)); [reflexivity|lia].
    + destruct (is_TextElement element) eqn:Htext.
      * destruct element; try discriminate Htext.
        cbn [pattern_loop]. env_simpl.
        destruct (Z.ltb_spec MAX_PARTS (part_count env + 1)); [lia|].
        apply IH. env_simpl. lia.
      * rewrite !pattern_loop_element by assumption.
        destruct (fr element _) as [part env1| |] eqn:E; try reflexivity.
        apply Hfr in E. destruct E as (_ & _ & _ & Hn & _). env_simpl.
        apply IH.
        destruct (MAX_PART_LENGTH <? Z.of_nat (length part)); env_simpl; lia.
Qed.

Lemma handle_message_pattern_inv fuel pattern elements env v env' :
  handle fuel (Message (Pattern pattern elements)) env = Return v env' ->
  pattern ∉ dirty env ->
  exists fuel' parts env1,
    fuel = S (S fuel') /\
    pattern_loop (fully_resolve fuel')
      (_use_isolating (context env) && (1 <? Z.of_nat (length elements)))
      elements [] (set_dirty ({[pattern]} ∪ dirty env) env)
    = Return parts env1 /\
    v = Str (concat parts) /\ env' = set_dirty (dirty env) env1.
Proof.
  intros Hh Hfresh.
  destruct fuel as [|[|fuel']]; try discriminate Hh.
  rewrite handle_S in Hh. cbn [dispatch] in Hh.
  rewrite handle_S in Hh. cbn [dispatch] in Hh.
  rewrite handle_pattern_fresh in Hh by first [apply fully_resolve_frame | assumption].
  inv_outcome Hh. injection Hh as <- <-.
  exists fuel', a, env0. auto.
Qed.

Lemma resolve_too_many_parts_count fuel bundle message external s errs env' :
  resolve fuel bundle message external = Return (s, errs) env' ->
  count_too_many_parts errs
  = if MAX_PARTS <? part_count env' then 1%nat else 0%nat.
Proof.
  intros Hr. unfold resolve in Hr.
  inv_outcome Hr. injection Hr as <- <- <-.
  apply fully_resolve_frame in E.
  destruct E as (_ & _ & _ & Hn & es & He & Hcount). env_simpl.
  rewrite He. cbn [app]. rewrite Hcount. unfold crossing. reflexivity.
Qed.

(** C5: the part counter is one counter for the whole call, and each
    element a pattern loop meets moves it by one.  The element that takes it
    from 1000 to 1001 appends one "too many parts" diagnostic and one
    rendered placeholder and ends the loop; with the counter above 1000 a
    loop ends at once, contributes nothing and reports nothing; below 1000
    an element, text or not, is processed with the counter moved by one; no call
    lowers the counter, so this holds for every enclosing and every later
    loop.  A call records the diagnostic once if the counter ended above
    1000 and not at all otherwise.  A pattern of 1001 text elements gives the
    first 1000 texts, the placeholder and that one diagnostic; for 1001
    elements of any kind the 1001st has no effect on the result and the
    diagnostic is recorded exactly once. *)
Theorem too_many_parts_reported_once :
  (forall fuel iso element rest parts env,
     part_count env = MAX_PARTS ->
     pattern_loop (fully_resolve (S (S fuel))) iso (element :: rest) parts env
     = Return (parts ++ [FluentNone_format None (_babel_locale (context env))])
         (errors_append TooManyParts (set_part_count (MAX_PARTS + 1) env))) /\
  (forall fr iso element rest parts env,
     MAX_PARTS < part_count env ->
     pattern_loop fr iso (element :: rest) parts env
     = Return parts (set_part_count (part_count env + 1) env)) /\
  (forall fr iso element rest parts env,
     part_count env < MAX_PARTS ->
     is_TextElement element = false ->
     pattern_loop fr iso (element :: rest) parts env
     = let! (part, env1) := fr element (set_part_count (part_count env + 1) env) in
       pattern_loop fr iso rest (parts ++ element_parts iso part)
         (if MAX_PART_LENGTH <? Z.of_nat (length part)
          then errors_append (TooManyCharacters (length part)) env1 else env1)) /\
  (forall fr iso value rest parts env,
     part_count env < MAX_PARTS ->
     pattern_loop fr iso (TextElement value :: rest) parts env
     = pattern_loop fr iso rest (parts ++ [value])
         (set_part_count (part_count env + 1) env)) /\
  (forall fuel expr env v env',
     handle fuel expr env = Return v env' ->
     part_count env <= part_count env' /\
     exists es, errors env' = errors env ++ es /\
                count_too_many_parts es
                = crossing (part_count env) (part_count env')) /\
  (forall fuel bundle message external s errs env',
     resolve fuel bundle message external = Return (s, errs) env' ->
     count_too_many_parts errs
     = if MAX_PARTS <? part_count env' then 1%nat else 0%nat) /\
  (forall fuel bundle pattern values external,
     Z.of_nat (length values) = MAX_PARTS + 1 ->
     exists env',
       resolve (5 + fuel) bundle
         (Message (Pattern pattern (TextElement <$> values))) external
       = Return (concat (take (Z.to_nat MAX_PARTS) values) ++
                 FluentNone_format None (_babel_locale bundle),
                 [TooManyParts]) env') /\
  (forall fuel bundle pattern elements last last' external,
     Z.of_nat (length elements) = MAX_PARTS ->
     resolve fuel bundle (Message (Pattern pattern (elements ++ [last]))) external
     = resolve fuel bundle (Message (Pattern pattern (elements ++ [last']))) external /\
     forall s errs env',
       resolve fuel bundle (Message (Pattern pattern (elements ++ [last]))) external
       = Return (s, errs) env' ->
       count_too_many_parts errs = 1%nat).
Proof.
  split; [|split; [|split; [|split; [|split; [|split; [|split]]]]]].
  - intros fuel iso element rest parts env Hc.
    rewrite pattern_loop_crossing by assumption.
    rewrite fully_resolve_FluentNone. reflexivity.
  - intros. apply pattern_loop_exceeded. assumption.
  - intros. apply pattern_loop_element; [lia|assumption].
  - intros fr iso value rest parts env Hc.
    apply (pattern_loop_text fr iso [value] rest parts env). cbn [length]. lia.
  - intros fuel expr env v env' Hh.
    apply handle_frame in Hh. destruct Hh as (_ & _ & _ & Hn & Hes). auto.
  - intros. eapply resolve_too_many_parts_count; eassumption.
  - intros fuel bundle pattern values external Hlen. eexists.
    unfold resolve.
    change (5 + fuel)%nat with (S (S (S (S (S fuel))))).
    rewrite fully_resolve_S, handle_S. cbn [dispatch].
    rewrite handle_S. cbn [dispatch].
    rewrite handle_pattern_fresh
      by first [apply fully_resolve_frame | apply not_elem_of_empty].
    assert (Hsplit : exists v, values = take (Z.to_nat MAX_PARTS) values ++ [v]).
    { destruct (drop (Z.to_nat MAX_PARTS) values) as [|v [|w rest]] eqn:Hd.
      - apply (f_equal length) in Hd. rewrite length_drop in Hd.
        cbn [length] in Hd. unfold MAX_PARTS in *. lia.
      - exists v. rewrite <- Hd. symmetry. apply take_drop.
      - apply (f_equal length) in Hd. rewrite length_drop in Hd.
        cbn [length] in Hd. unfold MAX_PARTS in *. lia. }
    destruct Hsplit as [v Hv].
    assert (Htake : Z.of_nat (length (take (Z.to_nat MAX_PARTS) values)) = MAX_PARTS).
    { rewrite length_take. unfold MAX_PARTS in *. lia. }
    rewrite Hv at 2. rewrite fmap_app. cbn [fmap list_fmap].
    rewrite pattern_loop_text by (env_simpl; lia).
    rewrite pattern_loop_crossing by (env_simpl; lia).
    rewrite fully_resolve_FluentNone. env_simpl.
    cbn [app]. rewrite concat_app. cbn [concat]. rewrite app_nil_r.
    reflexivity.
  - intros fuel bundle pattern elements last last' external Hlen.
    set (env0 := initial_environment bundle external).
    assert (Hsame : forall n,
      handle n (Message (Pattern pattern (elements ++ [last]))) env0
      = handle n (Message (Pattern pattern (elements ++ [last']))) env0).
    { intros [|[|n]]; try reflexivity.
      rewrite !(handle_S (S n)). cbn [dispatch].
      rewrite !(handle_S n). cbn [dispatch]. unfold handle_pattern.
      destruct (bool_decide (pattern ∈ dirty env0)); [reflexivity|].
      rewrite !length_app. cbn [length].
      rewrite (pattern_loop_last_irrelevant _ _ last last')
        by first [apply fully_resolve_frame | subst env0; env_simpl; lia].
      reflexivity. }
    split.
    + unfold resolve. fold env0. destruct fuel as [|n]; [reflexivity|].
      rewrite !fully_resolve_S, Hsame. reflexivity.
    + intros s errs env' Hr.
      pose proof Hr as Hcount. apply resolve_too_many_parts_count in Hcount.
      rewrite Hcount. clear Hcount.
      unfold resolve in Hr. fold env0 in Hr.
      inv_outcome Hr. injection Hr as <- <- <-.
      destruct fuel as [|n]; [discriminate E|].
      rewrite fully_resolve_S in E. inv_outcome E.
      apply handle_message_pattern_inv in E0; [|apply not_elem_of_empty].
      destruct E0 as (fuel' & parts & env2 & -> & Hl & -> & ->).
      injection E as _ <-.
      apply (pattern_loop_count _ _ (fully_resolve_frame _)) in Hl.
      rewrite length_app in Hl. cbn [length] in Hl. subst env0. env_simpl.
      destruct (Z.ltb_spec MAX_PARTS (part_count env2)); [reflexivity|lia].
Qed.

(** *** Cyclic references *)

Lemma forwarding_chain_closes first pattern0 registry bundle :
  _messages_and_terms bundle = registry ->
  forall rest env next0,
    forwarding_chain registry first rest ->
    registry !! first = Some (forwarding pattern0 next0) ->
    NoDup rest.*2 ->
    context env = bundle ->
    pattern0 ∈ dirty env ->
    (forall p, p ∈ rest.*2 -> p ∉ dirty env) ->
    part_count env + Z.of_nat (length rest) <= MAX_PARTS ->
    Z.of_nat (length (FluentNone_format None (_babel_locale bundle)))
      <= MAX_PART_LENGTH ->
    fully_resolve (5 + 5 * length rest)
      (Placeable (Ref (MessageReference (next_in_chain first rest)))) env
    = Return (FluentNone_format None (_babel_locale bundle))
        (errors_append CyclicReference
           (set_part_count (part_count env + Z.of_nat (length rest)) env)).
Proof.
  intros Hreg rest.
  induction rest as [|[id pattern] rest IH];
    intros env next0 Hchain Hfirst Hnodup Hctx Hin Hfresh Hcount Hlen.
  - cbn [length Nat.mul Nat.add next_in_chain].
    rewrite fully_resolve_S, handle_S. cbn [dispatch].
    rewrite handle_S. cbn [dispatch]. unfold lookup_reference.
    cbn [reference_to_id]. rewrite Hctx, Hreg, Hfirst. unfold forwarding.
    rewrite handle_S. cbn [dispatch]. rewrite handle_S. cbn [dispatch].
    unfold handle_pattern. rewrite bool_decide_eq_true_2 by assumption.
    rewrite fully_resolve_FluentNone. env_simpl. rewrite Hctx.
    rewrite Z.add_0_r, set_part_count_same. reflexivity.
  - cbn [forwarding_chain] in Hchain. destruct Hchain as [Hid Hchain].
    cbn [fmap list_fmap snd] in Hnodup, Hfresh.
    apply NoDup_cons in Hnodup. destruct Hnodup as [Hnotin Hnodup].
    cbn [length] in *. rewrite Nat2Z.inj_succ in Hcount.
    replace (5 + 5 * S (length rest))%nat
      with (S (S (S (S (S (5 + 5 * length rest)))))) by lia.
    cbn [next_in_chain].
    rewrite fully_resolve_S, handle_S. cbn [dispatch].
    rewrite handle_S. cbn [dispatch]. unfold lookup_reference.
    cbn [reference_to_id]. rewrite Hctx, Hreg, Hid. unfold forwarding.
    rewrite handle_S. cbn [dispatch]. rewrite handle_S. cbn [dispatch].
    rewrite handle_pattern_fresh
      by first [apply fully_resolve_frame | apply Hfresh; left].
    rewrite pattern_loop_element by first [env_simpl; lia | reflexivity].
    rewrite (IH _ next0); try assumption; env_simpl; try assumption.
    + destruct (Z.ltb_spec MAX_PART_LENGTH
                  (Z.of_nat (length (FluentNone_format None (_babel_locale bundle)))));
        [lia|].
      cbn [pattern_loop]. unfold element_parts.
      destruct (Z.ltb_spec MAX_PART_LENGTH
                  (Z.of_nat (length (FluentNone_format None (_babel_locale bundle)))));
        [lia|].
      cbn [length]. change (1 <? Z.of_nat 1) with false.
      rewrite andb_false_r. cbn [concat app]. rewrite app_nil_r.
      env_simpl. rewrite Nat2Z.inj_succ.
      replace (part_count env + Z.succ (Z.of_nat (length rest)))
        with (part_count env + 1 + Z.of_nat (length rest)) by lia.
      destruct env; reflexivity.
    + apply elem_of_union_r. assumption.
    + intros p Hp Hp'. apply elem_of_union in Hp'. destruct Hp' as [Hp'|Hp'].
      * apply elem_of_singleton in Hp'. subst p. contradiction.
      * apply (Hfresh p); [right; assumption|assumption].
    + lia.
Qed.

Lemma forwarding_cycle_resolves bundle external first pattern0 rest :
  forwarding_chain (_messages_and_terms bundle) first ((first, pattern0) :: rest) ->
  NoDup ((first, pattern0) :: rest).*2 ->
  Z.of_nat (length rest) + 1 <= MAX_PARTS ->
  Z.of_nat (length (FluentNone_format None (_babel_locale bundle)))
    <= MAX_PART_LENGTH ->
  exists env',
    resolve (8 + 5 * length rest) bundle
      (forwarding pattern0 (next_in_chain first rest)) external
    = Return (FluentNone_format None (_babel_locale bundle), [CyclicReference]) env'.
Proof.
  intros Hchain Hnodup Hcount Hlen.
  cbn [forwarding_chain] in Hchain. destruct Hchain as [Hfirst Hchain].
  cbn [fmap list_fmap snd] in Hnodup.
  apply NoDup_cons in Hnodup. destruct Hnodup as [Hnotin Hnodup].
  set (inner := (5 + 5 * length rest)%nat).
  set (env0 := initial_environment bundle external).
  assert (Hrun : exists env',
    fully_resolve (S (S (S inner)))
      (forwarding pattern0 (next_in_chain first rest)) env0
    = Return (FluentNone_format None (_babel_locale bundle)) env' /\
    errors env' = [CyclicReference]).
  { unfold forwarding.
    rewrite fully_resolve_S, handle_S. cbn [dispatch].
    rewrite handle_S. cbn [dispatch].
    rewrite handle_pattern_fresh
      by first [apply fully_resolve_frame | apply not_elem_of_empty].
    rewrite pattern_loop_element
      by first [subst env0; env_simpl; lia | reflexivity].
    unfold inner.
    rewrite (forwarding_chain_closes first pattern0 _ bundle eq_refl rest _ _
               Hchain Hfirst Hnodup);
      subst env0; env_simpl; try reflexivity; try assumption; try lia.
    - destruct (Z.ltb_spec MAX_PART_LENGTH
                  (Z.of_nat (length (FluentNone_format None (_babel_locale bundle)))));
        [lia|].
      cbn [pattern_loop]. unfold element_parts.
      destruct (Z.ltb_spec MAX_PART_LENGTH
                  (Z.of_nat (length (FluentNone_format None (_babel_locale bundle)))));
        [lia|].
      cbn [length]. change (1 <? Z.of_nat 1) with false.
      rewrite andb_false_r. cbn [concat app]. rewrite app_nil_r.
      eexists. split; reflexivity.
    - apply elem_of_union_l, elem_of_singleton. reflexivity.
    - intros p Hp Hp'. apply elem_of_union in Hp'. destruct Hp' as [Hp'|Hp'].
      + apply elem_of_singleton in Hp'. subst p. contradiction.
      + exact (not_elem_of_empty p Hp'). }
  destruct Hrun as (env' & Hrun & Herrs).
  exists env'. unfold resolve. fold env0.
  change (8 + 5 * length rest)%nat with (S (S (S inner))).
  rewrite Hrun, Herrs. reflexivity.
Qed.

End Properties.

(** ** Totality on well-formed input *)

Section Totality.
Context `{Runtime}.

Lemma refines_refl {A B : Type} (f : A -> ResolverEnvironment -> outcome B) :
  refines f f.
Proof. intros a env. right; reflexivity. Qed.

Lemma refines_trans {A B : Type} (f g h : A -> ResolverEnvironment -> outcome B) :
  refines f g -> refines g h -> refines f h.
Proof.
  intros Hfg Hgh a env.
  destruct (Hfg a env) as [Hf|Hg]; [left; exact Hf|].
  destruct (Hgh a env) as [Hg'|Hh]; [left; congruence|right; congruence].
Qed.

Lemma handle_refines n m : (n <= m)%nat -> refines (handle n) (handle m).
Proof.
  intros Hle. induction Hle as [|m Hle IH]; [apply refines_refl|].
  eapply refines_trans; [exact IH|apply handle_fully_resolve_step].
Qed.

Lemma fully_resolve_refines n m :
  (n <= m)%nat -> refines (fully_resolve n) (fully_resolve m).
Proof.
  intros Hle. induction Hle as [|m Hle IH]; [apply refines_refl|].
  eapply refines_trans; [exact IH|apply handle_fully_resolve_step].
Qed.

Lemma handle_lift n m e env v env' :
  (n <= m)%nat -> handle n e env = Return v env' -> handle m e env = Return v env'.
Proof.
  intros Hle Hh. destruct (handle_refines n m Hle e env); congruence.
Qed.

Lemma fully_resolve_lift n m e env s env' :
  (n <= m)%nat -> fully_resolve n e env = Return s env' ->
  fully_resolve m e env = Return s env'.
Proof.
  intros Hle Hh. destruct (fully_resolve_refines n m Hle e env); congruence.
Qed.

Lemma pattern_loop_lift n m iso elements parts env parts' env' :
  (n <= m)%nat ->
  pattern_loop (fully_resolve n) iso elements parts env = Return parts' env' ->
  pattern_loop (fully_resolve m) iso elements parts env = Return parts' env'.
Proof.
  intros Hle Hl.
  destruct (pattern_loop_mono _ _ iso (fully_resolve_refines n m Hle) elements parts env);
    congruence.
Qed.

Lemma variant_list_loop_lift n m key variants default env r env' :
  (n <= m)%nat ->
  variant_list_loop (handle n) key variants default env = Return r env' ->
  variant_list_loop (handle m) key variants default env = Return r env'.
Proof.
  intros Hle Hl.
  destruct (variant_list_loop_mono _ _ key (handle_refines n m Hle) variants default env);
    congruence.
Qed.

Lemma select_expression_loop_lift n m key variants default env r env' :
  (n <= m)%nat ->
  select_expression_loop (handle n) key variants default env = Return r env' ->
  select_expression_loop (handle m) key variants default env = Return r env'.
Proof.
  intros Hle Hl.
  destruct (select_expression_loop_mono _ _ key (handle_refines n m Hle)
              variants default env); congruence.
Qed.

Lemma handle_positional_lift n m positional env vs env' :
  (n <= m)%nat ->
  handle_positional (handle n) positional env = Return vs env' ->
  handle_positional (handle m) positional env = Return vs env'.
Proof.
  intros Hle Hl.
  destruct (handle_positional_mono _ _ (handle_refines n m Hle) positional env);
    congruence.
Qed.

Lemma handle_named_lift n m named kwargs env kwargs' env' :
  (n <= m)%nat ->
  handle_named (handle n) named kwargs env = Return kwargs' env' ->
  handle_named (handle m) named kwargs env = Return kwargs' env'.
Proof.
  intros Hle Hl.
  destruct (handle_named_mono _ _ (handle_refines n m Hle) named kwargs env);
    congruence.
Qed.

(** *** The scope of a call *)

Lemma within_same bundle k env env' :
  context env' = context env -> dirty env' = dirty env ->
  within bundle k env -> within bundle k env'.
Proof. intros Hc Hd [Hb Hs]. split; [congruence|]. rewrite Hd. exact Hs. Qed.

Lemma within_frame bundle k env env' :
  frame env env' -> within bundle k env -> within bundle k env'.
Proof. intros (Hc & _ & Hd & _). apply within_same; assumption. Qed.

Lemma within_enter_any bundle k pattern env :
  within bundle k env ->
  within bundle k (set_dirty ({[pattern]} ∪ dirty env) env).
Proof.
  intros [Hb Hs]. split; [exact Hb|]. cbn [dirty set_dirty].
  etransitivity; [|exact Hs]. apply subseteq_size. set_solver.
Qed.

Lemma within_enter_entry bundle k pattern env :
  pattern ∈ entry_patterns (_messages_and_terms bundle) ->
  pattern ∉ dirty env ->
  within bundle k env ->
  exists k', k = S k' /\
             within bundle k' (set_dirty ({[pattern]} ∪ dirty env) env).
Proof.
  intros Hin Hfresh [Hb Hs].
  assert (Hlt : (size (entry_patterns (_messages_and_terms bundle)
                       ∖ ({[pattern]} ∪ dirty env))
                 < size (entry_patterns (_messages_and_terms bundle) ∖ dirty env))%nat).
  { apply subset_size. set_solver. }
  destruct k as [|k']; [lia|].
  exists k'. split; [reflexivity|]. split; [exact Hb|]. cbn [dirty set_dirty]. lia.
Qed.

(** *** Well-formedness and size, by cases *)

Lemma wf_Pattern registry pattern elements :
  wf_expr registry (Pattern pattern elements) = true ->
  Forall (fun x => wf_expr registry x = true) elements.
Proof.
  cbn [wf_expr]. induction elements as [|x l IH]; intros Hw; constructor.
  - apply andb_true_iff in Hw. apply Hw.
  - apply IH. apply andb_true_iff in Hw. apply Hw.
Qed.

Lemma wf_variants_all registry variants :
  (fix all (l : list variant) : bool :=
     match l with
     | [] => true
     | v :: l' => wf_variant registry v && all l'
     end) variants = true ->
  Forall (fun v => wf_expr registry (variant_key v) = true /\
                   wf_expr registry (variant_value v) = true) variants.
Proof.
  induction variants as [|[k b d] l IH]; intros Hw; constructor.
  - apply andb_true_iff in Hw. destruct Hw as [Hv _].
    cbn [wf_variant] in Hv. apply andb_true_iff in Hv. exact Hv.
  - apply IH. apply andb_true_iff in Hw. apply Hw.
Qed.

Lemma wf_VariantList registry variants :
  wf_expr registry (VariantList variants) = true ->
  existsb variant_default variants = true /\
  Forall (fun v => wf_expr registry (variant_key v) = true /\
                   wf_expr registry (variant_value v) = true) variants.
Proof.
  cbn [wf_expr]. intros Hw. apply andb_true_iff in Hw. destruct Hw as [Hd Hall].
  split; [exact Hd|]. apply wf_variants_all. exact Hall.
Qed.

Lemma wf_SelectExpression registry selector variants :
  wf_expr registry (SelectExpression selector variants) = true ->
  wf_expr registry selector = true /\
  Forall (fun v => wf_expr registry (variant_key v) = true /\
                   wf_expr registry (variant_value v) = true) variants.
Proof.
  cbn [wf_expr]. intros Hw. apply andb_true_iff in Hw. destruct Hw as [Hd Hall].
  split; [exact Hd|]. apply wf_variants_all. exact Hall.
Qed.

Lemma wf_CallExpression registry callee positional named :
  wf_expr registry (CallExpression callee positional named) = true ->
  Forall (fun x => wf_expr registry x = true) positional /\
  Forall (fun kv => wf_expr registry kv.2 = true) named.
Proof.
  cbn [wf_expr]. intros Hw. apply andb_true_iff in Hw. destruct Hw as [Hp Hn].
  split.
  - clear Hn. induction positional as [|x l IH]; constructor;
      apply andb_true_iff in Hp; [apply Hp|apply IH, Hp].
  - clear Hp. induction named as [|[n x] l IH]; constructor;
      apply andb_true_iff in Hn; [apply Hn|apply IH, Hn].
Qed.

Lemma osize_elements pattern elements x :
  x ∈ elements -> (osize x < osize (Pattern pattern elements))%nat.
Proof.
  cbn [osize]. induction elements as [|y l IH]; intros Hin.
  - apply elem_of_nil in Hin. contradiction.
  - apply elem_of_cons in Hin. destruct Hin as [->|Hin]; [lia|].
    specialize (IH Hin). lia.
Qed.

Lemma vsize_variants variants v :
  v ∈ variants ->
  (vsize v <= (fix sum (l : list variant) : nat :=
                 match l with
                 | [] => O
                 | v :: l' => (vsize v + sum l')%nat
                 end) variants)%nat.
Proof.
  induction variants as [|y l IH]; intros Hin.
  - apply elem_of_nil in Hin. contradiction.
  - apply elem_of_cons in Hin. destruct Hin as [->|Hin]; [lia|].
    specialize (IH Hin). lia.
Qed.

Lemma osize_variant v :
  (osize (variant_key v) < vsize v)%nat /\ (osize (variant_value v) < vsize v)%nat.
Proof. destruct v as [k b d]. cbn [vsize variant_key variant_value]. lia. Qed.

Lemma osize_VariantList variants v :
  v ∈ variants ->
  (osize (variant_key v) < osize (VariantList variants))%nat /\
  (osize (variant_value v) < osize (VariantList variants))%nat.
Proof.
  intros Hin. pose proof (vsize_variants _ _ Hin). pose proof (osize_variant v).
  cbn [osize]. lia.
Qed.

Lemma osize_SelectExpression selector variants v :
  v ∈ variants ->
  (osize (variant_key v) < osize (SelectExpression selector variants))%nat /\
  (osize (variant_value v) < osize (SelectExpression selector variants))%nat.
Proof.
  intros Hin. pose proof (vsize_variants _ _ Hin). pose proof (osize_variant v).
  cbn [osize]. lia.
Qed.

Lemma osize_positional callee positional named x :
  x ∈ positional ->
  (osize x < osize (CallExpression callee positional named))%nat.
Proof.
  cbn [osize]. generalize ((fix sum (l : list (text * obj)) : nat :=
          match l with
          | [] => O
          | (_, x) :: l' => (osize x + sum l')%nat
          end) named).
  induction positional as [|y l IH]; intros n Hin.
  - apply elem_of_nil in Hin. contradiction.
  - apply elem_of_cons in Hin. destruct Hin as [->|Hin]; [lia|].
    specialize (IH n Hin). lia.
Qed.

Lemma osize_named callee positional named kv :
  kv ∈ named ->
  (osize kv.2 < osize (CallExpression callee positional named))%nat.
Proof.
  cbn [osize]. generalize ((fix sum (l : list obj) : nat :=
          match l with
          | [] => O
          | x :: l' => (osize x + sum l')%nat
          end) positional).
  induction named as [|[m y] l IH]; intros n Hin.
  - apply elem_of_nil in Hin. contradiction.
  - apply elem_of_cons in Hin. destruct Hin as [->|Hin]; [cbn [snd]; lia|].
    specialize (IH n Hin). lia.
Qed.

(** *** Loops return when their elements do *)

Lemma handles_resolves e env : handles e env -> resolves e env.
Proof.
  intros (fuel & v & env' & Hh & Hdata).
  assert (Hv : (exists s, v = Str s) \/
               exists s, fully_resolve 2 v env' = Return s env').
  { destruct v; try discriminate Hdata;
      try (right; eexists; reflexivity). left; eexists; reflexivity. }
  destruct Hv as [[s ->]|[s Hs]].
  - exists (S fuel), s, env'. rewrite fully_resolve_S, Hh. reflexivity.
  - exists (S (Nat.max fuel 2)), s, env'. rewrite fully_resolve_S.
    rewrite (handle_lift fuel _ _ _ _ _ (Nat.le_max_l _ _) Hh).
    rewrite (fully_resolve_lift 2 _ _ _ _ _ (Nat.le_max_r _ _) Hs).
    destruct v; try reflexivity. discriminate Hs.
Qed.

Lemma pattern_loop_total bundle k iso elements :
  Forall (fun x => forall env, within bundle k env -> resolves x env) elements ->
  forall parts env, within bundle k env ->
  exists fuel parts' env',
    pattern_loop (fully_resolve fuel) iso elements parts env = Return parts' env'.
Proof.
  induction 1 as [|x l Hx _ IH]; intros parts env Hw.
  - exists O, parts, env. reflexivity.
  - destruct (Z.ltb_spec MAX_PARTS (part_count env + 1)) as [Hgt|Hle].
    + destruct (Z.eq_dec (part_count env) MAX_PARTS) as [Heq|Hne].
      * exists 2%nat. do 2 eexists.
        rewrite pattern_loop_crossing by assumption.
        rewrite fully_resolve_FluentNone. reflexivity.
      * exists O. do 2 eexists. apply pattern_loop_exceeded. lia.
    + assert (Hw1 : within bundle k (set_part_count (part_count env + 1) env))
        by (eapply within_same; [| |exact Hw]; reflexivity).
      destruct (is_TextElement x) eqn:Htext.
      * destruct x; try discriminate Htext.
        destruct (IH (parts ++ [value]) _ Hw1) as (fuel & parts' & env' & Hl).
        exists fuel, parts', env'. cbn [pattern_loop]. env_simpl.
        destruct (Z.ltb_spec MAX_PARTS (part_count env + 1)); [lia|]. exact Hl.
      * destruct (Hx _ Hw1) as (f1 & part & env2 & Hr).
        pose proof (fully_resolve_frame _ _ _ _ _ Hr) as Hf.
        set (env3 := if MAX_PART_LENGTH <? Z.of_nat (length part)
                     then errors_append (TooManyCharacters (length part)) env2
                     else env2).
        assert (Hw3 : within bundle k env3).
        { eapply within_same; [| |eapply within_frame; [exact Hf|exact Hw1]];
            unfold env3; destruct (MAX_PART_LENGTH <? Z.of_nat (length part));
            reflexivity. }
        destruct (IH (parts ++ element_parts iso part) _ Hw3)
          as (f2 & parts' & env' & Hl).
        exists (Nat.max f1 f2), parts', env'.
        rewrite pattern_loop_element by assumption.
        rewrite (fully_resolve_lift f1 _ _ _ _ _ (Nat.le_max_l _ _) Hr).
        apply (pattern_loop_lift f2); [apply Nat.le_max_r|exact Hl].
Qed.

Lemma handle_pattern_total bundle k pattern elements env :
  context env = bundle ->
  (pattern ∉ dirty env ->
   within bundle k (set_dirty ({[pattern]} ∪ dirty env) env) /\
   Forall (fun x => forall env, within bundle k env -> resolves x env) elements) ->
  exists fuel v env',
    handle_pattern (fully_resolve fuel) pattern elements env = Return v env' /\
    is_data v = true.
Proof.
  intros Hb Hfresh.
  destruct (decide (pattern ∈ dirty env)) as [Hin|Hout].
  - exists O. do 2 eexists. unfold handle_pattern.
    rewrite bool_decide_eq_true_2 by assumption. split; reflexivity.
  - destruct (Hfresh Hout) as [Hw Hall].
    destruct (pattern_loop_total bundle k
                (_use_isolating (context env) && (1 <? Z.of_nat (length elements)))
                elements Hall [] _ Hw) as (fuel & parts & env1 & Hl).
    exists fuel. do 2 eexists.
    rewrite handle_pattern_fresh by (apply fully_resolve_frame || assumption).
    rewrite Hl. split; reflexivity.
Qed.

Lemma variant_list_loop_total bundle k key variants :
  Forall (fun v => forall env, within bundle k env -> handles (variant_key v) env)
         variants ->
  forall default env, within bundle k env ->
  exists fuel found default' env',
    variant_list_loop (handle fuel) key variants default env
    = Return (found, default') env' /\
    (forall v, found = Some v -> v ∈ variants) /\
    (forall d, default' = Some d -> d ∈ variants \/ default = Some d) /\
    (found = None -> default' = None ->
     default = None /\ existsb variant_default variants = false).
Proof.
  induction 1 as [|x l Hx _ IH]; intros default env Hw.
  - exists O, None, default, env. repeat split; try discriminate; auto.
  - cbn [variant_list_loop existsb].
    destruct (variant_default x && is_None key) eqn:Hbreak.
    + exists O, None, (if variant_default x then Some x else default), env.
      apply andb_true_iff in Hbreak. destruct Hbreak as [Hd _]. rewrite Hd.
      repeat split; try discriminate.
      intros d Hd'. injection Hd' as <-. left. apply list_elem_of_here.
    + destruct (Hx _ Hw) as (f1 & cv & env1 & Hh & _).
      pose proof (handle_frame _ _ _ _ _ Hh) as Hf.
      pose proof (within_frame _ _ _ _ Hf Hw) as Hw1.
      destruct (match_ key cv env1) eqn:Hm.
      * exists f1, (Some x), (if variant_default x then Some x else default), env1.
        rewrite Hh, Hm. repeat split; try discriminate.
        -- intros v Hv. injection Hv as <-. apply list_elem_of_here.
        -- intros d Hd'. destruct (variant_default x); [|right; exact Hd'].
           injection Hd' as <-. left. apply list_elem_of_here.
      * destruct (IH (if variant_default x then Some x else default) _ Hw1)
          as (f2 & found & default' & env' & Hl & Hfound & Hdef & Hnone).
        exists (Nat.max f1 f2), found, default', env'.
        rewrite (handle_lift f1 _ _ _ _ _ (Nat.le_max_l _ _) Hh), Hm.
        rewrite (variant_list_loop_lift f2 _ _ _ _ _ _ _ (Nat.le_max_r _ _) Hl).
        split; [reflexivity|]. split; [|split].
        -- intros v Hv. apply list_elem_of_further. auto.
        -- intros d Hd'. destruct (Hdef d Hd') as [Hin|Heq].
           ++ left. apply list_elem_of_further. exact Hin.
           ++ destruct (variant_default x); [|right; exact Heq].
              injection Heq as <-. left. apply list_elem_of_here.
        -- intros Hn1 Hn2. destruct (Hnone Hn1 Hn2) as [Hd0 Hex].
           destruct (variant_default x); [discriminate Hd0|]. auto.
Qed.

Lemma select_from_variant_list_total bundle k variants key env :
  existsb variant_default variants = true ->
  Forall (fun v => forall env, within bundle k env -> handles (variant_key v) env)
         variants ->
  Forall (fun v => forall env, within bundle k env -> handles (variant_value v) env)
         variants ->
  within bundle k env ->
  exists fuel v env',
    select_from_variant_list (handle fuel) variants env key = Return v env' /\
    is_data v = true.
Proof.
  intros Hdef Hkeys Hvalues Hw.
  destruct (variant_list_loop_total bundle k key variants Hkeys None env Hw)
    as (f1 & found & default' & env1 & Hl & Hfound & Hdefault & Hnone).
  pose proof (variant_list_loop_frame _ key (handle_frame f1) _ _ _ _ _ Hl) as Hf.
  pose proof (within_frame _ _ _ _ Hf Hw) as Hw1.
  rewrite Forall_forall in Hvalues.
  destruct found as [v|].
  - destruct (Hvalues v (Hfound v eq_refl) _ Hw1) as (f2 & r & env2 & Hh & Hdata).
    exists (Nat.max f1 f2), r, env2. unfold select_from_variant_list.
    rewrite (variant_list_loop_lift f1 _ _ _ _ _ _ _ (Nat.le_max_l _ _) Hl).
    rewrite (handle_lift f2 _ _ _ _ _ (Nat.le_max_r _ _) Hh). auto.
  - destruct default' as [d|].
    + destruct (Hdefault d eq_refl) as [Hin|Habs]; [|discriminate Habs].
      set (env2 := if negb (is_None_or_FluentNone key)
                   then errors_append (UnknownVariant key) env1 else env1).
      assert (Hw2 : within bundle k env2).
      { eapply within_same; [| |exact Hw1]; unfold env2;
          destruct (negb (is_None_or_FluentNone key)); reflexivity. }
      destruct (Hvalues d Hin _ Hw2) as (f2 & r & env3 & Hh & Hdata).
      exists (Nat.max f1 f2), r, env3. unfold select_from_variant_list.
      rewrite (variant_list_loop_lift f1 _ _ _ _ _ _ _ (Nat.le_max_l _ _) Hl).
      fold env2.
      rewrite (handle_lift f2 _ _ _ _ _ (Nat.le_max_r _ _) Hh). auto.
    + destruct (Hnone eq_refl eq_refl) as [_ Hex]. congruence.
Qed.

Lemma select_expression_loop_total bundle k key variants :
  Forall (fun v => forall env, within bundle k env -> handles (variant_key v) env)
         variants ->
  forall default env, within bundle k env ->
  exists fuel found default' env',
    select_expression_loop (handle fuel) key variants default env
    = Return (found, default') env' /\
    (forall v, found = Some v -> v ∈ variants) /\
    (forall d, default' = Some d -> d ∈ variants \/ default = Some d).
Proof.
  induction 1 as [|x l Hx _ IH]; intros default env Hw.
  - exists O, None, default, env. repeat split; try discriminate; auto.
  - cbn [select_expression_loop].
    destruct (Hx _ Hw) as (f1 & cv & env1 & Hh & _).
    pose proof (handle_frame _ _ _ _ _ Hh) as Hf.
    pose proof (within_frame _ _ _ _ Hf Hw) as Hw1.
    destruct (match_ key cv env1) eqn:Hm.
    + exists f1, (Some x), (if variant_default x then Some x else default), env1.
      rewrite Hh, Hm. repeat split; try discriminate.
      * intros v Hv. injection Hv as <-. apply list_elem_of_here.
      * intros d Hd'. destruct (variant_default x); [|right; exact Hd'].
        injection Hd' as <-. left. apply list_elem_of_here.
    + destruct (IH (if variant_default x then Some x else default) _ Hw1)
        as (f2 & found & default' & env' & Hl & Hfound & Hdef).
      exists (Nat.max f1 f2), found, default', env'.
      rewrite (handle_lift f1 _ _ _ _ _ (Nat.le_max_l _ _) Hh), Hm.
      rewrite (select_expression_loop_lift f2 _ _ _ _ _ _ _ (Nat.le_max_r _ _) Hl).
      split; [reflexivity|]. split.
      * intros v Hv. apply list_elem_of_further. auto.
      * intros d Hd'. destruct (Hdef d Hd') as [Hin|Heq].
        -- left. apply list_elem_of_further. exact Hin.
        -- destruct (variant_default x); [|right; exact Heq].
           injection Heq as <-. left. apply list_elem_of_here.
Qed.

Lemma select_from_select_expression_total bundle k variants key env :
  Forall (fun v => forall env, within bundle k env -> handles (variant_key v) env)
         variants ->
  Forall (fun v => forall env, within bundle k env -> handles (variant_value v) env)
         variants ->
  within bundle k env ->
  exists fuel v env',
    select_from_select_expression (handle fuel) variants env key = Return v env' /\
    is_data v = true.
Proof.
  intros Hkeys Hvalues Hw.
  destruct (select_expression_loop_total bundle k key variants Hkeys None env Hw)
    as (f1 & found & default' & env1 & Hl & Hfound & Hdefault).
  pose proof (select_expression_loop_frame _ key (handle_frame f1) _ _ _ _ _ Hl) as Hf.
  pose proof (within_frame _ _ _ _ Hf Hw) as Hw1.
  rewrite Forall_forall in Hvalues.
  assert (Hchosen : forall v, v ∈ variants ->
    exists fuel r env2,
      (let! (p, e) := select_expression_loop (handle fuel) key variants None env in
       handle fuel (variant_value v) env1) = Return r env2 /\ is_data r = true).
  { intros v Hin.
    destruct (Hvalues v Hin _ Hw1) as (f2 & r & env2 & Hh & Hdata).
    exists (Nat.max f1 f2), r, env2.
    rewrite (select_expression_loop_lift f1 _ _ _ _ _ _ _ (Nat.le_max_l _ _) Hl).
    rewrite (handle_lift f2 _ _ _ _ _ (Nat.le_max_r _ _) Hh). auto. }
  unfold select_from_select_expression.
  destruct found as [v|]; [|destruct default' as [d|]].
  - destruct (Hchosen v (Hfound v eq_refl)) as (fuel & r & env2 & Hr & Hdata).
    exists fuel, r, env2. split; [|exact Hdata].
    destruct (select_expression_loop (handle fuel) key variants None env)
      as [[fo de] e1| |] eqn:E; try discriminate Hr.
    pose proof (select_expression_loop_lift _ _ _ _ _ _ _ _ (Nat.le_max_l f1 fuel) Hl) as H1.
    pose proof (select_expression_loop_lift _ _ _ _ _ _ _ _ (Nat.le_max_r f1 fuel) E) as H2.
    rewrite H1 in H2. injection H2 as <- <- <-. exact Hr.
  - destruct (Hdefault d eq_refl) as [Hin|Habs]; [|discriminate Habs].
    destruct (Hchosen d Hin) as (fuel & r & env2 & Hr & Hdata).
    exists fuel, r, env2. split; [|exact Hdata].
    destruct (select_expression_loop (handle fuel) key variants None env)
      as [[fo de] e1| |] eqn:E; try discriminate Hr.
    pose proof (select_expression_loop_lift _ _ _ _ _ _ _ _ (Nat.le_max_l f1 fuel) Hl) as H1.
    pose proof (select_expression_loop_lift _ _ _ _ _ _ _ _ (Nat.le_max_r f1 fuel) E) as H2.
    rewrite H1 in H2. injection H2 as <- <- <-. exact Hr.
  - exists f1, (FluentNone None), env1. rewrite Hl. auto.
Qed.

Lemma handle_positional_total bundle k positional :
  Forall (fun x => forall env, within bundle k env -> handles x env) positional ->
  forall env, within bundle k env ->
  exists fuel vs env', handle_positional (handle fuel) positional env = Return vs env'.
Proof.
  induction 1 as [|x l Hx _ IH]; intros env Hw.
  - exists O, [], env. reflexivity.
  - destruct (Hx _ Hw) as (f1 & v & env1 & Hh & _).
    pose proof (within_frame _ _ _ _ (handle_frame _ _ _ _ _ Hh) Hw) as Hw1.
    destruct (IH _ Hw1) as (f2 & vs & env' & Hl).
    exists (Nat.max f1 f2), (v :: vs), env'. cbn [handle_positional].
    rewrite (handle_lift f1 _ _ _ _ _ (Nat.le_max_l _ _) Hh).
    rewrite (handle_positional_lift f2 _ _ _ _ _ (Nat.le_max_r _ _) Hl).
    reflexivity.
Qed.

Lemma handle_named_total bundle k named :
  Forall (fun kv => forall env, within bundle k env -> handles kv.2 env) named ->
  forall kwargs env, within bundle k env ->
  exists fuel kwargs' env',
    handle_named (handle fuel) named kwargs env = Return kwargs' env'.
Proof.
  induction 1 as [|[name x] l Hx _ IH]; intros kwargs env Hw.
  - exists O, kwargs, env. reflexivity.
  - cbn [snd] in Hx. destruct (Hx _ Hw) as (f1 & v & env1 & Hh & _).
    pose proof (within_frame _ _ _ _ (handle_frame _ _ _ _ _ Hh) Hw) as Hw1.
    destruct (IH (<[name := v]> kwargs) _ Hw1) as (f2 & kwargs' & env' & Hl).
    exists (Nat.max f1 f2), kwargs', env'. cbn [handle_named].
    rewrite (handle_lift f1 _ _ _ _ _ (Nat.le_max_l _ _) Hh).
    apply (handle_named_lift f2); [apply Nat.le_max_r|exact Hl].
Qed.

(** *** Registered entries *)

Lemma entry_patterns_intro registry id node body pattern :
  registry !! id = Some node ->
  node_value node = Some body ->
  pattern ∈ body_patterns body ->
  pattern ∈ entry_patterns registry.
Proof.
  intros Hid Hbody Hin. unfold entry_patterns.
  apply elem_of_list_to_set, list_elem_of_In, in_flat_map.
  exists (id, node). split.
  - apply list_elem_of_In, elem_of_map_to_list. exact Hid.
  - cbn [snd]. rewrite Hbody. apply list_elem_of_In. exact Hin.
Qed.

Lemma variant_pattern_in_body variants v pattern elements :
  v ∈ variants ->
  variant_value v = Pattern pattern elements ->
  pattern ∈ body_patterns (VariantList variants).
Proof.
  intros Hin Hv. cbn [body_patterns].
  apply list_elem_of_In, in_flat_map. exists v. split.
  - apply list_elem_of_In. exact Hin.
  - rewrite Hv. left. reflexivity.
Qed.

Lemma lookup_reference_cases ref env node env' :
  lookup_reference ref env = (node, env') ->
  is_FluentNone node = true \/
  _messages_and_terms (context env) !! reference_to_id ref = Some node \/
  exists base, is_AttributeExpression ref = Some base /\
               _messages_and_terms (context env) !! reference_to_id base = Some node.
Proof.
  unfold lookup_reference. intros Hl.
  destruct (_messages_and_terms (context env) !! reference_to_id ref) as [n|] eqn:Hfull.
  - injection Hl as <- _. right. left. reflexivity.
  - destruct (is_AttributeExpression ref) as [base|] eqn:Hattr; env_simpl.
    + destruct (_messages_and_terms (context env) !! reference_to_id base) as [n|] eqn:Hbase.
      * injection Hl as <- _. right. right. exists base. auto.
      * injection Hl as <- _. left. reflexivity.
    + injection Hl as <- _. left. reflexivity.
Qed.

Lemma handle_variable_reference_data name env val env' :
  handle_variable_reference name env = (val, env') -> is_data val = true.
Proof.
  unfold handle_variable_reference. intros Hv.
  destruct (args (current env) !! name) as [arg_val|].
  - destruct (is_supported_external arg_val) eqn:Hs; injection Hv as <- _;
      [destruct arg_val; try discriminate Hs|]; reflexivity.
  - injection Hv as <- _. reflexivity.
Qed.

(** *** What an expression looks up *)

Lemma lookups_elements (P : text -> Prop) (elements : list obj) :
  Forall P ((fix all (l : list obj) : list text :=
               match l with
               | [] => []
               | x :: l' => lookups x ++ all l'
               end) elements) ->
  Forall (fun x => Forall P (lookups x)) elements.
Proof.
  induction elements as [|x l IH]; intros Hall; constructor.
  - apply Forall_app in Hall. apply Hall.
  - apply IH. apply Forall_app in Hall. apply Hall.
Qed.

Lemma lookups_variants (P : text -> Prop) (variants : list variant) :
  Forall P ((fix all (l : list variant) : list text :=
               match l with
               | [] => []
               | v :: l' => lookups_variant v ++ all l'
               end) variants) ->
  Forall (fun v => Forall P (lookups (variant_key v)) /\
                   Forall P (lookups (variant_value v))) variants.
Proof.
  induction variants as [|[k b d] l IH]; intros Hall; constructor.
  - apply Forall_app in Hall. destruct Hall as [Hv _].
    cbn [lookups_variant] in Hv. apply Forall_app in Hv. exact Hv.
  - apply IH. apply Forall_app in Hall. apply Hall.
Qed.

Lemma lookups_named (P : text -> Prop) (named : list (text * obj)) :
  Forall P ((fix all (l : list (text * obj)) : list text :=
               match l with
               | [] => []
               | (_, x) :: l' => lookups x ++ all l'
               end) named) ->
  Forall (fun kv => Forall P (lookups kv.2)) named.
Proof.
  induction named as [|[n x] l IH]; intros Hall; constructor.
  - apply Forall_app in Hall. apply Hall.
  - apply IH. apply Forall_app in Hall. apply Hall.
Qed.

Lemma lookups_SelectExpression (P : text -> Prop) selector variants :
  Forall P (lookups (SelectExpression selector variants)) ->
  Forall P (lookups selector) /\
  Forall (fun v => Forall P (lookups (variant_key v)) /\
                   Forall P (lookups (variant_value v))) variants.
Proof.
  cbn [lookups]. intros Hall. apply Forall_app in Hall. destruct Hall as [Hs Hv].
  split; [exact Hs|]. apply lookups_variants. exact Hv.
Qed.

Lemma lookups_CallExpression (P : text -> Prop) callee positional named :
  Forall P (lookups (CallExpression callee positional named)) ->
  (match callee with
   | MessageReference _ => True
   | _ => Forall P (reference_ids callee)
   end) /\
  Forall (fun x => Forall P (lookups x)) positional /\
  Forall (fun kv => Forall P (lookups kv.2)) named.
Proof.
  cbn [lookups]. intros Hall. apply Forall_app in Hall. destruct Hall as [Hc Hall].
  apply Forall_app in Hall. destruct Hall as [Hp Hn].
  split; [destruct callee; [exact I|exact Hc|exact Hc]|].
  split; [apply lookups_elements; exact Hp|apply lookups_named; exact Hn].
Qed.

Lemma lookup_reference_reached (P : text -> Prop) ref env node env' :
  Forall P (reference_ids ref) ->
  lookup_reference ref env = (node, env') ->
  is_FluentNone node = true \/
  exists id, P id /\ _messages_and_terms (context env) !! id = Some node.
Proof.
  intros Hids Hl. unfold reference_ids in Hids. apply Forall_cons in Hids.
  destruct Hids as [Hfull Hbase].
  destruct (lookup_reference_cases _ _ _ _ Hl) as [Hn|[Hid|(base & Hattr & Hid)]].
  - left. exact Hn.
  - right. eauto.
  - right. rewrite Hattr in Hbase. apply Forall_cons in Hbase. destruct Hbase as [Hb _].
    eauto.
Qed.

Section Bundle.
Variable bundle : FluentBundle.
Variable reached : text -> Prop.

Local Abbreviation registry := (_messages_and_terms bundle).

Hypothesis registry_ok : forall id node,
  reached id -> registry !! id = Some node ->
  wf_entry registry node = true /\ Forall reached (lookups node).
Hypothesis runtime_ok : wf_runtime.

Lemma simple_key_handles key env :
  is_simple_key key = true -> handles key env.
Proof.
  intros Hk. exists 1%nat.
  destruct key; try discriminate Hk; do 2 eexists; (split; [reflexivity|]);
    try reflexivity.
  destruct runtime_ok as [Hnum _]. specialize (Hnum value).
  destruct (numeric_to_native value); try discriminate Hnum; reflexivity.
Qed.

Lemma placeholder_or_entry_cases node :
  is_FluentNone node = true \/
  (exists id, reached id /\ registry !! id = Some node) ->
  (exists name, node = FluentNone name) \/
  (exists body, wf_body registry body = true /\ Forall reached (lookups body) /\
                node_value node = Some body /\
                (exists id, reached id /\ registry !! id = Some node) /\
                forall fuel env, handle (S fuel) node env = handle fuel body env).
Proof.
  intros [Hnone|(id & Hreach & Hid)].
  - left. destruct node; try discriminate Hnone. eexists; reflexivity.
  - right. destruct (registry_ok id node Hreach Hid) as [Hw Hr].
    destruct node; try discriminate Hw;
      (eexists; split; [exact Hw|]; split; [exact Hr|]; split; [reflexivity|];
       split; [eauto|]);
      reflexivity.
Qed.

Section Level.
Variable k : nat.
Hypothesis lower : forall k', (k' < k)%nat ->
  forall e, wf_expr registry e = true -> Forall reached (lookups e) ->
  forall env, within bundle k' env -> handles e env.

Lemma entry_pattern_total pattern elements env :
  pattern ∈ entry_patterns registry ->
  wf_expr registry (Pattern pattern elements) = true ->
  Forall reached (lookups (Pattern pattern elements)) ->
  within bundle k env ->
  handles (Pattern pattern elements) env.
Proof.
  intros Hin Hwf Hreach Hw.
  destruct (decide (pattern ∈ dirty env)) as [Hd|Hfresh].
  - exists 1%nat. do 2 eexists. rewrite handle_S. cbn [dispatch]. unfold handle_pattern.
    rewrite bool_decide_eq_true_2 by assumption. split; reflexivity.
  - destruct (within_enter_entry _ _ _ _ Hin Hfresh Hw) as (k' & Hk & Hw').
    destruct (handle_pattern_total bundle k' pattern elements env (proj1 Hw))
      as (fuel & v & env' & Hh & Hdata).
    { intros _. split; [exact Hw'|].
      pose proof (wf_Pattern registry pattern elements Hwf) as Hall.
      pose proof (lookups_elements reached elements Hreach) as Hrs.
      rewrite Forall_forall in Hall. rewrite Forall_forall in Hrs.
      apply Forall_forall. intros x Hx env1 Hw1. apply handles_resolves.
      apply (lower k'); [lia|apply (Hall x Hx)|apply (Hrs x Hx)|exact Hw1]. }
    exists (S fuel), v, env'. rewrite handle_S. cbn [dispatch]. auto.
Qed.

Lemma body_variants_total id node variants key env :
  reached id ->
  registry !! id = Some node ->
  node_value node = Some (VariantList variants) ->
  within bundle k env ->
  exists fuel v env',
    select_from_variant_list (handle fuel) variants env key = Return v env' /\
    is_data v = true.
Proof.
  intros Hreach Hid Hbody Hw.
  assert (Hwb : wf_body registry (VariantList variants) = true /\
                Forall reached (lookups (VariantList variants))).
  { destruct (registry_ok id node Hreach Hid) as [Hwe Hr].
    destruct node; try discriminate Hbody; cbn [node_value] in Hbody;
      injection Hbody as Hbody; try discriminate Hbody;
      cbn [wf_entry] in Hwe; cbn [lookups] in Hr; rewrite Hbody in Hwe, Hr;
      split; assumption. }
  destruct Hwb as [Hwb Hr].
  cbn [wf_body] in Hwb. apply andb_true_iff in Hwb. destruct Hwb as [Hdef Hall].
  rewrite forallb_forall in Hall.
  cbn [lookups] in Hr. apply lookups_variants in Hr. rewrite Forall_forall in Hr.
  apply (select_from_variant_list_total bundle k); try assumption.
  - apply Forall_forall. intros v Hv env1 Hw1.
    apply list_elem_of_In, Hall in Hv. unfold wf_variant_entry in Hv.
    apply andb_true_iff in Hv. apply simple_key_handles, Hv.
  - apply Forall_forall. intros v Hv env1 Hw1.
    pose proof Hv as Hv'. apply list_elem_of_In, Hall in Hv'.
    unfold wf_variant_entry in Hv'. apply andb_true_iff in Hv'.
    destruct Hv' as [_ Hval].
    pose proof (proj2 (Hr v Hv)) as Hrv.
    destruct (variant_value v) eqn:Hvv; try discriminate Hval.
    apply entry_pattern_total; try assumption.
    eapply entry_patterns_intro; [exact Hid|exact Hbody|].
    eapply variant_pattern_in_body; eassumption.
Qed.

Lemma entry_total node env :
  is_FluentNone node = true \/
  (exists id, reached id /\ registry !! id = Some node) ->
  within bundle k env ->
  handles node env.
Proof.
  intros Hnode Hw.
  destruct (placeholder_or_entry_cases node Hnode)
    as [[name ->]|(body & Hwb & Hr & Hval & (id & Hreach & Hid) & Hstep)].
  - exists 1%nat. do 2 eexists. split; reflexivity.
  - destruct body; try discriminate Hwb.
    + destruct (entry_pattern_total ident elements env) as (fuel & v & env' & Hh & Hd);
        try assumption.
      { eapply entry_patterns_intro; [exact Hid|exact Hval|]. left. }
      exists (S fuel), v, env'. rewrite Hstep. auto.
    + destruct (body_variants_total id node variants PyNone env Hreach Hid Hval Hw)
        as (fuel & v & env' & Hh & Hd).
      exists (S (S fuel)), v, env'. rewrite Hstep, handle_S. cbn [dispatch]. auto.
Qed.

Lemma reference_total ref env :
  Forall reached (reference_ids ref) ->
  within bundle k env ->
  exists fuel v env',
    (let '(node, env1) := lookup_reference ref env in handle fuel node env1)
    = Return v env' /\ is_data v = true.
Proof.
  intros Hids Hw.
  destruct (lookup_reference ref env) as [node env1] eqn:Hl.
  pose proof (within_frame _ _ _ _ (lookup_reference_frame _ _ _ _ Hl) Hw) as Hw1.
  apply (lookup_reference_reached reached _ _ _ _ Hids) in Hl.
  rewrite (proj1 Hw) in Hl.
  apply (entry_total node env1); [exact Hl|exact Hw1].
Qed.

Lemma handle_total_sized n :
  forall e, (osize e < n)%nat -> wf_expr registry e = true ->
  Forall reached (lookups e) ->
  forall env, within bundle k env -> handles e env.
Proof.
  induction n as [|n IH]; intros e Hsize Hwf Hreach env Hw; [lia|].
  destruct e as [ | | | | | | | | | | | | | | | | | | | | | | ];
    try discriminate Hwf.
  - exists 1%nat. do 2 eexists. split; reflexivity.
  - exists 1%nat. do 2 eexists. split; reflexivity.
  - exists 1%nat. do 2 eexists. split; reflexivity.
  - exists 1%nat. do 2 eexists. split; reflexivity.
  - exists 1%nat. do 2 eexists. split; reflexivity.
  - (* Message *)
    destruct (IH e) with (env := env) as (fuel & v & env' & Hh & Hd);
      [cbn [osize] in Hsize; lia|exact Hwf|exact Hreach|exact Hw|].
    exists (S fuel), v, env'. auto.
  - (* Term *)
    destruct (IH e) with (env := env) as (fuel & v & env' & Hh & Hd);
      [cbn [osize] in Hsize; lia|exact Hwf|exact Hreach|exact Hw|].
    exists (S fuel), v, env'. auto.
  - (* Attribute *)
    destruct (IH e) with (env := env) as (fuel & v & env' & Hh & Hd);
      [cbn [osize] in Hsize; lia|exact Hwf|exact Hreach|exact Hw|].
    exists (S fuel), v, env'. auto.
  - (* Pattern *)
    destruct (handle_pattern_total bundle k ident elements env (proj1 Hw))
      as (fuel & v & env' & Hh & Hd).
    { intros _. split; [apply within_enter_any; exact Hw|].
      pose proof (wf_Pattern registry ident elements Hwf) as Hall.
      pose proof (lookups_elements reached elements Hreach) as Hrs.
      rewrite Forall_forall in Hall. rewrite Forall_forall in Hrs.
      apply Forall_forall. intros x Hx env1 Hw1. apply handles_resolves.
      apply IH; [|apply (Hall x Hx)|apply (Hrs x Hx)|exact Hw1].
      pose proof (osize_elements ident elements x Hx). lia. }
    exists (S fuel), v, env'. rewrite handle_S. cbn [dispatch]. auto.
  - exists 1%nat. do 2 eexists. split; reflexivity.
  - (* Placeable *)
    destruct (IH e) with (env := env) as (fuel & v & env' & Hh & Hd);
      [cbn [osize] in Hsize; lia|exact Hwf|exact Hreach|exact Hw|].
    exists (S fuel), v, env'. auto.
  - exists 1%nat. do 2 eexists. split; reflexivity.
  - apply simple_key_handles. reflexivity.
  - (* Ref *)
    cbn [lookups] in Hreach.
    destruct r as [id|id|base name].
    + destruct (reference_total (MessageReference id) env Hreach Hw)
        as (fuel & v & env' & Hh & Hd).
      exists (S fuel), v, env'. rewrite handle_S. cbn [dispatch]. auto.
    + set (inner := set_current {| args := ∅; error_for_missing_arg := false |} env).
      assert (Hwi : within bundle k inner)
        by (eapply within_same; [| |exact Hw]; reflexivity).
      destruct (reference_total (TermReference id) inner Hreach Hwi)
        as (fuel & v & env' & Hh & Hd).
      exists (S fuel), v, (set_current (current env) env').
      rewrite handle_S. cbn [dispatch].
      unfold modified_for_term_reference, modified. fold inner. rewrite Hh. auto.
    + destruct (reference_total (AttributeExpression base name) env Hreach Hw)
        as (fuel & v & env' & Hh & Hd).
      exists (S fuel), v, env'. rewrite handle_S. cbn [dispatch]. auto.
  - (* VariableReference *)
    exists 1%nat. rewrite handle_S. cbn [dispatch].
    destruct (handle_variable_reference name env) as [val env1] eqn:Hv.
    exists val, env1. split; [reflexivity|].
    eapply handle_variable_reference_data; exact Hv.
  - (* VariantList *)
    apply wf_VariantList in Hwf. destruct Hwf as [Hdef Hall].
    rewrite Forall_forall in Hall.
    cbn [lookups] in Hreach. apply lookups_variants in Hreach.
    rewrite Forall_forall in Hreach.
    destruct (select_from_variant_list_total bundle k variants PyNone env Hdef)
      as (fuel & v & env' & Hh & Hd); try assumption.
    + apply Forall_forall. intros x Hx env1 Hw1.
      apply IH; [|apply (Hall x Hx)|apply (Hreach x Hx)|exact Hw1].
      pose proof (osize_VariantList variants x Hx). lia.
    + apply Forall_forall. intros x Hx env1 Hw1.
      apply IH; [|apply (Hall x Hx)|apply (Hreach x Hx)|exact Hw1].
      pose proof (osize_VariantList variants x Hx). lia.
    + exists (S fuel), v, env'. rewrite handle_S. cbn [dispatch]. auto.
  - (* SelectExpression *)
    apply wf_SelectExpression in Hwf. destruct Hwf as [Hsel Hall].
    rewrite Forall_forall in Hall.
    apply lookups_SelectExpression in Hreach. destruct Hreach as [Hrsel Hrall].
    rewrite Forall_forall in Hrall.
    destruct (IH e) with (env := env) as (f1 & key & env1 & Hh1 & _);
      [cbn [osize] in Hsize; lia|exact Hsel|exact Hrsel|exact Hw|].
    pose proof (within_frame _ _ _ _ (handle_frame _ _ _ _ _ Hh1) Hw) as Hw1.
    destruct (select_from_select_expression_total bundle k variants key env1)
      as (f2 & v & env' & Hh & Hd); try assumption.
    + apply Forall_forall. intros x Hx env2 Hw2.
      apply IH; [|apply (Hall x Hx)|apply (Hrall x Hx)|exact Hw2].
      pose proof (osize_SelectExpression e variants x Hx). lia.
    + apply Forall_forall. intros x Hx env2 Hw2.
      apply IH; [|apply (Hall x Hx)|apply (Hrall x Hx)|exact Hw2].
      pose proof (osize_SelectExpression e variants x Hx). lia.
    + exists (S (Nat.max f1 f2)), v, env'. rewrite handle_S. cbn [dispatch].
      unfold handle_select_expression.
      rewrite (handle_lift f1 _ _ _ _ _ (Nat.le_max_l _ _) Hh1).
      destruct (select_from_select_expression_mono _ _ variants env1 key
                  (handle_refines f2 (Nat.max f1 f2) (Nat.le_max_r _ _)))
        as [Hf|Hg]; [congruence|]. rewrite Hg. auto.
  - (* VariantExpression *)
    cbn [wf_expr] in Hwf. apply andb_true_iff in Hwf. destruct Hwf as [Hfull Hbase].
    cbn [lookups] in Hreach. unfold reference_ids in Hreach.
    apply Forall_cons in Hreach. destruct Hreach as [Hrfull Hrbase].
    destruct (lookup_reference ref env) as [message env1] eqn:Hl.
    pose proof (within_frame _ _ _ _ (lookup_reference_frame _ _ _ _ Hl) Hw) as Hw1.
    destruct (is_FluentNone message) eqn:Hnone.
    + exists 1%nat, message, env1. rewrite handle_S. cbn [dispatch].
      unfold handle_variant_expression. rewrite Hl, Hnone.
      split; [reflexivity|]. destruct message; try discriminate Hnone. reflexivity.
    + pose proof Hl as Hl0.
      apply lookup_reference_cases in Hl. rewrite (proj1 Hw) in Hl.
      fold registry in Hl. rewrite Hnone in Hl.
      assert (Htarget : exists id variants,
                reached id /\
                registry !! id = Some message /\
                node_value message = Some (VariantList variants)).
      { destruct Hl as [Habs|[Hid|(base & Hattr & Hid)]]; [discriminate Habs| |].
        - rewrite Hid in Hfull. cbn [variant_target_ok] in Hfull.
          destruct (node_value message) as [[]|]; try discriminate Hfull. eauto.
        - rewrite Hattr, Hid in Hbase. cbn [variant_target_ok] in Hbase.
          rewrite Hattr in Hrbase. apply Forall_cons in Hrbase.
          destruct (node_value message) as [[]|]; try discriminate Hbase.
          destruct Hrbase as [Hrb _]. eauto. }
      destruct Htarget as (id & variants & Hrid & Hid & Hval).
      destruct (body_variants_total id message variants (Str key) env1 Hrid Hid Hval Hw1)
        as (fuel & v & env' & Hh & Hd).
      exists (S fuel), v, env'. rewrite handle_S. cbn [dispatch].
      unfold handle_variant_expression. rewrite Hl0, Hnone, Hval. auto.
  - (* CallExpression *)
    apply wf_CallExpression in Hwf. destruct Hwf as [Hpos Hnamed].
    rewrite Forall_forall in Hpos. rewrite Forall_forall in Hnamed.
    apply lookups_CallExpression in Hreach. destruct Hreach as (Hrc & Hrpos & Hrnamed).
    rewrite Forall_forall in Hrpos. rewrite Forall_forall in Hrnamed.
    destruct (handle_positional_total bundle k positional) with (env := env)
      as (f1 & vs & env1 & Hp); [|exact Hw|].
    { apply Forall_forall. intros x Hx env0 Hw0.
      apply IH; [|apply (Hpos x Hx)|apply (Hrpos x Hx)|exact Hw0].
      pose proof (osize_positional callee positional named x Hx). lia. }
    pose proof (within_frame _ _ _ _
                  (handle_positional_frame _ (handle_frame f1) _ _ _ _ Hp) Hw) as Hw1.
    destruct (handle_named_total bundle k named) with (kwargs := (∅ : gmap text obj))
                                                      (env := env1)
      as (f2 & kw & env2 & Hn); [|exact Hw1|].
    { apply Forall_forall. intros x Hx env0 Hw0.
      apply IH; [|apply (Hnamed x Hx)|apply (Hrnamed x Hx)|exact Hw0].
      pose proof (osize_named callee positional named x Hx). lia. }
    pose proof (within_frame _ _ _ _
                  (handle_named_frame _ (handle_frame f2) _ _ _ _ _ Hn) Hw1) as Hw2.
    assert (Hterm : forall ref,
      Forall reached (reference_ids ref) ->
      exists f3 v env',
        (let '(term, env3) := lookup_reference ref env2 in
         let env4 := match vs with
                     | [] => env3
                     | _ :: _ => errors_append
                                   (IgnoredPositionalArguments (reference_to_id ref)) env3
                     end in
         modified_for_term_reference (Some kw) (handle f3 term) env4)
        = Return v env' /\ is_data v = true).
    { intros ref Hids.
      destruct (lookup_reference ref env2) as [term env3] eqn:Hl.
      pose proof (within_frame _ _ _ _ (lookup_reference_frame _ _ _ _ Hl) Hw2) as Hw3.
      apply (lookup_reference_reached reached _ _ _ _ Hids) in Hl.
      rewrite (proj1 Hw2) in Hl.
      set (env4 := match vs with
                   | [] => env3
                   | _ :: _ => errors_append
                                 (IgnoredPositionalArguments (reference_to_id ref)) env3
                   end).
      set (inner := set_current {| args := kw; error_for_missing_arg := false |} env4).
      assert (Hwi : within bundle k inner).
      { eapply within_same; [| |exact Hw3]; unfold inner, env4; destruct vs; reflexivity. }
      destruct (entry_total term inner Hl Hwi) as (f3 & v & env' & Hh & Hd).
      exists f3, v, (set_current (current env4) env').
      unfold modified_for_term_reference, modified. fold inner. rewrite Hh. auto. }
    assert (Hlift : forall f3,
      handle_positional (handle (Nat.max f1 (Nat.max f2 f3))) positional env
        = Return vs env1 /\
      handle_named (handle (Nat.max f1 (Nat.max f2 f3))) named ∅ env1
        = Return kw env2).
    { intros f3. split.
      - apply (handle_positional_lift f1); [lia|exact Hp].
      - apply (handle_named_lift f2); [lia|exact Hn]. }
    destruct callee as [function_name|id|base name].
    + destruct (Hlift O) as [Hp' Hn'].
      exists (S (Nat.max f1 (Nat.max f2 O))). rewrite handle_S. cbn [dispatch].
      unfold handle_call_expression. rewrite Hp', Hn'.
      destruct (_functions (context env2) !! function_name) as [function|].
      * destruct (inspect_function_args function function_name) as [arg_spec ierrs].
        destruct (args_match function_name vs kw arg_spec) as [[[matched sa] sk] merrs].
        destruct matched; do 2 eexists; (split; [reflexivity|]);
          [apply runtime_ok|reflexivity].
      * do 2 eexists. split; reflexivity.
    + destruct (Hterm (TermReference id) Hrc) as (f3 & v & env' & Hh & Hd).
      destruct (Hlift f3) as [Hp' Hn'].
      exists (S (Nat.max f1 (Nat.max f2 f3))), v, env'. rewrite handle_S. cbn [dispatch].
      unfold handle_call_expression. rewrite Hp', Hn'.
      destruct (lookup_reference (TermReference id) env2) as [term env3].
      split; [|exact Hd].
      destruct (modified_mono (fun _ => {| args := kw; error_for_missing_arg := false |})
                  (handle f3 term) (handle (Nat.max f1 (Nat.max f2 f3)) term)
                  (match vs with
                   | [] => env3
                   | _ :: _ => errors_append
                       (IgnoredPositionalArguments (reference_to_id (TermReference id))) env3
                   end)) as [Hf|Hg].
      { intros e. apply handle_refines. lia. }
      { unfold modified_for_term_reference in Hh. congruence. }
      unfold modified_for_term_reference in *. rewrite Hg. exact Hh.
    + destruct (Hterm (AttributeExpression base name) Hrc) as (f3 & v & env' & Hh & Hd).
      destruct (Hlift f3) as [Hp' Hn'].
      exists (S (Nat.max f1 (Nat.max f2 f3))), v, env'. rewrite handle_S. cbn [dispatch].
      unfold handle_call_expression. rewrite Hp', Hn'.
      destruct (lookup_reference (AttributeExpression base name) env2) as [term env3].
      split; [|exact Hd].
      destruct (modified_mono (fun _ => {| args := kw; error_for_missing_arg := false |})
                  (handle f3 term) (handle (Nat.max f1 (Nat.max f2 f3)) term)
                  (match vs with
                   | [] => env3
                   | _ :: _ => errors_append
                       (IgnoredPositionalArguments
                          (reference_to_id (AttributeExpression base name))) env3
                   end)) as [Hf|Hg].
      { intros e. apply handle_refines. lia. }
      { unfold modified_for_term_reference in Hh. congruence. }
      unfold modified_for_term_reference in *. rewrite Hg. exact Hh.
  - exists 1%nat. do 2 eexists. split; reflexivity.
Qed.

End Level.

Lemma handle_total k :
  forall e, wf_expr registry e = true -> Forall reached (lookups e) ->
  forall env, within bundle k env -> handles e env.
Proof.
  induction k as [k IH] using lt_wf_ind. intros e Hwf Hreach env Hw.
  apply (handle_total_sized k IH (S (osize e))); [lia|exact Hwf|exact Hreach|exact Hw].
Qed.

End Bundle.

(** *** The recursion limit *)

Lemma resolve_refines n m bundle message external :
  (n <= m)%nat ->
  resolve n bundle message external = RecursionError \/
  resolve m bundle message external = resolve n bundle message external.
Proof.
  intros Hle. unfold resolve.
  destruct (fully_resolve_refines n m Hle message (initial_environment bundle external))
    as [Hn|Hm].
  - left. rewrite Hn. reflexivity.
  - right. rewrite Hm. reflexivity.
Qed.

(** A call that returns under some limit has a least limit under which it
    returns; under a smaller one it ends in [RecursionError]. *)
Lemma resolve_threshold bundle message external r env' :
  forall fuel,
    resolve fuel bundle message external = Return r env' ->
    exists depth,
      (depth <= fuel)%nat /\
      (forall limit, (depth <= limit)%nat ->
         resolve limit bundle message external = Return r env') /\
      (forall limit, (limit < depth)%nat ->
         resolve limit bundle message external = RecursionError).
Proof.
  induction fuel as [|fuel IH]; intros Hr.
  - discriminate Hr.
  - destruct (resolve fuel bundle message external) as [r0 env0|e env0|] eqn:Hprev.
    + destruct (resolve_refines fuel (S fuel) bundle message external) as [Habs|Heq];
        [lia|congruence|].
      rewrite Hprev in Heq. rewrite Hr in Heq. injection Heq as <- <-.
      destruct (IH eq_refl) as (depth & Hle & Hup & Hdown).
      exists depth. split; [lia|]. split; assumption.
    + destruct (resolve_refines fuel (S fuel) bundle message external) as [Habs|Heq];
        [lia|congruence|congruence].
    + exists (S fuel). split; [lia|]. split.
      * intros limit Hle.
        destruct (resolve_refines (S fuel) limit bundle message external Hle)
          as [Habs|Heq]; congruence.
      * intros limit Hlt.
        destruct (resolve_refines limit fuel bundle message external) as [Hrec|Heq];
          [lia|exact Hrec|].
        rewrite Hprev in Heq.
        destruct (resolve limit bundle message external); congruence.
Qed.

Lemma reachable_closed registry message :
  forall id node,
    reachable registry message id -> registry !! id = Some node ->
    Forall (reachable registry message) (lookups node).
Proof.
  intros id node Hreach Hid. apply Forall_forall. intros id' Hin.
  eapply reachable_step; eassumption.
Qed.

Lemma reach_check_sound registry message ids :
  reach_check registry message ids = true -> wf_reachable registry message.
Proof.
  unfold reach_check. intros Hc. apply andb_true_iff in Hc. destruct Hc as [Hstart Hall].
  rewrite forallb_forall in Hstart. rewrite forallb_forall in Hall.
  assert (Hin : forall id, reachable registry message id -> id ∈ ids).
  { intros id Hr. induction Hr as [id Hid|id node id' Hr IH Hnode Hid'].
    - apply list_elem_of_In, Hstart in Hid. apply bool_decide_eq_true in Hid. exact Hid.
    - apply list_elem_of_In, Hall in IH. rewrite Hnode in IH.
      apply andb_true_iff in IH. destruct IH as [_ IH].
      rewrite forallb_forall in IH.
      apply list_elem_of_In, IH in Hid'. apply bool_decide_eq_true in Hid'. exact Hid'. }
  intros id node Hr Hnode. apply Hin, list_elem_of_In, Hall in Hr.
  rewrite Hnode in Hr. apply andb_true_iff in Hr. apply Hr.
Qed.

(** C1 (amended): [resolve] returns its text and its diagnostics, raising
    nothing of its own, for every message and every mapping of external
    arguments, whatever references are unknown, whatever variant keys match
    nothing and whatever the types of the arguments, when each registered
    entry that the message can reach is a message, term or attribute whose
    body is a pattern or a variant list of patterns under plain keys, no
    body reached is absent, each variant expression names an entry whose
    value is a variant list, each variant list has a default variant, number
    literals denote numbers and functions return plain values - and when
    the interpreter allows the depth the message needs.  The resolver does
    not bound its recursion: there is a depth from which [resolve] returns
    this result, and under any smaller limit the call ends in
    [RecursionError] and in nothing else.  A message whose body is absent
    makes it raise [LookupError]. *)
Theorem resolve_returns_on_well_formed_input bundle message external :
  (wf_reachable (_messages_and_terms bundle) message ->
   wf_runtime ->
   wf_expr (_messages_and_terms bundle) message = true ->
   exists depth s errs env',
     (forall limit, (depth <= limit)%nat ->
        resolve limit bundle message external = Return (s, errs) env') /\
     (forall limit, (limit < depth)%nat ->
        resolve limit bundle message external = RecursionError)) /\
  (forall n, resolve (S (S (S n))) bundle (Message PyNone) external
             = Raise LookupError (initial_environment bundle external)).
Proof.
  split; [|reflexivity].
  intros Hreg Hrt Hwf.
  set (env0 := initial_environment bundle external).
  assert (Hw : within bundle (size (entry_patterns (_messages_and_terms bundle))) env0).
  { split; [reflexivity|]. apply subseteq_size. set_solver. }
  assert (Hok : forall id node,
            reachable (_messages_and_terms bundle) message id ->
            _messages_and_terms bundle !! id = Some node ->
            wf_entry (_messages_and_terms bundle) node = true /\
            Forall (reachable (_messages_and_terms bundle) message) (lookups node)).
  { intros id node Hr Hid. split; [exact (Hreg id node Hr Hid)|].
    eapply reachable_closed; eassumption. }
  assert (Hstart : Forall (reachable (_messages_and_terms bundle) message)
                     (lookups message)).
  { apply Forall_forall. intros id Hin. apply reachable_here. exact Hin. }
  destruct (handles_resolves message env0
              (handle_total bundle _ Hok Hrt _ message Hwf Hstart env0 Hw))
    as (fuel & s & env' & Hr).
  assert (Hrun : resolve fuel bundle message external = Return (s, errors env') env').
  { unfold resolve. fold env0. rewrite Hr. reflexivity. }
  destruct (resolve_threshold _ _ _ _ _ fuel Hrun) as (depth & _ & Hup & Hdown).
  exists depth, s, (errors env'), env'. split; assumption.
Qed.

End Totality.

(** ** Further properties of the resolver *)

Section Further.
Context `{Runtime}.

(** *** [set.remove] never fails *)

Ltac safe_call Hs :=
  match goal with
  | |- context [match ?f ?a ?e with Return _ _ => _ | Raise _ _ => _ | RecursionError => _ end] =>
    let E := fresh "E" in
    let Hx := fresh "Hx" in
    pose proof (Hs a e) as Hx;
    destruct (f a e) as [? ?|? ?|] eqn:E; [clear Hx|exact Hx|reflexivity]
  end.

Lemma pattern_loop_never_KeyError fr iso :
  never_KeyError fr ->
  forall elements parts env,
    raises_KeyError (pattern_loop fr iso elements parts env) = false.
Proof.
  intros Hs elements.
  induction elements as [|element rest IH]; intros parts env; cbn [pattern_loop].
  - reflexivity.
  - destruct (MAX_PARTS <? part_count (set_part_count (part_count env + 1) env)).
    + destruct (_ =? _); [|reflexivity]. safe_call Hs. reflexivity.
    + destruct element; try apply IH; safe_call Hs; apply IH.
Qed.

Lemma handle_pattern_never_KeyError fr pattern elements env :
  framing fr -> never_KeyError fr ->
  raises_KeyError (handle_pattern fr pattern elements env) = false.
Proof.
  intros Hf Hs. unfold handle_pattern.
  destruct (bool_decide (pattern ∈ dirty env)); [reflexivity|].
  pose proof (pattern_loop_never_KeyError fr
                (_use_isolating (context (set_dirty ({[pattern]} ∪ dirty env) env)) &&
                 (1 <? Z.of_nat (length elements))) Hs elements []
                (set_dirty ({[pattern]} ∪ dirty env) env)) as Hl.
  destruct (pattern_loop _ _ _ _ _) as [parts env1|e env1|] eqn:E;
    [|exact Hl|reflexivity].
  apply (pattern_loop_frame _ _ Hf) in E. destruct E as (_ & _ & Hd & _).
  cbn [dirty set_dirty] in Hd.
  rewrite bool_decide_eq_true_2; [reflexivity|].
  rewrite Hd. apply elem_of_union_l, elem_of_singleton_2. reflexivity.
Qed.

Lemma variant_list_loop_never_KeyError h key :
  never_KeyError h ->
  forall variants default env,
    raises_KeyError (variant_list_loop h key variants default env) = false.
Proof.
  intros Hs variants.
  induction variants as [|v rest IH]; intros default env; cbn [variant_list_loop].
  - reflexivity.
  - destruct (variant_default v && is_None key); [reflexivity|].
    safe_call Hs. destruct (match_ key a env0); [reflexivity|apply IH].
Qed.

Lemma select_expression_loop_never_KeyError h key :
  never_KeyError h ->
  forall variants default env,
    raises_KeyError (select_expression_loop h key variants default env) = false.
Proof.
  intros Hs variants.
  induction variants as [|v rest IH]; intros default env; cbn [select_expression_loop].
  - reflexivity.
  - safe_call Hs. destruct (match_ key a env0); [reflexivity|apply IH].
Qed.

Lemma select_from_variant_list_never_KeyError h variants env key :
  never_KeyError h ->
  raises_KeyError (select_from_variant_list h variants env key) = false.
Proof.
  intros Hs. unfold select_from_variant_list.
  pose proof (variant_list_loop_never_KeyError h key Hs variants None env) as Hl.
  destruct (variant_list_loop h key variants None env) as [[[v|] [d|]] env1|e env1|];
    try exact Hl; try reflexivity; apply Hs.
Qed.

Lemma select_from_select_expression_never_KeyError h variants env key :
  never_KeyError h ->
  raises_KeyError (select_from_select_expression h variants env key) = false.
Proof.
  intros Hs. unfold select_from_select_expression.
  pose proof (select_expression_loop_never_KeyError h key Hs variants None env) as Hl.
  destruct (select_expression_loop h key variants None env)
    as [[[v|] [d|]] env1|e env1|];
    try exact Hl; try reflexivity; apply Hs.
Qed.

Lemma handle_positional_never_KeyError h :
  never_KeyError h -> never_KeyError (handle_positional h).
Proof.
  intros Hs positional.
  induction positional as [|arg rest IH]; intros env; cbn [handle_positional].
  - reflexivity.
  - safe_call Hs. specialize (IH env0).
    destruct (handle_positional h rest env0); [reflexivity|exact IH|reflexivity].
Qed.

Lemma handle_named_never_KeyError h :
  never_KeyError h ->
  forall named kwargs env,
    raises_KeyError (handle_named h named kwargs env) = false.
Proof.
  intros Hs named.
  induction named as [|[name value] rest IH]; intros kwargs env; cbn [handle_named].
  - reflexivity.
  - safe_call Hs. apply IH.
Qed.

Lemma modified_never_KeyError {A : Type} evolve
    (body : ResolverEnvironment -> outcome A) env :
  (forall e, raises_KeyError (body e) = false) ->
  raises_KeyError (modified evolve body env) = false.
Proof.
  intros Hs. unfold modified.
  specialize (Hs (set_current (evolve (current env)) env)).
  destruct (body _); [reflexivity|exact Hs|reflexivity].
Qed.

Lemma handle_call_expression_never_KeyError h callee positional named env :
  never_KeyError h ->
  raises_KeyError (handle_call_expression h callee positional named env) = false.
Proof.
  intros Hs. unfold handle_call_expression.
  pose proof (handle_positional_never_KeyError h Hs positional env) as Hp.
  destruct (handle_positional h positional env) as [vs env1|e env1|];
    [|exact Hp|reflexivity].
  pose proof (handle_named_never_KeyError h Hs named ∅ env1) as Hn.
  destruct (handle_named h named ∅ env1) as [kw env2|e env2|];
    [|exact Hn|reflexivity].
  destruct callee as [function_name|id|base name].
  - destruct (_functions (context env2) !! function_name) as [function|];
      [|reflexivity].
    destruct (inspect_function_args function function_name) as [arg_spec ierrs].
    destruct (args_match function_name vs kw arg_spec) as [[[matched sa] sk] merrs].
    destruct matched; reflexivity.
  - destruct (lookup_reference (TermReference id) env2) as [term env3].
    apply modified_never_KeyError. intros e. apply Hs.
  - destruct (lookup_reference (AttributeExpression base name) env2) as [term env3].
    apply modified_never_KeyError. intros e. apply Hs.
Qed.

Lemma dispatch_never_KeyError h fr :
  framing fr -> never_KeyError h -> never_KeyError fr ->
  never_KeyError (dispatch h fr).
Proof.
  intros Hf Hh Hfr expr env. unfold dispatch.
  destruct expr as [ | | | | | | | | | | | | | | | |[| |]| | | | | | ];
    try reflexivity; try apply Hh.
  - apply handle_pattern_never_KeyError; assumption.
  - destruct (lookup_reference (MessageReference id) env). apply Hh.
  - apply modified_never_KeyError. intros e.
    destruct (lookup_reference (TermReference id) e). apply Hh.
  - destruct (lookup_reference (AttributeExpression ref name) env). apply Hh.
  - destruct (handle_variable_reference name env). reflexivity.
  - apply select_from_variant_list_never_KeyError, Hh.
  - unfold handle_select_expression. safe_call Hh.
    apply select_from_select_expression_never_KeyError, Hh.
  - unfold handle_variant_expression.
    destruct (lookup_reference ref env) as [message env1].
    destruct (is_FluentNone message); [reflexivity|].
    destruct (node_value message) as [[]|]; try reflexivity.
    apply select_from_variant_list_never_KeyError, Hh.
  - apply handle_call_expression_never_KeyError, Hh.
Qed.

Lemma handle_fully_resolve_never_KeyError fuel :
  never_KeyError (handle fuel) /\ never_KeyError (fully_resolve fuel).
Proof.
  induction fuel as [|fuel [IHh IHf]]; [split; intros ? ?; reflexivity|].
  split.
  - apply dispatch_never_KeyError; [apply fully_resolve_frame|assumption|assumption].
  - intros expr env. rewrite fully_resolve_S.
    pose proof (IHh expr env) as Hx.
    destruct (handle fuel expr env) as [v env1|e env1|]; [|exact Hx|reflexivity].
    destruct v; try apply IHf. reflexivity.
Qed.

(** X1: the guard set is released with [env.dirty.remove(pattern)], which
    raises [KeyError] when the pattern is not in the set.  That never
    happens: no call of [handle], [fully_resolve] or [resolve] ends in a
    [KeyError], on any input and in any environment. *)
Theorem guard_release_never_fails fuel expr env bundle external :
  raises_KeyError (handle fuel expr env) = false /\
  raises_KeyError (fully_resolve fuel expr env) = false /\
  raises_KeyError (resolve fuel bundle expr external) = false.
Proof.
  split; [apply handle_fully_resolve_never_KeyError|].
  split; [apply handle_fully_resolve_never_KeyError|].
  unfold resolve.
  pose proof (proj2 (handle_fully_resolve_never_KeyError fuel) expr
                (initial_environment bundle external)) as Hx.
  destruct (fully_resolve fuel expr _); [reflexivity|exact Hx|reflexivity].
Qed.

(** *** Values *)

Lemma select_from_variant_list_returns_data h variants env key v env' :
  returns_data h ->
  select_from_variant_list h variants env key = Return v env' -> is_data v = true.
Proof.
  intros Hd Hs. unfold select_from_variant_list in Hs.
  inv_outcome Hs. destruct a as [[found|] [d|]]; try discriminate Hs;
    eapply Hd; exact Hs.
Qed.

Lemma select_from_select_expression_returns_data h variants env key v env' :
  returns_data h ->
  select_from_select_expression h variants env key = Return v env' ->
  is_data v = true.
Proof.
  intros Hd Hs. unfold select_from_select_expression in Hs.
  inv_outcome Hs. destruct a as [[found|] [d|]];
    try (eapply Hd; exact Hs). injection Hs as <- _. reflexivity.
Qed.

Lemma modified_returns_data evolve (body : ResolverEnvironment -> outcome obj)
    env v env' :
  (forall e b e', body e = Return b e' -> is_data b = true) ->
  modified evolve body env = Return v env' -> is_data v = true.
Proof.
  intros Hd Hm. unfold modified in Hm.
  destruct (body _) as [b e1| |] eqn:E; try discriminate Hm.
  injection Hm as <- _. eapply Hd; exact E.
Qed.

Lemma dispatch_returns_data h fr :
  wf_runtime -> returns_data h -> returns_data (dispatch h fr).
Proof.
  intros [Hnum Hcall] Hd expr env v env' Hx. unfold dispatch in Hx.
  destruct expr as [ | | | | | | | | | | | | | | | |[| |]| | | | | | ];
    try discriminate Hx;
    try (injection Hx as <- _; reflexivity);
    try (eapply Hd; exact Hx).
  - unfold handle_pattern in Hx.
    destruct (bool_decide (ident ∈ dirty env)); [injection Hx as <- _; reflexivity|].
    inv_outcome Hx. destruct (bool_decide _); [|discriminate Hx].
    injection Hx as <- _. reflexivity.
  - injection Hx as <- _. specialize (Hnum value).
    destruct (numeric_to_native value); try discriminate Hnum; reflexivity.
  - destruct (lookup_reference (MessageReference id) env). eapply Hd; exact Hx.
  - eapply modified_returns_data; [|exact Hx]. intros e b e' Hb. cbn beta in Hb.
    destruct (lookup_reference (TermReference id) e). eapply Hd; exact Hb.
  - destruct (lookup_reference (AttributeExpression ref name) env). eapply Hd; exact Hx.
  - destruct (handle_variable_reference name env) as [val env1] eqn:Hv.
    injection Hx as <- _. eapply handle_variable_reference_data; exact Hv.
  - eapply select_from_variant_list_returns_data; eassumption.
  - unfold handle_select_expression in Hx. inv_outcome Hx.
    eapply select_from_select_expression_returns_data; eassumption.
  - unfold handle_variant_expression in Hx.
    destruct (lookup_reference ref env) as [message env1].
    destruct (is_FluentNone message) eqn:Hn.
    + injection Hx as <- _. destruct message; try discriminate Hn. reflexivity.
    + destruct (node_value message) as [[]|]; try discriminate Hx.
      eapply select_from_variant_list_returns_data; eassumption.
  - unfold handle_call_expression in Hx. inv_outcome Hx. inv_outcome Hx.
    destruct callee as [function_name|id|base name].
    + destruct (_functions (context env1) !! function_name) as [function|].
      * destruct (inspect_function_args function function_name) as [arg_spec ierrs].
        destruct (args_match function_name a a0 arg_spec) as [[[matched sa] sk] merrs].
        destruct matched; injection Hx as <- _; [apply Hcall|reflexivity].
      * injection Hx as <- _. reflexivity.
    + destruct (lookup_reference (TermReference id) env1) as [term env2].
      eapply modified_returns_data; [|exact Hx]. intros e b e' Hb. eapply Hd; exact Hb.
    + destruct (lookup_reference (AttributeExpression base name) env1) as [term env2].
      eapply modified_returns_data; [|exact Hx]. intros e b e' Hb. eapply Hd; exact Hb.
Qed.

Lemma handle_returns_data fuel : wf_runtime -> returns_data (handle fuel).
Proof.
  intros Hrt. induction fuel as [|fuel IH]; [intros ? ? ? ? Hx; discriminate Hx|].
  apply dispatch_returns_data; assumption.
Qed.

Lemma handle_data_text fuel v env :
  is_data v = true ->
  handle (S fuel) v env
  = match v with
    | Str _ => Raise TypeError env
    | _ => Return (Str (value_text (_babel_locale (context env)) v)) env
    end.
Proof. intros Hd. destruct v; try discriminate Hd; reflexivity. Qed.

(** X2: when number literals denote numbers and functions return plain
    values, [handle] never returns a syntax node or [None]: its value is
    text, a number, a date or a placeholder.  [fully_resolve] is then
    [handle] followed by at most one formatting step: it returns the text of
    that value, in the environment [handle] left. *)
Theorem fully_resolve_formats_handled_value fuel expr env v env' :
  wf_runtime ->
  handle fuel expr env = Return v env' ->
  is_data v = true /\
  fully_resolve (3 + fuel) expr env
  = Return (value_text (_babel_locale (context env)) v) env'.
Proof.
  intros Hrt Hh.
  pose proof (handle_returns_data fuel Hrt _ _ _ _ Hh) as Hd.
  split; [exact Hd|].
  pose proof (handle_frame _ _ _ _ _ Hh) as (Hc & _).
  change (3 + fuel)%nat with (S (S (S fuel))).
  rewrite fully_resolve_S.
  rewrite (handle_fuel_mono fuel (S (S fuel))) by (lia || congruence).
  rewrite Hh.
  destruct v; try discriminate Hd; try reflexivity;
    rewrite fully_resolve_S, handle_data_text by reflexivity; rewrite Hc; reflexivity.
Qed.

(** X3: a call of [handle] or [fully_resolve] that returns leaves the
    bundle, the current bindings (arguments and missing-argument flag) and
    the guard set as it found them, whatever terms and patterns were entered
    underneath; the part counter has not gone down, and diagnostics were
    only appended: those recorded before the call are still there, in the
    same order, at the front. *)
Theorem returning_call_keeps_bindings fuel expr env :
  (forall v env',
     handle fuel expr env = Return v env' ->
     current env' = current env /\ context env' = context env /\
     dirty env' = dirty env /\ part_count env <= part_count env' /\
     errors env `prefix_of` errors env') /\
  (forall s env',
     fully_resolve fuel expr env = Return s env' ->
     current env' = current env /\ context env' = context env /\
     dirty env' = dirty env /\ part_count env <= part_count env' /\
     errors env `prefix_of` errors env').
Proof.
  split; intros r env' Hr.
  - apply handle_frame in Hr. destruct Hr as (Hc & Hk & Hd & Hn & es & He & _).
    repeat split; try assumption. exists es. exact He.
  - apply fully_resolve_frame in Hr. destruct Hr as (Hc & Hk & Hd & Hn & es & He & _).
    repeat split; try assumption. exists es. exact He.
Qed.

(** X4: a call of a function that is not registered evaluates its arguments
    first, then records one "unknown function" diagnostic and yields the
    placeholder [name()]; as the only element of a message it resolves to
    the rendering of that placeholder with that single diagnostic. *)
Theorem unknown_function_placeholder fuel name :
  (forall positional named env args env1 kwargs env2,
     _functions (context env) !! name = None ->
     handle_positional (handle fuel) positional env = Return args env1 ->
     handle_named (handle fuel) named ∅ env1 = Return kwargs env2 ->
     handle (S fuel) (CallExpression (MessageReference name) positional named) env
     = Return (FluentNone (Some (name ++ [40%N; 41%N])))
         (errors_append (UnknownFunction name) env2)) /\
  (forall bundle external pattern,
     _functions bundle !! name = None ->
     Z.of_nat (length (FluentNone_format (Some (name ++ [40%N; 41%N]))
                         (_babel_locale bundle))) <= MAX_PART_LENGTH ->
     exists env',
       resolve (6 + fuel) bundle
         (Message (Pattern pattern
                     [Placeable (CallExpression (MessageReference name) [] [])]))
         external
       = Return (FluentNone_format (Some (name ++ [40%N; 41%N])) (_babel_locale bundle),
                 [UnknownFunction name]) env').
Proof.
  split.
  - intros positional named env args env1 kwargs env2 Hmiss Hp Hn.
    rewrite handle_S. cbn [dispatch]. unfold handle_call_expression.
    rewrite Hp, Hn.
    pose proof (handle_positional_frame _ (handle_frame fuel) _ _ _ _ Hp) as (Hc1 & _).
    pose proof (handle_named_frame _ (handle_frame fuel) _ _ _ _ _ Hn) as (Hc2 & _).
    rewrite Hc2, Hc1, Hmiss. reflexivity.
  - intros bundle external pattern Hmiss Hlen. eexists. unfold resolve.
    change (6 + fuel)%nat with (S (S (S (S (S (S fuel)))))).
    rewrite fully_resolve_S, handle_S. cbn [dispatch].
    rewrite handle_S. cbn [dispatch].
    rewrite handle_pattern_fresh
      by first [apply fully_resolve_frame | apply not_elem_of_empty].
    rewrite pattern_loop_element by first [cbn; unfold MAX_PARTS; lia | reflexivity].
    rewrite fully_resolve_S, handle_S. cbn [dispatch].
    rewrite handle_S. cbn [dispatch]. unfold handle_call_expression.
    cbn [handle_positional handle_named]. env_simpl. rewrite Hmiss.
    rewrite fully_resolve_FluentNone. env_simpl.
    cbn [pattern_loop]. unfold element_parts.
    destruct (Z.ltb_spec MAX_PART_LENGTH
                (Z.of_nat (length (FluentNone_format (Some (name ++ [40%N; 41%N]))
                                     (_babel_locale bundle)))));
      [lia|].
    cbn [length]. change (1 <? Z.of_nat 1) with false.
    rewrite andb_false_r. cbn [concat app]. rewrite app_nil_r. reflexivity.
Qed.

(** X5: isolation marks are put around the value of a non-text element
    exactly when the bundle asks for them and the pattern has another
    element: a pattern that is one placeable yields the bare value even when
    the bundle asks for isolation, and text elements stay unmarked. *)
Theorem isolation_marks_policy fuel element env part env1 pattern before after :
  is_TextElement element = false ->
  Z.of_nat (length part) <= MAX_PART_LENGTH ->
  pattern ∉ dirty env ->
  part_count env + Z.of_nat (length before) + 1 <= MAX_PARTS ->
  fully_resolve fuel element
    (set_part_count (part_count env + Z.of_nat (length before) + 1)
       (set_dirty ({[pattern]} ∪ dirty env) env))
  = Return part env1 ->
  part_count env1 + Z.of_nat (length after) <= MAX_PARTS ->
  let marked := match before, after with
                | [], [] => false
                | _, _ => _use_isolating (context env)
                end in
  handle (S fuel)
    (Pattern pattern ((TextElement <$> before) ++ element :: (TextElement <$> after)))
    env
  = Return (Str (concat before ++
                 (if marked then FSI ++ part ++ PDI else part) ++
                 concat after))
      (set_dirty (dirty env)
         (set_part_count (part_count env1 + Z.of_nat (length after)) env1)).
Proof.
  intros Htext Hshort Hfresh Hle Hcall Hafter marked.
  rewrite handle_S. cbn [dispatch].
  rewrite handle_pattern_fresh by (apply fully_resolve_frame || assumption).
  rewrite pattern_loop_text by (env_simpl; lia).
  rewrite pattern_loop_element by (env_simpl; (lia || assumption)).
  env_simpl.
  match goal with
  | |- context [fully_resolve fuel element ?e] =>
    replace e with
      (set_part_count (part_count env + Z.of_nat (length before) + 1)
         (set_dirty ({[pattern]} ∪ dirty env) env)) by reflexivity
  end.
  rewrite Hcall.
  destruct (Z.ltb_spec MAX_PART_LENGTH (Z.of_nat (length part))); [lia|].
  rewrite pattern_loop_all_text by (env_simpl; lia).
  unfold element_parts.
  destruct (Z.ltb_spec MAX_PART_LENGTH (Z.of_nat (length part))); [lia|].
  rewrite length_app. cbn [length]. rewrite !length_fmap.
  assert (Hmarked : _use_isolating (context env) &&
                    (1 <? Z.of_nat (length before + S (length after))) = marked).
  { unfold marked. destruct before as [|b before], after as [|a after];
      cbn [length Nat.add].
    - apply andb_false_r.
    - replace (1 <? Z.of_nat (S (S (length after)))) with true
        by (symmetry; apply Z.ltb_lt; lia).
      apply andb_true_r.
    - replace (1 <? Z.of_nat (S (length before + 1))) with true
        by (symmetry; apply Z.ltb_lt; lia).
      apply andb_true_r.
    - replace (1 <? Z.of_nat (S (length before + S (S (length after))))) with true
        by (symmetry; apply Z.ltb_lt; lia).
      apply andb_true_r. }
  rewrite Hmarked.
  destruct marked; rewrite !concat_app; cbn [app concat];
    rewrite <- ?app_assoc; rewrite ?app_nil_r; reflexivity.
Qed.

(** *** Selection among variants *)

Lemma match_selects key name v env :
  is_plain_selector key = true ->
  variant_key v = Identifier name ->
  match_ key (Str name) env = selects (context env) key v.
Proof.
  intros Hk Hv. unfold selects. rewrite Hv.
  destruct key; try discriminate Hk; reflexivity.
Qed.

Lemma last_filter_cons (v : variant) variants (default : option variant) :
  match last (List.filter variant_default (v :: variants)) with
  | Some x => Some x
  | None => default
  end
  = match last (List.filter variant_default variants) with
    | Some x => Some x
    | None => if variant_default v then Some v else default
    end.
Proof.
  cbn [List.filter]. destruct (variant_default v); [|reflexivity].
  rewrite last_cons. destruct (last _); reflexivity.
Qed.

Lemma select_expression_loop_find fuel key variants :
  is_plain_selector key = true ->
  Forall (fun v => is_Identifier (variant_key v) = true) variants ->
  forall default env,
    exists d,
      select_expression_loop (handle (S fuel)) key variants default env
      = Return (List.find (selects (context env) key) variants, d) env /\
      (List.find (selects (context env) key) variants = None ->
       d = match last (List.filter variant_default variants) with
           | Some x => Some x
           | None => default
           end).
Proof.
  intros Hk Hall. induction Hall as [|v variants Hv Hall IH]; intros default env.
  - exists default. split; reflexivity.
  - cbn [select_expression_loop List.find].
    destruct (variant_key v) as [| | | | | | | | | | | | | | | | | | | | | |name] eqn:Ek;
      try discriminate Hv.
    rewrite handle_S. cbn [dispatch].
    rewrite (match_selects key name v env Hk Ek).
    destruct (selects (context env) key v) eqn:Es.
    + eexists. split; [reflexivity|]. intros Hx. discriminate Hx.
    + destruct (IH (if variant_default v then Some v else default) env)
        as (d & Hloop & Hd).
      exists d. split; [exact Hloop|]. intros Hnone.
      rewrite (Hd Hnone). symmetry. apply last_filter_cons.
Qed.

(** X6: a select expression whose variants are named by identifiers takes
    the first variant that the selector's value selects - text by equality
    with the name, a number by its plural category, a placeholder none -
    otherwise the last variant flagged as default, and yields a placeholder
    when there is neither.  No diagnostic is recorded by the selection. *)
Theorem select_expression_chooses_variant fuel selector variants env key env1 :
  handle (S fuel) selector env = Return key env1 ->
  is_plain_selector key = true ->
  Forall (fun v => is_Identifier (variant_key v) = true) variants ->
  handle (S (S fuel)) (SelectExpression selector variants) env
  = match List.find (selects (context env) key) variants with
    | Some v => handle (S fuel) (variant_value v) env1
    | None =>
      match last (List.filter variant_default variants) with
      | Some d => handle (S fuel) (variant_value d) env1
      | None => Return (FluentNone None) env1
      end
    end.
Proof.
  intros Hsel Hk Hall.
  pose proof (handle_frame _ _ _ _ _ Hsel) as (Hc & _).
  rewrite handle_S. cbn [dispatch]. unfold handle_select_expression.
  rewrite Hsel. unfold select_from_select_expression.
  destruct (select_expression_loop_find fuel key variants Hk Hall None env1)
    as (d & Hloop & Hd).
  rewrite Hloop, Hc.
  rewrite Hc in Hd.
  destruct (List.find (selects (context env) key) variants) as [v|]; [reflexivity|].
  rewrite (Hd eq_refl). destruct (last _); reflexivity.
Qed.

Lemma variant_list_loop_None fuel variants :
  Forall (fun v => is_Identifier (variant_key v) = true) variants ->
  forall default env,
    variant_list_loop (handle (S fuel)) PyNone variants default env
    = Return (None,
              match List.find variant_default variants with
              | Some d => Some d
              | None => default
              end) env.
Proof.
  intros Hall. induction Hall as [|v variants Hv Hall IH]; intros default env.
  - reflexivity.
  - cbn [variant_list_loop List.find is_None].
    destruct (variant_default v); cbn [andb]; [reflexivity|].
    destruct (variant_key v) as [| | | | | | | | | | | | | | | | | | | | | |name] eqn:Ek;
      try discriminate Hv.
    rewrite handle_S. cbn [dispatch].
    change (match_ PyNone (Str name) env) with false. cbn iota.
    apply IH.
Qed.

Lemma variant_list_loop_find fuel key variants :
  Forall (fun v => is_Identifier (variant_key v) = true) variants ->
  forall default env,
    exists d,
      variant_list_loop (handle (S fuel)) (Str key) variants default env
      = Return (List.find (selects (context env) (Str key)) variants, d) env /\
      (List.find (selects (context env) (Str key)) variants = None ->
       d = match last (List.filter variant_default variants) with
           | Some x => Some x
           | None => default
           end).
Proof.
  intros Hall. induction Hall as [|v variants Hv Hall IH]; intros default env.
  - exists default. split; reflexivity.
  - cbn [variant_list_loop List.find is_None]. rewrite andb_false_r.
    destruct (variant_key v) as [| | | | | | | | | | | | | | | | | | | | | |name] eqn:Ek;
      try discriminate Hv.
    rewrite handle_S. cbn [dispatch].
    rewrite (match_selects (Str key) name v env eq_refl Ek).
    destruct (selects (context env) (Str key) v) eqn:Es.
    + eexists. split; [reflexivity|]. intros Hx. discriminate Hx.
    + destruct (IH (if variant_default v then Some v else default) env)
        as (d & Hloop & Hd).
      exists d. split; [exact Hloop|]. intros Hnone.
      rewrite (Hd Hnone). symmetry. apply last_filter_cons.
Qed.

(** X7: a variant list met without a key (the value of a term that is
    referenced as a whole) resolves to its first variant flagged as
    default: the selection itself records no diagnostic and leaves the
    environment as it was. *)
Theorem variant_list_takes_first_default fuel variants env d :
  Forall (fun v => is_Identifier (variant_key v) = true) variants ->
  List.find variant_default variants = Some d ->
  handle (S (S fuel)) (VariantList variants) env
  = handle (S fuel) (variant_value d) env.
Proof.
  intros Hall Hd. rewrite handle_S. cbn [dispatch].
  unfold select_from_variant_list.
  rewrite (variant_list_loop_None fuel variants Hall None env), Hd.
  reflexivity.
Qed.

(** X8: a variant expression [ref[key]] on an entry whose value is a variant
    list with a default takes the first variant named [key]; when no
    variant has that name it records one "unknown variant" diagnostic and
    takes the last variant flagged as default. *)
Theorem variant_expression_chooses_variant fuel ref key node variants env d :
  _messages_and_terms (context env) !! reference_to_id ref = Some node ->
  node_value node = Some (VariantList variants) ->
  Forall (fun v => is_Identifier (variant_key v) = true) variants ->
  last (List.filter variant_default variants) = Some d ->
  handle (S (S fuel)) (VariantExpression ref key) env
  = match List.find (selects (context env) (Str key)) variants with
    | Some v => handle (S fuel) (variant_value v) env
    | None => handle (S fuel) (variant_value d)
                (errors_append (UnknownVariant (Str key)) env)
    end.
Proof.
  intros Hnode Hvalue Hall Hd. rewrite handle_S. cbn [dispatch].
  unfold handle_variant_expression, lookup_reference. rewrite Hnode.
  assert (Hnone : is_FluentNone node = false)
    by (destruct node; try reflexivity; discriminate Hvalue).
  rewrite Hnone, Hvalue. unfold select_from_variant_list.
  destruct (variant_list_loop_find fuel key variants Hall None env)
    as (d' & Hloop & Hd').
  rewrite Hloop.
  destruct (List.find (selects (context env) (Str key)) variants) as [v|];
    [reflexivity|].
  rewrite (Hd' eq_refl), Hd. reflexivity.
Qed.

(** *** A pattern that is one placeable *)

Lemma fully_resolve_data fuel expr env v env' :
  is_data v = true ->
  handle fuel expr env = Return v env' ->
  fully_resolve (3 + fuel) expr env
  = Return (value_text (_babel_locale (context env)) v) env'.
Proof.
  intros Hd Hh.
  pose proof (handle_frame _ _ _ _ _ Hh) as (Hc & _).
  change (3 + fuel)%nat with (S (S (S fuel))).
  rewrite fully_resolve_S.
  rewrite (handle_fuel_mono fuel (S (S fuel))) by (lia || congruence).
  rewrite Hh.
  destruct v; try discriminate Hd; try reflexivity;
    rewrite fully_resolve_S, handle_data_text by reflexivity; rewrite Hc; reflexivity.
Qed.

Lemma placeable_pattern fuel pattern expression env v env1 :
  is_data v = true ->
  pattern ∉ dirty env ->
  part_count env + 1 <= MAX_PARTS ->
  handle fuel expression
    (set_part_count (part_count env + 1) (set_dirty ({[pattern]} ∪ dirty env) env))
  = Return v env1 ->
  Z.of_nat (length (value_text (_babel_locale (context env)) v)) <= MAX_PART_LENGTH ->
  handle (5 + fuel) (Pattern pattern [Placeable expression]) env
  = Return (Str (value_text (_babel_locale (context env)) v))
      (set_dirty (dirty env) env1).
Proof.
  intros Hd Hfresh Hle Hh Hlen.
  change (5 + fuel)%nat with (S (3 + S fuel)).
  rewrite handle_S. cbn [dispatch].
  rewrite handle_pattern_fresh by (apply fully_resolve_frame || assumption).
  rewrite pattern_loop_element by (env_simpl; (lia || reflexivity)).
  env_simpl.
  rewrite (fully_resolve_data (S fuel) (Placeable expression) _ v env1 Hd)
    by (rewrite handle_S; cbn [dispatch]; exact Hh).
  env_simpl.
  destruct (Z.ltb_spec MAX_PART_LENGTH
              (Z.of_nat (length (value_text (_babel_locale (context env)) v))));
    [lia|].
  cbn [pattern_loop]. unfold element_parts.
  destruct (Z.ltb_spec MAX_PART_LENGTH
              (Z.of_nat (length (value_text (_babel_locale (context env)) v))));
    [lia|].
  cbn [length]. change (1 <? Z.of_nat 1) with false.
  rewrite andb_false_r. cbn [concat app]. rewrite app_nil_r. reflexivity.
Qed.

(** X9: a plain reference to a term resolves the term with no variables at
    all: a variable used in the term's body yields its placeholder whatever
    the caller binds under that name, no diagnostic is recorded for it, and
    the caller's bindings are in place again afterwards. *)
Theorem term_reference_hides_variables fuel id name pattern env :
  _messages_and_terms (context env) !! (TERM_SIGIL ++ id)
    = Some (Term (Pattern pattern [Placeable (VariableReference name)])) ->
  pattern ∉ dirty env ->
  part_count env + 1 <= MAX_PARTS ->
  Z.of_nat (length (FluentNone_format (Some name) (_babel_locale (context env))))
    <= MAX_PART_LENGTH ->
  handle (8 + fuel) (Ref (TermReference id)) env
  = Return (Str (FluentNone_format (Some name) (_babel_locale (context env))))
      (set_part_count (part_count env + 1) env).
Proof.
  intros Hterm Hfresh Hle Hlen.
  change (8 + fuel)%nat with (S (S (5 + S fuel))).
  rewrite handle_S. cbn [dispatch].
  unfold modified_for_term_reference, modified, lookup_reference.
  cbn [reference_to_id]. env_simpl. rewrite Hterm.
  rewrite handle_S. cbn [dispatch].
  rewrite (placeable_pattern (S fuel) pattern (VariableReference name) _
             (FluentNone (Some name))
             (set_part_count (part_count env + 1)
                (set_dirty ({[pattern]} ∪ dirty env)
                   (set_current {| args := ∅; error_for_missing_arg := false |} env))));
    try (env_simpl; (reflexivity || assumption)).
Qed.

(** X10: a reference to a message or a term that is not registered records
    one "unknown reference" diagnostic and yields the rendering of a
    placeholder carrying the identifier (the term's with its sigil); a
    reference to an entry that is registered without a body raises
    [LookupError] instead. *)
Theorem unknown_reference_placeholder fuel id env :
  (_messages_and_terms (context env) !! id = None ->
   handle (S (S fuel)) (Ref (MessageReference id)) env
   = Return (Str (FluentNone_format (Some id) (_babel_locale (context env))))
       (errors_append (UnknownReference id) env)) /\
  (_messages_and_terms (context env) !! (TERM_SIGIL ++ id) = None ->
   handle (S (S fuel)) (Ref (TermReference id)) env
   = Return (Str (FluentNone_format (Some (TERM_SIGIL ++ id))
                    (_babel_locale (context env))))
       (errors_append (UnknownReference (TERM_SIGIL ++ id)) env)) /\
  (_messages_and_terms (context env) !! id = Some (Message PyNone) ->
   handle (S (S (S fuel))) (Ref (MessageReference id)) env
   = Raise LookupError env).
Proof.
  split; [|split]; intros Hmiss.
  - rewrite handle_S. cbn [dispatch]. unfold lookup_reference.
    cbn [reference_to_id is_AttributeExpression]. rewrite Hmiss. reflexivity.
  - rewrite handle_S. cbn [dispatch].
    unfold modified_for_term_reference, modified, lookup_reference.
    cbn [reference_to_id is_AttributeExpression]. env_simpl. rewrite Hmiss.
    rewrite handle_S. cbn [dispatch]. env_simpl. destruct env; reflexivity.
  - rewrite handle_S. cbn [dispatch]. unfold lookup_reference.
    cbn [reference_to_id]. rewrite Hmiss. reflexivity.
Qed.

(** X11: a message that is one variable: when the argument bound to it is
    text, a number or a date, the message resolves to that text or to the
    locale's rendering of the value, without a diagnostic; when it is of
    another type, the message resolves to the placeholder carrying the
    variable's name, with one "unsupported external type" diagnostic. *)
Theorem external_argument_rendered fuel bundle external pattern name arg_val :
  external !! name = Some arg_val ->
  (is_supported_external arg_val = true ->
   Z.of_nat (length (value_text (_babel_locale bundle) arg_val)) <= MAX_PART_LENGTH ->
   exists env',
     resolve (9 + fuel) bundle
       (Message (Pattern pattern [Placeable (VariableReference name)])) external
     = Return (value_text (_babel_locale bundle) arg_val, []) env') /\
  (is_supported_external arg_val = false ->
   Z.of_nat (length (FluentNone_format (Some name) (_babel_locale bundle)))
     <= MAX_PART_LENGTH ->
   exists env',
     resolve (9 + fuel) bundle
       (Message (Pattern pattern [Placeable (VariableReference name)])) external
     = Return (FluentNone_format (Some name) (_babel_locale bundle),
               [UnsupportedExternalType name arg_val]) env').
Proof.
  intros Hbound.
  assert (Hrun : forall v env1,
            is_data v = true ->
            handle (S fuel) (VariableReference name)
              (set_part_count 1
                 (set_dirty ({[pattern]} ∪ ∅) (initial_environment bundle external)))
            = Return v env1 ->
            Z.of_nat (length (value_text (_babel_locale bundle) v)) <= MAX_PART_LENGTH ->
            resolve (9 + fuel) bundle
              (Message (Pattern pattern [Placeable (VariableReference name)])) external
            = Return (value_text (_babel_locale bundle) v, errors env1)
                (set_dirty ∅ env1)).
  { intros v env1 Hd Hh Hlen. unfold resolve.
    change (9 + fuel)%nat with (S (S (S (5 + S fuel)))).
    rewrite fully_resolve_S.
    rewrite (handle_fuel_mono (S (5 + S fuel)) (S (S (5 + S fuel))));
      [|lia|]; rewrite handle_S; cbn [dispatch];
      rewrite (placeable_pattern (S fuel) pattern (VariableReference name)
                 (initial_environment bundle external) v env1 Hd);
      try first [apply not_elem_of_empty | exact Hh | exact Hlen
                | cbn; unfold MAX_PARTS; lia | discriminate].
    reflexivity. }
  split; intros Htype Hlen; eexists.
  - rewrite (Hrun arg_val
               (set_part_count 1
                  (set_dirty ({[pattern]} ∪ ∅) (initial_environment bundle external)))).
    + reflexivity.
    + destruct arg_val; try discriminate Htype; reflexivity.
    + rewrite handle_S. cbn [dispatch]. unfold handle_variable_reference. env_simpl.
      rewrite Hbound, Htype. reflexivity.
    + exact Hlen.
  - rewrite (Hrun (FluentNone (Some name))
               (errors_append (UnsupportedExternalType name arg_val)
                  (set_part_count 1
                     (set_dirty ({[pattern]} ∪ ∅)
                        (initial_environment bundle external))))).
    + reflexivity.
    + reflexivity.
    + rewrite handle_S. cbn [dispatch]. unfold handle_variable_reference. env_simpl.
      rewrite Hbound, Htype. reflexivity.
    + exact Hlen.
Qed.

(** X12: a reference to an attribute resolves to the text of the
    attribute's pattern; when the entry has no such attribute but the base
    entry is registered, it resolves to the text of the base entry itself,
    after one "unknown reference" diagnostic naming the attribute. *)
Theorem attribute_reference_text fuel base name values pattern env :
  part_count env + Z.of_nat (length values) <= MAX_PARTS ->
  pattern ∉ dirty env ->
  (_messages_and_terms (context env) !! reference_to_id (AttributeExpression base name)
     = Some (Attribute (Pattern pattern (TextElement <$> values))) ->
   handle (3 + fuel) (Ref (AttributeExpression base name)) env
   = Return (Str (concat values))
       (set_part_count (part_count env + Z.of_nat (length values)) env)) /\
  (_messages_and_terms (context env) !! reference_to_id (AttributeExpression base name)
     = None ->
   _messages_and_terms (context env) !! reference_to_id base
     = Some (Message (Pattern pattern (TextElement <$> values))) ->
   handle (3 + fuel) (Ref (AttributeExpression base name)) env
   = Return (Str (concat values))
       (set_part_count (part_count env + Z.of_nat (length values))
          (errors_append
             (UnknownReference (reference_to_id (AttributeExpression base name)))
             env))).
Proof.
  intros Hle Hfresh.
  change (3 + fuel)%nat with (S (S (S fuel))).
  split.
  - intros Hfound. rewrite handle_S. cbn [dispatch]. unfold lookup_reference.
    rewrite Hfound. rewrite handle_S. cbn [dispatch]. rewrite handle_S. cbn [dispatch].
    rewrite handle_pattern_fresh by (apply fully_resolve_frame || assumption).
    rewrite pattern_loop_all_text by (env_simpl; lia).
    env_simpl. cbn [app]. destruct env; reflexivity.
  - intros Hmiss Hbase. rewrite handle_S. cbn [dispatch]. unfold lookup_reference.
    rewrite Hmiss. cbn [is_AttributeExpression]. env_simpl. rewrite Hbase.
    rewrite handle_S. cbn [dispatch]. rewrite handle_S. cbn [dispatch].
    rewrite handle_pattern_fresh by (apply fully_resolve_frame || assumption).
    rewrite pattern_loop_all_text by (env_simpl; lia).
    env_simpl. cbn [app]. destruct env; reflexivity.
Qed.

(** X13: a call of a term binds the call's named arguments, and only them,
    as the variables of the term's body: a variable of the body takes the
    value of the named argument of that name.  Positional arguments are
    evaluated and dropped, at the price of one "ignored positional
    arguments" diagnostic. *)
Theorem term_call_binds_named_arguments
    fuel id name pattern positional named env args env1 kwargs env2 v :
  _messages_and_terms (context env) !! (TERM_SIGIL ++ id)
    = Some (Term (Pattern pattern [Placeable (VariableReference name)])) ->
  handle_positional (handle (7 + fuel)) positional env = Return args env1 ->
  handle_named (handle (7 + fuel)) named ∅ env1 = Return kwargs env2 ->
  kwargs !! name = Some v ->
  is_supported_external v = true ->
  pattern ∉ dirty env ->
  part_count env2 + 1 <= MAX_PARTS ->
  Z.of_nat (length (value_text (_babel_locale (context env)) v)) <= MAX_PART_LENGTH ->
  handle (8 + fuel) (CallExpression (TermReference id) positional named) env
  = Return (Str (value_text (_babel_locale (context env)) v))
      (set_part_count (part_count env2 + 1)
         match args with
         | [] => env2
         | _ :: _ => errors_append (IgnoredPositionalArguments (TERM_SIGIL ++ id)) env2
         end).
Proof.
  intros Hterm Hp Hn Hv Htype Hfresh Hle Hlen.
  pose proof (handle_positional_frame _ (handle_frame _) _ _ _ _ Hp)
    as (Hc1 & _ & Hd1 & _).
  pose proof (handle_named_frame _ (handle_frame _) _ _ _ _ _ Hn)
    as (Hc2 & _ & Hd2 & _).
  assert (Hc : context env2 = context env) by congruence.
  assert (Hd : dirty env2 = dirty env) by congruence.
  assert (Hdata : is_data v = true)
    by (destruct v; try discriminate Htype; reflexivity).
  change (8 + fuel)%nat with (S (7 + fuel)).
  rewrite handle_S. cbn [dispatch]. unfold handle_call_expression.
  rewrite Hp, Hn. unfold lookup_reference. cbn [reference_to_id].
  rewrite Hc, Hterm. unfold modified_for_term_reference, modified.
  change (7 + fuel)%nat with (S (5 + S fuel)).
  rewrite handle_S. cbn [dispatch].
  destruct args as [|arg args].
  - rewrite (placeable_pattern (S fuel) pattern (VariableReference name) _ v
               (set_part_count (part_count env2 + 1)
                  (set_dirty ({[pattern]} ∪ dirty env2)
                     (set_current {| args := kwargs; error_for_missing_arg := false |}
                        env2))));
      try (env_simpl; rewrite ?Hc, ?Hd; (assumption || lia)).
    + env_simpl. rewrite Hc. destruct env2; reflexivity.
    + rewrite handle_S. cbn [dispatch]. unfold handle_variable_reference. env_simpl.
      rewrite Hv, Htype. reflexivity.
  - rewrite (placeable_pattern (S fuel) pattern (VariableReference name) _ v
               (set_part_count (part_count env2 + 1)
                  (set_dirty ({[pattern]} ∪ dirty env2)
                     (set_current {| args := kwargs; error_for_missing_arg := false |}
                        (errors_append (IgnoredPositionalArguments (TERM_SIGIL ++ id))
                           env2)))));
      try (env_simpl; rewrite ?Hc, ?Hd; (assumption || lia)).
    + env_simpl. rewrite Hc. destruct env2; reflexivity.
    + rewrite handle_S. cbn [dispatch]. unfold handle_variable_reference. env_simpl.
      rewrite Hv, Htype. reflexivity.
Qed.

(** *** The length of the output *)

Lemma text_length_nonneg elements : 0 <= text_length elements.
Proof.
  induction elements as [|element rest IH]; [reflexivity|].
  destruct element; cbn [text_length]; lia.
Qed.

Lemma fully_resolve_placeholder fuel name env s env' :
  fully_resolve fuel (FluentNone name) env = Return s env' ->
  s = FluentNone_format name (_babel_locale (context env)).
Proof.
  destruct fuel as [|[|fuel]]; try discriminate.
  rewrite fully_resolve_FluentNone. intros Hx. injection Hx as <- _. reflexivity.
Qed.

Lemma element_parts_length iso part :
  Z.of_nat (length (concat (element_parts iso part))) <= MAX_PART_LENGTH + 2.
Proof.
  unfold element_parts.
  assert (Hkept : Z.of_nat (length (if MAX_PART_LENGTH <? Z.of_nat (length part)
                                    then take (Z.to_nat MAX_PART_LENGTH) part
                                    else part)) <= MAX_PART_LENGTH).
  { destruct (Z.ltb_spec MAX_PART_LENGTH (Z.of_nat (length part))); [|assumption].
    rewrite length_take. unfold MAX_PART_LENGTH in *. lia. }
  destruct iso; cbn [concat]; rewrite ?length_app, ?app_nil_r; cbn [FSI PDI length];
    lia.
Qed.

Lemma pattern_loop_bounded fuel iso elements :
  forall parts env parts' env',
    0 <= part_count env ->
    pattern_loop (fully_resolve fuel) iso elements parts env = Return parts' env' ->
    Z.of_nat (length (concat parts'))
    <= Z.of_nat (length (concat parts)) + text_length elements
       + (MAX_PART_LENGTH + 2) * Z.max 0 (MAX_PARTS - part_count env)
       + Z.of_nat (length (FluentNone_format None (_babel_locale (context env)))).
Proof.
  induction elements as [|element rest IH]; intros parts env parts' env' Hpos Hloop.
  - cbn [pattern_loop] in Hloop. injection Hloop as <- _.
    cbn [text_length]. unfold MAX_PART_LENGTH. lia.
  - pose proof (text_length_nonneg rest) as Hrest.
    destruct (Z.ltb_spec MAX_PARTS (part_count env + 1)) as [Hgt|Hle].
    + cbn [pattern_loop part_count set_part_count] in Hloop.
      destruct (Z.ltb_spec MAX_PARTS (part_count env + 1)); [|lia].
      assert (Htext : 0 <= text_length (element :: rest))
        by apply text_length_nonneg.
      destruct (part_count env + 1 =? MAX_PARTS + 1).
      * destruct (fully_resolve fuel (FluentNone None) _) as [b r| |] eqn:E;
          try discriminate Hloop.
        injection Hloop as <- _.
        apply fully_resolve_placeholder in E. subst b. env_simpl.
        rewrite concat_app, length_app. cbn [concat]. rewrite app_nil_r.
        unfold MAX_PART_LENGTH. lia.
      * injection Hloop as <- _. unfold MAX_PART_LENGTH. lia.
    + destruct (is_TextElement element) eqn:Htext.
      * destruct element; try discriminate Htext.
        cbn [pattern_loop part_count set_part_count] in Hloop.
        destruct (Z.ltb_spec MAX_PARTS (part_count env + 1)); [lia|].
        apply IH in Hloop; [|env_simpl; lia]. env_simpl.
        rewrite concat_app, length_app in Hloop. cbn [concat] in Hloop.
        rewrite app_nil_r in Hloop. cbn [text_length].
        unfold MAX_PART_LENGTH, MAX_PARTS in *. lia.
      * rewrite pattern_loop_element in Hloop by assumption.
        destruct (fully_resolve fuel element _) as [b r| |] eqn:E;
          try discriminate Hloop.
        pose proof (fully_resolve_frame _ _ _ _ _ E) as (Hc & _ & _ & Hn & _).
        env_simpl.
        pose proof (element_parts_length iso b) as Hpart.
        assert (Hsame : text_length (element :: rest) = text_length rest)
          by (destruct element; try discriminate Htext; reflexivity).
        rewrite Hsame.
        apply IH in Hloop;
          [|destruct (MAX_PART_LENGTH <? Z.of_nat (length b)); env_simpl; lia].
        rewrite concat_app, length_app in Hloop.
        assert (Hctx : context (if MAX_PART_LENGTH <? Z.of_nat (length b)
                                then errors_append (TooManyCharacters (length b)) r
                                else r) = context env)
          by (destruct (MAX_PART_LENGTH <? Z.of_nat (length b)); exact Hc).
        assert (Hcount : part_count (if MAX_PART_LENGTH <? Z.of_nat (length b)
                                     then errors_append (TooManyCharacters (length b)) r
                                     else r) = part_count r)
          by (destruct (MAX_PART_LENGTH <? Z.of_nat (length b)); reflexivity).
        rewrite Hctx, Hcount in Hloop.
        unfold MAX_PART_LENGTH, MAX_PARTS in *. lia.
Qed.

(** X14: the text of a pattern is bounded whatever its placeables expand
    to: at most the literal text of the pattern, plus 1000 parts of 2500
    characters and two isolation marks each, plus one rendering of the
    anonymous placeholder - for a pattern resolved by [handle] while the
    shared counter is not negative, and so for the text that [resolve]
    returns for a message. *)
Theorem pattern_output_bounded fuel pattern elements :
  (forall env s env',
     0 <= part_count env ->
     handle fuel (Pattern pattern elements) env = Return (Str s) env' ->
     Z.of_nat (length s)
     <= text_length elements + (MAX_PART_LENGTH + 2) * MAX_PARTS
        + Z.of_nat (length (FluentNone_format None (_babel_locale (context env))))) /\
  (forall bundle external s errs env',
     resolve fuel bundle (Message (Pattern pattern elements)) external
     = Return (s, errs) env' ->
     Z.of_nat (length s)
     <= text_length elements + (MAX_PART_LENGTH + 2) * MAX_PARTS
        + Z.of_nat (length (FluentNone_format None (_babel_locale bundle)))).
Proof.
  assert (Hhandle : forall n env s env',
            0 <= part_count env ->
            handle n (Pattern pattern elements) env = Return (Str s) env' ->
            Z.of_nat (length s)
            <= text_length elements + (MAX_PART_LENGTH + 2) * MAX_PARTS
               + Z.of_nat (length (FluentNone_format None
                                     (_babel_locale (context env))))).
  { intros n env s env' Hpos Hh.
    destruct n as [|n]; [discriminate Hh|].
    rewrite handle_S in Hh. cbn [dispatch] in Hh.
    destruct (decide (pattern ∈ dirty env)) as [Hin|Hfresh].
    - unfold handle_pattern in Hh. rewrite bool_decide_eq_true_2 in Hh by assumption.
      discriminate Hh.
    - rewrite handle_pattern_fresh in Hh by (apply fully_resolve_frame || assumption).
      destruct (pattern_loop _ _ _ _ _) as [parts env1| |] eqn:E;
        try discriminate Hh.
      injection Hh as <- _.
      apply pattern_loop_bounded in E; [|env_simpl; assumption].
      env_simpl. cbn [concat length] in E.
      unfold MAX_PART_LENGTH, MAX_PARTS in *. lia. }
  split; [apply Hhandle|].
  intros bundle external s errs env' Hr. unfold resolve in Hr.
  destruct (fully_resolve fuel _ _) as [s0 env0| |] eqn:E; try discriminate Hr.
  injection Hr as <- _ _.
  destruct fuel as [|[|n]]; try discriminate E.
  rewrite fully_resolve_S, handle_S in E. cbn [dispatch] in E.
  destruct (handle n _ _) as [v env1| |] eqn:E0; try discriminate E.
  assert (Hstr : exists s', v = Str s').
  { destruct n as [|n]; [discriminate E0|].
    rewrite handle_S in E0. cbn [dispatch] in E0.
    rewrite handle_pattern_fresh in E0
      by first [apply fully_resolve_frame | apply not_elem_of_empty].
    destruct (pattern_loop _ _ _ _ _) as [parts env2| |]; try discriminate E0.
    injection E0 as <- _. eexists. reflexivity. }
  destruct Hstr as (s' & ->). injection E as <- _.
  apply (Hhandle n (initial_environment bundle external) s' env1); [|exact E0].
  reflexivity.
Qed.

(** *** Counting re-entries *)

Lemma count_cyclic_app es1 es2 :
  count_cyclic (es1 ++ es2) = (count_cyclic es1 + count_cyclic es2)%nat.
Proof.
  induction es1 as [|e es1 IH]; [reflexivity|].
  destruct e; cbn [app count_cyclic]; rewrite IH; reflexivity.
Qed.

Lemma lookup_reference_referent ref env :
  exists env1,
    lookup_reference ref env = (referent (context env) ref, env1) /\
    context env1 = context env /\ current env1 = current env /\
    dirty env1 = dirty env /\ part_count env1 = part_count env /\
    count_cyclic (errors env1) = count_cyclic (errors env).
Proof.
  unfold referent, lookup_reference. env_simpl.
  destruct (_messages_and_terms (context env) !! reference_to_id ref) as [node|].
  - exists env. repeat split; reflexivity.
  - exists (errors_append (UnknownReference (reference_to_id ref)) env).
    assert (Hcount : count_cyclic
                       (errors (errors_append (UnknownReference (reference_to_id ref)) env))
                     = count_cyclic (errors env)).
    { env_simpl. rewrite count_cyclic_app. cbn [count_cyclic]. lia. }
    destruct (is_AttributeExpression ref) as [base|]; env_simpl;
      [destruct (_messages_and_terms (context env) !! reference_to_id base) as [node|]|];
      repeat split; try reflexivity; exact Hcount.
Qed.

Lemma handle_variable_reference_value name env :
  exists env1,
    handle_variable_reference name env = (variable_value (current env) name, env1) /\
    context env1 = context env /\ current env1 = current env /\
    dirty env1 = dirty env /\ part_count env1 = part_count env /\
    count_cyclic (errors env1) = count_cyclic (errors env).
Proof.
  unfold handle_variable_reference, variable_value.
  destruct (args (current env) !! name) as [arg_val|].
  - destruct (is_supported_external arg_val); eexists; (split; [reflexivity|]);
      repeat split; try reflexivity.
    env_simpl. rewrite count_cyclic_app. cbn [count_cyclic]. lia.
  - destruct (error_for_missing_arg (current env)); eexists; (split; [reflexivity|]);
      repeat split; try reflexivity.
    env_simpl. rewrite count_cyclic_app. cbn [count_cyclic]. lia.
Qed.

Lemma variable_value_data cur name : is_data (variable_value cur name) = true.
Proof.
  unfold variable_value. destruct (args cur !! name) as [arg_val|]; [|reflexivity].
  destruct (is_supported_external arg_val) eqn:Hs; [|reflexivity].
  destruct arg_val; try discriminate Hs; reflexivity.
Qed.

Lemma reentries_sound depth :
  wf_runtime ->
  forall bundle cur guarded e c n,
    reentries depth bundle cur guarded e = Some (c, n) ->
    forall env,
      context env = bundle -> current env = cur -> dirty env = guarded ->
      part_count env + Z.of_nat n <= MAX_PARTS ->
      exists v env',
        handle (4 * depth) e env = Return v env' /\
        is_data v = true /\
        count_cyclic (errors env') = (count_cyclic (errors env) + c)%nat /\
        part_count env' = part_count env + Z.of_nat n.
Proof.
  intros Hrt. induction depth as [|d IH];
    intros bundle cur guarded e c n Hre env Hctx Hcur Hdirty Hbudget;
    [discriminate Hre|].
  replace (4 * S d)%nat with (S (3 + 4 * d)) by lia.
  assert (Hnested : forall cur' guarded' x c' n' env0,
            reentries d bundle cur' guarded' x = Some (c', n') ->
            context env0 = bundle -> current env0 = cur' -> dirty env0 = guarded' ->
            part_count env0 + Z.of_nat n' <= MAX_PARTS ->
            exists v env',
              handle (3 + 4 * d) x env0 = Return v env' /\
              is_data v = true /\
              count_cyclic (errors env') = (count_cyclic (errors env0) + c')%nat /\
              part_count env' = part_count env0 + Z.of_nat n').
  { intros cur' guarded' x c' n' env0 Hx H1 H2 H3 H4.
    destruct (IH bundle cur' guarded' x c' n' Hx env0 H1 H2 H3 H4)
      as (v & env' & Hh & Hd & Hc & Hn).
    exists v, env'. split; [|auto].
    apply (handle_lift (4 * d)); [lia|exact Hh]. }
  rewrite handle_S.
  destruct e as [ | | | | | | | | | | | | | | | | | | | | | | ];
    try discriminate Hre; cbn [reentries] in Hre; cbn [dispatch].
  - (* FluentNone *)
    injection Hre as <- <-. do 2 eexists. split; [reflexivity|].
    split; [reflexivity|]. split; [lia|]. cbn. lia.
  - (* Message *)
    eapply Hnested; eassumption.
  - (* Term *)
    eapply Hnested; eassumption.
  - (* Attribute *)
    eapply Hnested; eassumption.
  - (* Pattern *)
    destruct (bool_decide (ident ∈ guarded)) eqn:Hin.
    + injection Hre as <- <-. apply bool_decide_eq_true in Hin.
      unfold handle_pattern. rewrite bool_decide_eq_true_2 by (rewrite Hdirty; exact Hin).
      do 2 eexists. split; [reflexivity|]. split; [reflexivity|].
      env_simpl. rewrite count_cyclic_app. cbn [count_cyclic]. split; lia.
    + apply bool_decide_eq_false in Hin.
      rewrite handle_pattern_fresh
        by first [apply fully_resolve_frame | rewrite Hdirty; exact Hin].
      set (iso := _use_isolating (context env) && (1 <? Z.of_nat (length elements))).
      clearbody iso.
      assert (Hloop : forall l c' n' parts env0,
                (fix loop (l : list obj) : option (nat * nat) :=
                   match l with
                   | [] => Some (O, O)
                   | x :: l' =>
                     match (if is_TextElement x then Some (O, O)
                            else reentries d bundle cur ({[ident]} ∪ guarded) x),
                           loop l' with
                     | Some (c1, n1), Some (c2, n2) =>
                       Some ((c1 + c2)%nat, S (n1 + n2))
                     | _, _ => None
                     end
                   end) l = Some (c', n') ->
                context env0 = bundle -> current env0 = cur ->
                dirty env0 = {[ident]} ∪ guarded ->
                part_count env0 + Z.of_nat n' <= MAX_PARTS ->
                exists parts' env',
                  pattern_loop (fully_resolve (3 + 4 * d)) iso l parts env0
                  = Return parts' env' /\
                  count_cyclic (errors env') = (count_cyclic (errors env0) + c')%nat /\
                  part_count env' = part_count env0 + Z.of_nat n').
      { induction l as [|x l IHl]; intros c' n' parts env0 Hl H1 H2 H3 H4.
        - injection Hl as <- <-. exists parts, env0. split; [reflexivity|].
          split; [lia|]. cbn. lia.
        - destruct (is_TextElement x) eqn:Htext.
          + destruct x; try discriminate Htext.
            destruct ((fix loop (l : list obj) : option (nat * nat) :=
                         match l with
                         | [] => Some (O, O)
                         | x :: l' =>
                           match (if is_TextElement x then Some (O, O)
                                  else reentries d bundle cur ({[ident]} ∪ guarded) x),
                                 loop l' with
                           | Some (c1, n1), Some (c2, n2) =>
                             Some ((c1 + c2)%nat, S (n1 + n2))
                           | _, _ => None
                           end
                         end) l) as [[c2 n2]|] eqn:El; [|discriminate Hl].
            injection Hl as <- <-.
            destruct (IHl c2 n2 (parts ++ [value])
                        (set_part_count (part_count env0 + 1) env0) eq_refl)
              as (parts' & env' & Hp & Hc & Hn); try assumption.
            { env_simpl. lia. }
            exists parts', env'. cbn [pattern_loop]. env_simpl.
            destruct (Z.ltb_spec MAX_PARTS (part_count env0 + 1)); [lia|].
            split; [exact Hp|]. split; [exact Hc|]. lia.
          + destruct (reentries d bundle cur ({[ident]} ∪ guarded) x)
              as [[c1 n1]|] eqn:Ex; [|discriminate Hl].
            destruct ((fix loop (l : list obj) : option (nat * nat) :=
                         match l with
                         | [] => Some (O, O)
                         | x :: l' =>
                           match (if is_TextElement x then Some (O, O)
                                  else reentries d bundle cur ({[ident]} ∪ guarded) x),
                                 loop l' with
                           | Some (c1, n1), Some (c2, n2) =>
                             Some ((c1 + c2)%nat, S (n1 + n2))
                           | _, _ => None
                           end
                         end) l) as [[c2 n2]|] eqn:El; [|discriminate Hl].
            injection Hl as <- <-.
            destruct (IH bundle cur ({[ident]} ∪ guarded) x c1 n1 Ex
                        (set_part_count (part_count env0 + 1) env0))
              as (v & env2 & Hh & Hd & Hc2 & Hn2); try assumption.
            { env_simpl. lia. }
            pose proof (handle_frame _ _ _ _ _ Hh) as (Hfc & Hfk & Hfd & _).
            env_simpl.
            set (part := value_text (_babel_locale (context env0)) v).
            set (env3 := if MAX_PART_LENGTH <? Z.of_nat (length part)
                         then errors_append (TooManyCharacters (length part)) env2
                         else env2).
            assert (Hc3 : count_cyclic (errors env3) = count_cyclic (errors env2)).
            { unfold env3. destruct (MAX_PART_LENGTH <? Z.of_nat (length part));
                [|reflexivity].
              env_simpl. rewrite count_cyclic_app. cbn [count_cyclic]. lia. }
            assert (Hsame : context env3 = context env2 /\ current env3 = current env2 /\
                            dirty env3 = dirty env2 /\ part_count env3 = part_count env2).
            { unfold env3. destruct (MAX_PART_LENGTH <? Z.of_nat (length part));
                repeat split; reflexivity. }
            destruct Hsame as (Hs1 & Hs2 & Hs3 & Hs4).
            destruct (IHl c2 n2 (parts ++ element_parts iso part) env3 eq_refl)
              as (parts' & env' & Hp & Hc & Hn); try congruence.
            { rewrite Hs4, Hn2. env_simpl. lia. }
            exists parts', env'.
            rewrite pattern_loop_element by (lia || assumption).
            rewrite (fully_resolve_data (4 * d) x _ v env2 Hd Hh). env_simpl.
            fold part. fold env3. split; [exact Hp|].
            split; [rewrite Hc, Hc3, Hc2; env_simpl; lia|].
            rewrite Hn, Hs4, Hn2. env_simpl. lia. }
      destruct (Hloop elements c n [] (set_dirty ({[ident]} ∪ dirty env) env) Hre)
        as (parts' & env' & Hp & Hc & Hn); try assumption.
      { env_simpl. rewrite Hdirty. reflexivity. }
      rewrite Hp. do 2 eexists. split; [reflexivity|]. split; [reflexivity|].
      env_simpl. split; assumption.
  - (* Placeable *)
    eapply Hnested; eassumption.
  - (* StringLiteral *)
    injection Hre as <- <-. do 2 eexists. split; [reflexivity|].
    split; [reflexivity|]. split; [lia|]. cbn. lia.
  - (* NumberLiteral *)
    injection Hre as <- <-. do 2 eexists. split; [reflexivity|].
    split; [|split; [lia|cbn; lia]].
    destruct Hrt as [Hnum _]. specialize (Hnum value).
    destruct (numeric_to_native value); try discriminate Hnum; reflexivity.
  - (* Ref *)
    destruct r as [id|id|base name].
    + destruct (lookup_reference_referent (MessageReference id) env)
        as (env1 & Hl & Hc1 & Hk1 & Hd1 & Hn1 & Hcy1).
      rewrite Hl, Hctx.
      destruct (Hnested cur guarded _ c n env1 Hre) as (v & env' & Hh & Hd & Hc & Hn);
        try congruence.
      exists v, env'. split; [exact Hh|]. split; [exact Hd|].
      split; congruence.
    + unfold modified_for_term_reference, modified.
      destruct (lookup_reference_referent (TermReference id)
                  (set_current {| args := ∅; error_for_missing_arg := false |} env))
        as (env1 & Hl & Hc1 & Hk1 & Hd1 & Hn1 & Hcy1).
      env_simpl. rewrite Hl, Hctx.
      destruct (Hnested {| args := ∅; error_for_missing_arg := false |} guarded _ c n
                  env1 Hre) as (v & env' & Hh & Hd & Hc & Hn);
        try congruence.
      rewrite Hh. exists v, (set_current (current env) env').
      split; [reflexivity|]. split; [exact Hd|]. env_simpl. split; congruence.
    + destruct (lookup_reference_referent (AttributeExpression base name) env)
        as (env1 & Hl & Hc1 & Hk1 & Hd1 & Hn1 & Hcy1).
      rewrite Hl, Hctx.
      destruct (Hnested cur guarded _ c n env1 Hre) as (v & env' & Hh & Hd & Hc & Hn);
        try congruence.
      exists v, env'. split; [exact Hh|]. split; [exact Hd|].
      split; congruence.
  - (* VariableReference *)
    injection Hre as <- <-.
    destruct (handle_variable_reference_value name env)
      as (env1 & Hv & _ & _ & _ & Hn1 & Hcy1).
    rewrite Hv. do 2 eexists. split; [reflexivity|].
    split; [apply variable_value_data|]. split; [lia|]. cbn. lia.
  - (* SelectExpression *)
    destruct e; try discriminate Hre.
    destruct (forallb (fun v => is_Identifier (variant_key v)) variants &&
              is_plain_selector (variable_value cur name)) eqn:Hok;
      [|discriminate Hre].
    apply andb_true_iff in Hok. destruct Hok as [Hkeys Hplain].
    assert (Hall : Forall (fun v => is_Identifier (variant_key v) = true) variants).
    { apply Forall_forall. intros v Hv. rewrite forallb_forall in Hkeys.
      apply Hkeys, list_elem_of_In, Hv. }
    unfold handle_select_expression.
    change (3 + 4 * d)%nat with (S (2 + 4 * d)).
    rewrite handle_S. cbn [dispatch].
    destruct (handle_variable_reference_value name env)
      as (env1 & Hv & Hc1 & Hk1 & Hd1 & Hn1 & Hcy1).
    rewrite Hv, Hcur. unfold select_from_select_expression.
    destruct (select_expression_loop_find (2 + 4 * d) (variable_value cur name)
                variants Hplain Hall None env1) as (d0 & Hloop & Hd0).
    rewrite Hloop. rewrite Hc1, Hctx in *.
    unfold chosen_variant in Hre.
    destruct (List.find (selects bundle (variable_value cur name)) variants) as [v|].
    + destruct (Hnested cur guarded _ c n env1 Hre) as (r & env' & Hh & Hd & Hc & Hn);
        try congruence.
      exists r, env'. split; [exact Hh|]. split; [exact Hd|]. split; congruence.
    + rewrite (Hd0 eq_refl).
      destruct (last (List.filter variant_default variants)) as [v|].
      * destruct (Hnested cur guarded _ c n env1 Hre)
          as (r & env' & Hh & Hd & Hc & Hn); try congruence.
        exists r, env'. split; [exact Hh|]. split; [exact Hd|]. split; congruence.
      * injection Hre as <- <-. exists (FluentNone None), env1.
        split; [reflexivity|]. split; [reflexivity|].
        split; [lia|]. rewrite Hn1. cbn. lia.
Qed.

(** *** Where cyclic-reference diagnostics come from *)

Ltac quiet_call Hs :=
  match goal with
  | |- context [match ?f ?a ?e with Return _ _ => _ | Raise _ _ => _ | RecursionError => _ end] =>
    let E := fresh "E" in
    let Hx := fresh "Hx" in
    pose proof (Hs a e) as Hx;
    destruct (f a e) as [? ?|? ?|] eqn:E; [cbn [cyclic_is] in Hx|exact I|exact I]
  end.

Ltac count_solve :=
  cbn [cyclic_is guard_hit] in *; env_simpl; rewrite ?count_cyclic_app in *;
  cbn [count_cyclic] in *; first [lia | congruence].

Lemma cyclic_is_eq {A : Type} k k' (o : outcome A) :
  k = k' -> cyclic_is k' o -> cyclic_is k o.
Proof. intros ->. exact id. Qed.

Lemma pattern_loop_silent fr iso :
  silent fr ->
  forall elements parts env,
    cyclic_is (count_cyclic (errors env)) (pattern_loop fr iso elements parts env).
Proof.
  intros Hs elements.
  induction elements as [|element rest IH]; intros parts env; cbn [pattern_loop].
  - reflexivity.
  - destruct (MAX_PARTS <? part_count (set_part_count (part_count env + 1) env)).
    + destruct (_ =? _); [|reflexivity]. quiet_call Hs. count_solve.
    + destruct element;
        try exact (IH _ (set_part_count (part_count env + 1) env));
        quiet_call Hs; (eapply cyclic_is_eq; [|apply IH]);
        destruct (MAX_PART_LENGTH <? _); count_solve.
Qed.

Lemma handle_pattern_silent fr pattern elements env :
  silent fr ->
  cyclic_is (count_cyclic (errors env) + guard_hit (Pattern pattern elements) env)
    (handle_pattern fr pattern elements env).
Proof.
  intros Hs. unfold handle_pattern. cbn [guard_hit].
  destruct (bool_decide (pattern ∈ dirty env)); [count_solve|].
  pose proof (pattern_loop_silent fr
                (_use_isolating (context (set_dirty ({[pattern]} ∪ dirty env) env)) &&
                 (1 <? Z.of_nat (length elements))) Hs elements []
                (set_dirty ({[pattern]} ∪ dirty env) env)) as Hl.
  destruct (pattern_loop _ _ _ _ _) as [parts env1|e env1|]; [|exact I|exact I].
  destruct (bool_decide (pattern ∈ dirty env1)); [|exact I]. count_solve.
Qed.

Lemma variant_list_loop_silent h key :
  silent h ->
  forall variants default env,
    cyclic_is (count_cyclic (errors env))
      (variant_list_loop h key variants default env).
Proof.
  intros Hs variants.
  induction variants as [|v rest IH]; intros default env; cbn [variant_list_loop].
  - reflexivity.
  - destruct (variant_default v && is_None key); [reflexivity|].
    quiet_call Hs. destruct (match_ key a env0); [exact Hx|].
    eapply cyclic_is_eq; [|apply IH]. congruence.
Qed.

Lemma select_expression_loop_silent h key :
  silent h ->
  forall variants default env,
    cyclic_is (count_cyclic (errors env))
      (select_expression_loop h key variants default env).
Proof.
  intros Hs variants.
  induction variants as [|v rest IH]; intros default env; cbn [select_expression_loop].
  - reflexivity.
  - quiet_call Hs. destruct (match_ key a env0); [exact Hx|].
    eapply cyclic_is_eq; [|apply IH]. congruence.
Qed.

Lemma select_from_variant_list_silent h variants env key :
  silent h ->
  cyclic_is (count_cyclic (errors env)) (select_from_variant_list h variants env key).
Proof.
  intros Hs. unfold select_from_variant_list.
  pose proof (variant_list_loop_silent h key Hs variants None env) as Hl.
  destruct (variant_list_loop h key variants None env) as [[[v|] [d|]] env1|e env1|];
    try exact I; cbn [cyclic_is] in Hl;
    try (eapply cyclic_is_eq; [|apply Hs];
         destruct (negb (is_None_or_FluentNone key)); count_solve).
Qed.

Lemma select_from_select_expression_silent h variants env key :
  silent h ->
  cyclic_is (count_cyclic (errors env))
    (select_from_select_expression h variants env key).
Proof.
  intros Hs. unfold select_from_select_expression.
  pose proof (select_expression_loop_silent h key Hs variants None env) as Hl.
  destruct (select_expression_loop h key variants None env)
    as [[[v|] [d|]] env1|e env1|];
    try exact I; cbn [cyclic_is] in Hl;
    try (eapply cyclic_is_eq; [|apply Hs]; count_solve).
  count_solve.
Qed.

Lemma handle_positional_silent h :
  silent h -> silent (handle_positional h).
Proof.
  intros Hs positional.
  induction positional as [|arg rest IH]; intros env; cbn [handle_positional].
  - reflexivity.
  - quiet_call Hs. specialize (IH env0).
    destruct (handle_positional h rest env0); [|exact I|exact I]. count_solve.
Qed.

Lemma handle_named_silent h :
  silent h ->
  forall named kwargs env,
    cyclic_is (count_cyclic (errors env)) (handle_named h named kwargs env).
Proof.
  intros Hs named.
  induction named as [|[name value] rest IH]; intros kwargs env; cbn [handle_named].
  - reflexivity.
  - quiet_call Hs. eapply cyclic_is_eq; [|apply IH]. congruence.
Qed.

Lemma term_call_silent (h : obj -> ResolverEnvironment -> outcome obj)
    (kwargs : gmap text obj) (ref : reference) (positional : list obj)
    (env : ResolverEnvironment) :
  silent h ->
  cyclic_is (count_cyclic (errors env))
    (let '(term, env3) := lookup_reference ref env in
     modified_for_term_reference (Some kwargs) (h term)
       match positional with
       | [] => env3
       | _ :: _ =>
         errors_append (IgnoredPositionalArguments (reference_to_id ref)) env3
       end).
Proof.
  intros Hs.
  destruct (lookup_reference_referent ref env) as (env1 & Hl & _ & _ & _ & _ & Hcy).
  rewrite Hl. unfold modified_for_term_reference, modified.
  match goal with
  | |- context [h ?a ?e] =>
    pose proof (Hs a e) as Hx; destruct (h a e) as [v env'|ex env'|];
      [|exact I|exact I]
  end.
  destruct positional as [|arg positional]; count_solve.
Qed.

Lemma handle_call_expression_silent h callee positional named env :
  silent h ->
  cyclic_is (count_cyclic (errors env))
    (handle_call_expression h callee positional named env).
Proof.
  intros Hs. unfold handle_call_expression.
  pose proof (handle_positional_silent h Hs positional env) as Hp.
  destruct (handle_positional h positional env) as [vs env1|e env1|];
    [|exact I|exact I].
  pose proof (handle_named_silent h Hs named ∅ env1) as Hn.
  destruct (handle_named h named ∅ env1) as [kw env2|e env2|];
    [|exact I|exact I].
  cbn [cyclic_is] in Hp, Hn.
  destruct callee as [function_name|id|base name].
  - destruct (_functions (context env2) !! function_name) as [function|];
      [|count_solve].
    destruct (inspect_function_args function function_name) as [arg_spec ierrs].
    destruct (args_match function_name vs kw arg_spec) as [[[matched sa] sk] merrs].
    assert (Hfun : forall es : list opaque, count_cyclic (FunctionError <$> es) = O).
    { induction es as [|x es IHes]; [reflexivity|exact IHes]. }
    destruct matched; cbn [cyclic_is]; env_simpl; rewrite !count_cyclic_app, !Hfun; lia.
  - eapply cyclic_is_eq; [|apply (term_call_silent h kw (TermReference id) vs env2 Hs)].
    congruence.
  - eapply cyclic_is_eq;
      [|apply (term_call_silent h kw (AttributeExpression base name) vs env2 Hs)].
    congruence.
Qed.

Lemma dispatch_cyclic h fr :
  silent h -> silent fr ->
  forall expr env,
    cyclic_is (count_cyclic (errors env) + guard_hit expr env) (dispatch h fr expr env).
Proof.
  intros Hh Hfr expr env.
  assert (Hzero : forall (o : outcome obj),
            cyclic_is (count_cyclic (errors env)) o ->
            cyclic_is (count_cyclic (errors env) + O) o).
  { intros o Ho. eapply cyclic_is_eq; [|exact Ho]. lia. }
  unfold dispatch.
  destruct expr as [ | | | | | | | | | | | | | | | |[| |]| | | | | | ];
    try exact I; try (apply Hzero; apply Hh); try (apply Hzero; reflexivity).
  - apply handle_pattern_silent. exact Hfr.
  - apply Hzero.
    destruct (lookup_reference_referent (MessageReference id) env)
      as (env1 & Hl & _ & _ & _ & _ & Hcy).
    rewrite Hl. eapply cyclic_is_eq; [|apply Hh]. congruence.
  - apply Hzero. unfold modified_for_term_reference, modified.
    destruct (lookup_reference_referent (TermReference id)
                (set_current {| args := ∅; error_for_missing_arg := false |} env))
      as (env1 & Hl & _ & _ & _ & _ & Hcy).
    rewrite Hl.
    match goal with
    | |- context [h ?a ?e] =>
      pose proof (Hh a e) as Hx; destruct (h a e) as [v env'|ex env'|];
        [|exact I|exact I]
    end.
    count_solve.
  - apply Hzero.
    destruct (lookup_reference_referent (AttributeExpression ref name) env)
      as (env1 & Hl & _ & _ & _ & _ & Hcy).
    rewrite Hl. eapply cyclic_is_eq; [|apply Hh]. congruence.
  - apply Hzero.
    destruct (handle_variable_reference_value name env)
      as (env1 & Hv & _ & _ & _ & _ & Hcy).
    rewrite Hv. exact Hcy.
  - apply Hzero. apply select_from_variant_list_silent, Hh.
  - apply Hzero. unfold handle_select_expression. quiet_call Hh.
    eapply cyclic_is_eq; [|apply select_from_select_expression_silent, Hh]. congruence.
  - apply Hzero. unfold handle_variant_expression.
    destruct (lookup_reference_referent ref env) as (env1 & Hl & _ & _ & _ & _ & Hcy).
    rewrite Hl.
    destruct (is_FluentNone (referent (context env) ref)); [exact Hcy|].
    destruct (node_value (referent (context env) ref)) as [[]|]; try exact I.
    eapply cyclic_is_eq; [|apply select_from_variant_list_silent, Hh]. congruence.
  - apply Hzero. apply handle_call_expression_silent, Hh.
Qed.

(** C3 (amended): entering a pattern that is already being resolved
    appends one cyclic-reference diagnostic, returns a placeholder and leaves
    the guard set as it is; a pattern that is not being resolved is added to
    the guard set before its first element is processed, and when its loop
    ends, by exhaustion or by the part limit, the guard set is again what
    it was before; no returning call changes the guard set.  Nothing else
    appends a cyclic-reference diagnostic: one step of [handle] whose nested
    calls append none appends one exactly when it is such an entry.  So
    resolution records one cyclic-reference diagnostic per re-entry: when
    the message, followed through its patterns, its references to messages,
    terms and attributes and the variants its select expressions take,
    arrives [c] times at a pattern that is being resolved and visits no more
    elements than the part limit, [resolve] returns with [c] cyclic-reference
    diagnostics - one for a message that leads back to itself once, with
    whatever text around.  A message whose pattern is a single reference
    that leads back to it, directly or through further messages of that
    shape, resolves to the rendered placeholder with that one diagnostic
    only.  All of it under a recursion limit that the depth of the
    references fits in: under a smaller one the call ends in
    [RecursionError]. *)
Theorem cyclic_reference_guard :
  (forall fuel pattern elements env,
     pattern ∈ dirty env ->
     handle (S fuel) (Pattern pattern elements) env
     = Return (FluentNone None) (errors_append CyclicReference env)) /\
  (forall fuel pattern elements env,
     pattern ∉ dirty env ->
     handle (S fuel) (Pattern pattern elements) env
     = let! (parts, env1) :=
         pattern_loop (fully_resolve fuel)
           (_use_isolating (context env) && (1 <? Z.of_nat (length elements)))
           elements [] (set_dirty ({[pattern]} ∪ dirty env) env) in
       Return (Str (concat parts)) (set_dirty (dirty env) env1)) /\
  (forall fuel expr env v env',
     handle fuel expr env = Return v env' -> dirty env' = dirty env) /\
  (forall (h : obj -> ResolverEnvironment -> outcome obj)
          (fr : obj -> ResolverEnvironment -> outcome text) expr env v env',
     silent h -> silent fr ->
     dispatch h fr expr env = Return v env' ->
     count_cyclic (errors env')
     = (count_cyclic (errors env) + guard_hit expr env)%nat) /\
  (forall depth bundle external message c n,
     wf_runtime ->
     reentries depth bundle {| args := external; error_for_missing_arg := true |}
       ∅ message = Some (c, n) ->
     Z.of_nat n <= MAX_PARTS ->
     exists limit s errs env',
       (limit <= 3 + 4 * depth)%nat /\
       (forall k, (limit <= k)%nat ->
          resolve k bundle message external = Return (s, errs) env') /\
       (forall k, (k < limit)%nat ->
          resolve k bundle message external = RecursionError) /\
       count_cyclic errs = c) /\
  (forall bundle external first pattern0 rest,
     forwarding_chain (_messages_and_terms bundle) first ((first, pattern0) :: rest) ->
     NoDup ((first, pattern0) :: rest).*2 ->
     Z.of_nat (length rest) + 1 <= MAX_PARTS ->
     Z.of_nat (length (FluentNone_format None (_babel_locale bundle)))
       <= MAX_PART_LENGTH ->
     exists limit env',
       (limit <= 8 + 5 * length rest)%nat /\
       (forall k, (limit <= k)%nat ->
          resolve k bundle (forwarding pattern0 (next_in_chain first rest)) external
          = Return (FluentNone_format None (_babel_locale bundle), [CyclicReference])
              env') /\
       (forall k, (k < limit)%nat ->
          resolve k bundle (forwarding pattern0 (next_in_chain first rest)) external
          = RecursionError)).
Proof.
  split; [|split; [|split; [|split; [|split]]]].
  - intros fuel pattern elements env Hin. rewrite handle_S. cbn [dispatch].
    unfold handle_pattern. rewrite bool_decide_eq_true_2 by assumption. reflexivity.
  - intros fuel pattern elements env Hfresh. rewrite handle_S. cbn [dispatch].
    apply handle_pattern_fresh; [apply fully_resolve_frame|assumption].
  - intros fuel expr env v env' Hh. apply handle_frame in Hh.
    destruct Hh as (_ & _ & Hd & _). exact Hd.
  - intros h fr expr env v env' Hh Hfr Hd.
    pose proof (dispatch_cyclic h fr Hh Hfr expr env) as Hc.
    rewrite Hd in Hc. exact Hc.
  - intros depth bundle external message c n Hrt Hre Hn.
    set (env0 := initial_environment bundle external).
    destruct (reentries_sound depth Hrt bundle _ ∅ message c n Hre env0)
      as (v & env' & Hh & Hd & Hc & _); try reflexivity.
    { subst env0. env_simpl. lia. }
    pose proof (fully_resolve_data _ _ _ _ _ Hd Hh) as Hf.
    assert (Hrun : resolve (3 + 4 * depth) bundle message external
                   = Return (value_text (_babel_locale (context env0)) v, errors env')
                       env').
    { unfold resolve. fold env0. rewrite Hf. reflexivity. }
    destruct (resolve_threshold _ _ _ _ _ _ Hrun) as (limit & Hle & Hup & Hdown).
    exists limit. do 3 eexists. split; [exact Hle|]. split; [exact Hup|].
    split; [exact Hdown|]. rewrite Hc. reflexivity.
  - intros bundle external first pattern0 rest Hchain Hnodup Hcount Hlen.
    destruct (forwarding_cycle_resolves bundle external first pattern0 rest
                Hchain Hnodup Hcount Hlen) as (env' & Hrun).
    destruct (resolve_threshold _ _ _ _ _ _ Hrun) as (limit & Hle & Hup & Hdown).
    exists limit, env'. split; [exact Hle|]. split; assumption.
Qed.

End Further.

(** ** Concrete runs *)

(** C1 (as stated): [about = About { -brand[short] }] with
    [-brand = Firefox].  Every entry has a body, and [resolve] raises: the
    assertion of [handle_variant_expression] fails because the term's value
    is a pattern, not a variant list. *)
Lemma resolve_raises_assertion_error :
  Demo.about = Message (Pattern 2
                 [TextElement (Demo.txt "About ");
                  Placeable (VariantExpression (TermReference (Demo.txt "brand"))
                                               (Demo.txt "short"))]) /\
  _messages_and_terms Demo.about_bundle !! Demo.txt "-brand"
    = Some (Term (Pattern 1 [TextElement (Demo.txt "Firefox")])) /\
  forall n, (6 <= n)%nat ->
    exists env', @resolve Demo.runtime n Demo.about_bundle Demo.about ∅
                 = Raise AssertionError env'.
Proof.
  split; [reflexivity|]. split; [vm_compute; reflexivity|].
  intros n Hn. eexists. unfold resolve.
  rewrite (@fully_resolve_fuel_mono Demo.runtime 6 n) by (assumption || (vm_compute; discriminate)).
  vm_compute. reflexivity.
Qed.

(** C3 (as stated): [loop = { loop }{ loop }] references itself and
    records two cyclic-reference diagnostics, not one. *)
Lemma self_reference_twice_reports_twice :
  exists env',
    (forall n, (8 <= n)%nat ->
       @resolve Demo.runtime n Demo.twice_bundle Demo.twice ∅
       = Return (Demo.txt "??????", [CyclicReference; CyclicReference]) env') /\
    count_cyclic (errors env') = 2%nat.
Proof.
  eexists. split.
  - intros n Hn. unfold resolve.
    rewrite (@fully_resolve_fuel_mono Demo.runtime 8 n)
      by (assumption || (vm_compute; discriminate)).
    vm_compute. reflexivity.
  - vm_compute. reflexivity.
Qed.

(** C2: [{ -wrapped }] with [-wrapped = { -brand[short] }] and
    [-brand = Firefox].  The assertion fails inside the [with] block of
    [handle_term_reference]; the exception leaves with the replacement
    bindings (no arguments, flag cleared) still installed, not with the
    caller's bindings. *)
Theorem term_reference_raise_keeps_replacement :
  let env0 := initial_environment Demo.wrapped_bundle {[ Demo.txt "n" := Int 1 ]} in
  (exists env',
     @handle Demo.runtime 8 (Ref (TermReference (Demo.txt "wrapped"))) env0
     = Raise AssertionError env' /\
     current env0 = {| args := {[ Demo.txt "n" := Int 1 ]};
                       error_for_missing_arg := true |} /\
     current env' = {| args := ∅; error_for_missing_arg := false |}) /\
  (forall (R : Runtime) (kwargs : gmap text obj) (e : exn) env,
     @modified_for_term_reference obj (Some kwargs) (fun env1 => Raise e env1) env
     = Raise e (set_current {| args := kwargs; error_for_missing_arg := false |} env)) /\
  (forall (R : Runtime) (kwargs : gmap text obj) (v : obj) env,
     @modified_for_term_reference obj (Some kwargs) (fun env1 => Return v env1) env
     = Return v (set_current (current env)
                   (set_current {| args := kwargs; error_for_missing_arg := false |}
                      env))).
Proof.
  split; [|split; reflexivity].
  eexists. split; [vm_compute; reflexivity|]. split; reflexivity.
Qed.

(** C4: [{ -brand[genitive] }] where the variant list of [-brand] has one
    variant, [nominative], not flagged default.  No key matches and there is
    no default: [select_from_variant_list] reads its local [default], which
    was never assigned, and raises; the select expression with the same
    variants returns the placeholder. *)
Theorem variant_list_without_default_raises :
  (exists env',
     @resolve Demo.runtime 10 Demo.no_default_bundle Demo.genitive ∅
     = Raise UnboundLocalError env') /\
  (forall (R : Runtime) h env key,
     @select_from_variant_list R h [] env key
     = Raise UnboundLocalError
         (if negb (is_None_or_FluentNone key)
          then errors_append (UnknownVariant key) env else env)) /\
  (forall (R : Runtime) h env key,
     @select_from_select_expression R h [] env key
     = Return (FluentNone None) env).
Proof.
  split; [eexists; vm_compute; reflexivity|]. split; reflexivity.
Qed.

(** ** The theorems at concrete inputs *)

Lemma demo_runtime_ok : @wf_runtime Demo.runtime.
Proof.
  split.
  - intros value. cbn. unfold Demo.parse_number.
    destruct (existsb (N.eqb 46) value); [reflexivity|].
    destruct value as [|c rest]; [reflexivity|].
    destruct (c =? 45)%N; reflexivity.
  - intros function positional named. reflexivity.
Qed.

(** A text element of 3000 characters, with isolation requested. *)
Lemma text_element_appended_verbatim_witness :
  let env := initial_environment (Demo.bundle []) ∅ in
  pattern_loop (@fully_resolve Demo.runtime 0) true [TextElement Demo.long_text] [] env
  = pattern_loop (@fully_resolve Demo.runtime 0) true [] ([] ++ [Demo.long_text])
      (set_part_count (part_count env + 1) env) /\
  @handle Demo.runtime 1
    (Pattern 7 (TextElement <$> [Demo.long_text; Demo.txt "!"])) env
  = Return (Str (concat [Demo.long_text; Demo.txt "!"]))
      (set_part_count
         (part_count env + Z.of_nat (length [Demo.long_text; Demo.txt "!"])) env).
Proof.
  intros env.
  destruct (@text_element_appended_verbatim Demo.runtime
              (@fully_resolve Demo.runtime 0) true Demo.long_text [] [] env
              0%nat 7%nat [Demo.long_text; Demo.txt "!"]) as [H1 H2].
  split.
  - apply H1. vm_compute. discriminate.
  - apply H2; [apply not_elem_of_empty|vm_compute; discriminate].
Defined.

(** [{ $x }] with [x] bound to a text of 3000 characters, alone and between
    two text elements. *)
Lemma long_part_truncated_witness :
  let element := Placeable (VariableReference (Demo.txt "x")) in
  let env := initial_environment (Demo.bundle []) Demo.long_args in
  let kept := take (Z.to_nat MAX_PART_LENGTH) Demo.long_text in
  Z.of_nat (length kept) = MAX_PART_LENGTH /\
  (exists env',
     pattern_loop (@fully_resolve Demo.runtime 3) true [element] [] env
     = Return [FSI; kept; PDI] env' /\
     errors env' = [TooManyCharacters (length Demo.long_text)]) /\
  (exists env',
     @handle Demo.runtime 4
       (Pattern 9 [TextElement (Demo.txt "<"); element; TextElement (Demo.txt ">")]) env
     = Return (Str (Demo.txt "<" ++ kept ++ Demo.txt ">")) env' /\
     errors env' = [TooManyCharacters (length Demo.long_text)]).
Proof.
  intros element env kept.
  assert (Htext : is_TextElement element = false) by reflexivity.
  assert (Hlong : MAX_PART_LENGTH < Z.of_nat (length Demo.long_text))
    by (vm_compute; reflexivity).
  split; [|split].
  - exact (proj1 (@long_part_truncated Demo.runtime 3 true element [] [] env
                    Demo.long_text (set_part_count 1 env) 9%nat [] [] Htext Hlong)).
  - eexists. split.
    + etransitivity.
      * apply (proj1 (proj2 (@long_part_truncated Demo.runtime 3 true element [] [] env
                               Demo.long_text (set_part_count 1 env) 9%nat [] []
                               Htext Hlong))).
        -- vm_compute. discriminate.
        -- vm_compute. reflexivity.
      * vm_compute. reflexivity.
    + vm_compute. reflexivity.
  - eexists. split.
    + etransitivity.
      * apply (proj2 (proj2 (@long_part_truncated Demo.runtime 3 true element [] [] env
                               Demo.long_text
                               (set_part_count 2 (set_dirty ({[9%nat]} ∪ ∅) env))
                               9%nat [Demo.txt "<"] [Demo.txt ">"] Htext Hlong))).
        -- apply not_elem_of_empty.
        -- vm_compute. discriminate.
        -- vm_compute. reflexivity.
        -- vm_compute. discriminate.
      * vm_compute. reflexivity.
    + vm_compute. reflexivity.
Defined.

(** [hello.title] falls back to [hello]; [-brand.gender] finds neither. *)
Lemma attribute_lookup_falls_back_witness :
  let env := initial_environment Demo.hello_bundle ∅ in
  @lookup_reference Demo.runtime Demo.hello_title env
  = (Message (Pattern 10 [TextElement (Demo.txt "Hello")]),
     errors_append (UnknownReference (Demo.txt "hello.title")) env) /\
  @lookup_reference Demo.runtime
    (AttributeExpression (TermReference (Demo.txt "brand")) (Demo.txt "gender")) env
  = (FluentNone (Some (Demo.txt "-brand.gender")),
     errors_append (UnknownReference (Demo.txt "-brand.gender")) env).
Proof.
  intros env. split.
  - etransitivity.
    + apply (@attribute_lookup_falls_back Demo.runtime
               (MessageReference (Demo.txt "hello")) (Demo.txt "title") env).
      vm_compute. reflexivity.
    + vm_compute. reflexivity.
  - etransitivity.
    + apply (@attribute_lookup_falls_back Demo.runtime
               (TermReference (Demo.txt "brand")) (Demo.txt "gender") env).
      vm_compute. reflexivity.
    + vm_compute. reflexivity.
Defined.

(** Selector [5] against the variants [[5]] and [*[other]]. *)
Lemma match_follows_specification_witness :
  let env := initial_environment (Demo.bundle []) ∅ in
  let five := Pattern 20 [TextElement (Demo.txt "five")] in
  let many := Pattern 21 [TextElement (Demo.txt "many")] in
  @match_ Demo.runtime (Str (Demo.txt "other")) (Int 5) env
  = @match_ Demo.runtime (Int 5) (Str (Demo.txt "other")) env /\
  @match_ Demo.runtime (FluentNone None) (Int 5) env = false /\
  forall fuel,
    @handle Demo.runtime (S (S fuel))
      (SelectExpression (NumberLiteral (Demo.txt "5"))
         [Variant (NumberLiteral (Demo.txt "5")) five false;
          Variant (Identifier (Demo.txt "other")) many true]) env
    = @handle Demo.runtime (S fuel) five env.
Proof.
  intros env five many.
  destruct (@match_follows_specification Demo.runtime (Demo.txt "5") 5 five many
              (Demo.txt "other")) as (_ & H2 & H3 & H4).
  split; [|split].
  - apply H2; reflexivity.
  - apply H3. left. reflexivity.
  - intros fuel. apply H4. reflexivity.
Defined.

(** [{ $name }] in a message, and in the term [-thing] called with another
    argument. *)
Lemma missing_variable_placeholder_witness :
  let name := Demo.txt "name" in
  let message := Message (Pattern 30 [Placeable (VariableReference name)]) in
  let call := CallExpression (TermReference (Demo.txt "thing")) []
                [(Demo.txt "other", StringLiteral (Demo.txt "v"))] in
  let env0 := initial_environment Demo.thing_bundle ∅ in
  @handle_variable_reference name env0
  = (FluentNone (Some name), errors_append (UnknownExternal name) env0) /\
  (exists env',
     @resolve Demo.runtime 6 Demo.thing_bundle message ∅
     = Return (name, [UnknownExternal name]) env') /\
  @handle Demo.runtime 7 call env0
  = Return (Str name) (set_part_count 1 env0).
Proof.
  intros name message call env0.
  destruct (@missing_variable_placeholder Demo.runtime name)
    as (H1 & _ & _ & H4 & H5).
  split; [|split].
  - apply (H1 env0). vm_compute. reflexivity.
  - apply (H4 0%nat Demo.thing_bundle ∅ 30%nat).
    + vm_compute. reflexivity.
    + vm_compute. discriminate.
  - apply (H5 0%nat Demo.thing_bundle ∅ 11%nat (Demo.txt "thing")
              [(Demo.txt "other", StringLiteral (Demo.txt "v"))]
              {[ Demo.txt "other" := Str (Demo.txt "v") ]} env0).
    + vm_compute. reflexivity.
    + vm_compute. reflexivity.
    + vm_compute. reflexivity.
    + vm_compute. reflexivity.
    + vm_compute. discriminate.
Defined.

(** Loops at and past the ceiling, 1001 text elements, and 1000 placeables
    followed by one more element. *)
Lemma too_many_parts_reported_once_witness :
  let env0 := initial_environment (Demo.bundle []) ∅ in
  let at_limit := set_part_count MAX_PARTS env0 in
  let past_limit := set_part_count (MAX_PARTS + 5) env0 in
  let element := Placeable (StringLiteral (Demo.txt "b")) in
  pattern_loop (@fully_resolve Demo.runtime 2) false [element; element] [] at_limit
  = Return ([] ++ [Demo.txt "???"])
      (errors_append TooManyParts (set_part_count (MAX_PARTS + 1) at_limit)) /\
  pattern_loop (@fully_resolve Demo.runtime 2) false [element; element] [] past_limit
  = Return [] (set_part_count (part_count past_limit + 1) past_limit) /\
  (exists parts env',
     pattern_loop (@fully_resolve Demo.runtime 3) false [element] [] env0
     = Return parts env' /\ part_count env' = 1) /\
  pattern_loop (@fully_resolve Demo.runtime 0) false [TextElement (Demo.txt "a")] [] env0
  = pattern_loop (@fully_resolve Demo.runtime 0) false [] ([] ++ [Demo.txt "a"])
      (set_part_count (part_count env0 + 1) env0) /\
  (part_count env0 <= part_count env0 /\
   exists es, errors env0 = errors env0 ++ es /\
              count_too_many_parts es
              = crossing (part_count env0) (part_count env0)) /\
  (exists errs env',
     @resolve Demo.runtime 5 (Demo.bundle [])
       (Message (Pattern 1 (TextElement <$> Demo.many_texts))) ∅
     = Return (concat (take (Z.to_nat MAX_PARTS) Demo.many_texts) ++ Demo.txt "???", errs)
         env' /\
     count_too_many_parts errs
     = if MAX_PARTS <? part_count env' then 1%nat else 0%nat) /\
  (exists s errs env',
     @resolve Demo.runtime 6 (Demo.bundle [])
       (Message (Pattern 2 (Demo.many_placeables ++ [TextElement (Demo.txt "last")]))) ∅
     = Return (s, errs) env' /\
     count_too_many_parts errs = 1%nat).
Proof.
  intros env0 at_limit past_limit element.
  destruct (@too_many_parts_reported_once Demo.runtime)
    as (H1 & H2 & H3 & H3' & H4 & H5 & H6 & H7).
  split; [|split; [|split; [|split; [|split; [|split]]]]].
  - apply (H1 0%nat false element [element] [] at_limit). reflexivity.
  - apply (H2 (@fully_resolve Demo.runtime 2) false element [element] [] past_limit).
    vm_compute. reflexivity.
  - do 2 eexists. split.
    + etransitivity.
      * apply (H3 (@fully_resolve Demo.runtime 3) false element [] [] env0).
        -- vm_compute. reflexivity.
        -- reflexivity.
      * vm_compute. reflexivity.
    + vm_compute. reflexivity.
  - apply (H3' (@fully_resolve Demo.runtime 0) false (Demo.txt "a") [] [] env0).
    vm_compute. reflexivity.
  - apply (H4 1%nat (TextElement (Demo.txt "a")) env0 (Str (Demo.txt "a")) env0).
    reflexivity.
  - destruct (H6 0%nat (Demo.bundle []) 1%nat Demo.many_texts ∅) as [env' Hrun].
    + vm_compute. reflexivity.
    + exists [TooManyParts], env'. split; [exact Hrun|].
      apply (H5 _ _ _ _ _ _ _ Hrun).
  - assert (Hrun : exists r env',
              @resolve Demo.runtime 6 (Demo.bundle [])
                (Message (Pattern 2 (Demo.many_placeables ++
                                     [TextElement (Demo.txt "last")]))) ∅
              = Return r env')
      by (do 2 eexists; vm_compute; reflexivity).
    destruct Hrun as ([s errs] & env' & Hrun).
    exists s, errs, env'. split; [exact Hrun|].
    apply (proj2 (H7 6%nat (Demo.bundle []) 2%nat Demo.many_placeables
                    (TextElement (Demo.txt "last")) (TextElement (Demo.txt "other")) ∅
                    ltac:(vm_compute; reflexivity)) s errs env' Hrun).
Defined.

(** [ping = { pong }] and [pong = { ping }]; [echo = x{ echo }]; [near]
    through the term [-far]; [pick] through the variant its selector takes;
    [loop = { loop }{ loop }]. *)
Lemma cyclic_reference_guard_witness :
  let env0 := initial_environment Demo.ping_pong_bundle ∅ in
  let busy := set_dirty {[13%nat]} env0 in
  let body := [Placeable (Ref (MessageReference (Demo.txt "pong")))] in
  let counts (message : obj) (external : gmap text obj) (c : nat) :=
    exists limit s errs env',
      (limit <= 43)%nat /\
      (forall k, (limit <= k)%nat ->
         @resolve Demo.runtime k Demo.cycles_bundle message external
         = Return (s, errs) env') /\
      (forall k, (k < limit)%nat ->
         @resolve Demo.runtime k Demo.cycles_bundle message external
         = RecursionError) /\
      count_cyclic errs = c in
  @handle Demo.runtime 1 (Pattern 13 body) busy
  = Return (FluentNone None) (errors_append CyclicReference busy) /\
  (exists env',
     @handle Demo.runtime 1 (Pattern 40 [TextElement (Demo.txt "a")]) env0
     = Return (Str (Demo.txt "a")) env' /\ dirty env' = dirty env0) /\
  (exists env',
     @handle Demo.runtime 1 (Pattern 13 body) busy = Return (FluentNone None) env' /\
     count_cyclic (errors env') = (count_cyclic (errors busy) + 1)%nat) /\
  counts Demo.echo ∅ 1%nat /\
  counts Demo.near ∅ 1%nat /\
  counts Demo.pick Demo.kind_args 1%nat /\
  counts Demo.pick Demo.count_args 0%nat /\
  counts Demo.twice ∅ 2%nat /\
  (exists limit env',
     (limit <= 13)%nat /\
     (forall k, (limit <= k)%nat ->
        @resolve Demo.runtime k Demo.ping_pong_bundle
          (forwarding 13 (Demo.txt "pong")) ∅
        = Return (Demo.txt "???", [CyclicReference]) env') /\
     (forall k, (k < limit)%nat ->
        @resolve Demo.runtime k Demo.ping_pong_bundle
          (forwarding 13 (Demo.txt "pong")) ∅
        = RecursionError)).
Proof.
  intros env0 busy body counts.
  destruct (@cyclic_reference_guard Demo.runtime) as (H1 & H2 & H3 & H4 & H5 & H6).
  assert (Hbusy : 13%nat ∈ dirty busy).
  { change (13%nat ∈ ({[13%nat]} : gset nat)). apply elem_of_singleton_2. reflexivity. }
  assert (Hcounts : forall message external c n,
            @reentries Demo.runtime 10 Demo.cycles_bundle
              {| args := external; error_for_missing_arg := true |} ∅ message
            = Some (c, n) ->
            Z.of_nat n <= MAX_PARTS ->
            counts message external c).
  { intros message external c n Hre Hn.
    exact (H5 10%nat Demo.cycles_bundle external message c n demo_runtime_ok Hre Hn). }
  split; [|split; [|split; [|split; [|split; [|split; [|split; [|split]]]]]]].
  - apply (H1 0%nat 13%nat body busy Hbusy).
  - assert (Hrun : exists env',
              @handle Demo.runtime 1 (Pattern 40 [TextElement (Demo.txt "a")]) env0
              = Return (Str (Demo.txt "a")) env').
    { eexists. etransitivity.
      - apply (H2 0%nat 40%nat [TextElement (Demo.txt "a")] env0).
        apply not_elem_of_empty.
      - vm_compute. reflexivity. }
    destruct Hrun as [env' Hrun]. exists env'. split; [exact Hrun|].
    apply (H3 _ _ _ _ _ Hrun).
  - exists (errors_append CyclicReference busy).
    split; [apply (H1 0%nat 13%nat body busy Hbusy)|].
    etransitivity.
    + apply (H4 (fun _ _ => RecursionError) (fun _ _ => RecursionError)
               (Pattern 13 body) busy (FluentNone None)).
      * intros a e. exact I.
      * intros a e. exact I.
      * vm_compute. reflexivity.
    + vm_compute. reflexivity.
  - apply (Hcounts Demo.echo ∅ 1%nat 2%nat);
      [vm_compute; reflexivity|vm_compute; discriminate].
  - apply (Hcounts Demo.near ∅ 1%nat 2%nat);
      [vm_compute; reflexivity|vm_compute; discriminate].
  - apply (Hcounts Demo.pick Demo.kind_args 1%nat 2%nat);
      [vm_compute; reflexivity|vm_compute; discriminate].
  - apply (Hcounts Demo.pick Demo.count_args 0%nat 2%nat);
      [vm_compute; reflexivity|vm_compute; discriminate].
  - apply (Hcounts Demo.twice ∅ 2%nat 2%nat);
      [vm_compute; reflexivity|vm_compute; discriminate].
  - apply (H6 Demo.ping_pong_bundle ∅ (Demo.txt "ping") 13%nat
              [(Demo.txt "pong", 14%nat)]).
    + cbn [forwarding_chain next_in_chain]. repeat split; vm_compute; reflexivity.
    + apply (bool_decide_unpack _). vm_compute. exact I.
    + vm_compute. discriminate.
    + vm_compute. discriminate.
Defined.

(** A message with an argument of an unsupported type, an unknown reference
    and an unknown variant key, in a bundle that also registers a message
    without a body, which the message does not reach. *)
Lemma resolve_returns_on_well_formed_input_witness :
  exists depth s errs env',
    (forall limit, (depth <= limit)%nat ->
       @resolve Demo.runtime limit Demo.partial_bundle Demo.welcome Demo.odd_args
       = Return (s, errs) env') /\
    (forall limit, (limit < depth)%nat ->
       @resolve Demo.runtime limit Demo.partial_bundle Demo.welcome Demo.odd_args
       = RecursionError).
Proof.
  apply (proj1 (@resolve_returns_on_well_formed_input Demo.runtime
                  Demo.partial_bundle Demo.welcome Demo.odd_args)).
  - apply (reach_check_sound _ _ [Demo.txt "missing"; Demo.txt "-brand"]).
    vm_compute. reflexivity.
  - exact demo_runtime_ok.
  - vm_compute. reflexivity.
Defined.

(** ** The further properties at concrete inputs *)

(** [{ 5 }]: the literal denotes the number 5, rendered by the locale. *)
Lemma fully_resolve_formats_handled_value_witness :
  let env := initial_environment (Demo.bundle []) ∅ in
  let expr := Placeable (NumberLiteral (Demo.txt "5")) in
  is_data (Int 5) = true /\
  @fully_resolve Demo.runtime 6 expr env = Return (Demo.txt "#") env.
Proof.
  intros env expr.
  apply (@fully_resolve_formats_handled_value Demo.runtime 3 expr env (Int 5) env).
  - exact demo_runtime_ok.
  - vm_compute. reflexivity.
Defined.

(** A reference to [-thing = { $name }] from an environment that binds
    [name]. *)
Lemma returning_call_keeps_bindings_witness :
  let env0 := initial_environment Demo.thing_bundle Demo.name_args in
  let env' := set_part_count 1 env0 in
  @handle Demo.runtime 8 (Ref (TermReference (Demo.txt "thing"))) env0
  = Return (Str (Demo.txt "name")) env' /\
  current env' = current env0 /\ context env' = context env0 /\
  dirty env' = dirty env0 /\ part_count env0 <= part_count env' /\
  errors env0 `prefix_of` errors env'.
Proof.
  intros env0 env'.
  assert (Hrun : @handle Demo.runtime 8 (Ref (TermReference (Demo.txt "thing"))) env0
                 = Return (Str (Demo.txt "name")) env')
    by (vm_compute; reflexivity).
  split; [exact Hrun|].
  exact (proj1 (@returning_call_keeps_bindings Demo.runtime 8
                  (Ref (TermReference (Demo.txt "thing"))) env0) _ _ Hrun).
Defined.

(** [{ UPPER() }] in a bundle without functions. *)
Lemma unknown_function_placeholder_witness :
  let name := Demo.txt "UPPER" in
  exists env',
    @resolve Demo.runtime 6 (Demo.bundle [])
      (Message (Pattern 31 [Placeable (CallExpression (MessageReference name) [] [])]))
      ∅
    = Return (Demo.txt "UPPER()", [UnknownFunction name]) env'.
Proof.
  intros name.
  apply (proj2 (@unknown_function_placeholder Demo.runtime 0 name)
           (Demo.bundle []) ∅ 31%nat).
  - vm_compute. reflexivity.
  - vm_compute. discriminate.
Defined.

(** [Hi { "x" }] and [{ "x" }] in a bundle that asks for isolation. *)
Lemma isolation_marks_policy_witness :
  let env := initial_environment Demo.isolating_bundle ∅ in
  let element := Placeable (StringLiteral (Demo.txt "x")) in
  @handle Demo.runtime 5 (Pattern 32 [TextElement (Demo.txt "Hi "); element]) env
  = Return (Str (Demo.txt "Hi " ++ FSI ++ Demo.txt "x" ++ PDI)) (set_part_count 2 env) /\
  @handle Demo.runtime 5 (Pattern 32 [element]) env
  = Return (Str (Demo.txt "x")) (set_part_count 1 env).
Proof.
  intros env element. split.
  - etransitivity.
    + apply (@isolation_marks_policy Demo.runtime 4 element env (Demo.txt "x")
               (set_part_count 2 (set_dirty ({[32%nat]} ∪ ∅) env))
               32%nat [Demo.txt "Hi "] []).
      * reflexivity.
      * vm_compute. discriminate.
      * apply not_elem_of_empty.
      * vm_compute. discriminate.
      * vm_compute. reflexivity.
      * vm_compute. discriminate.
    + vm_compute. reflexivity.
  - etransitivity.
    + apply (@isolation_marks_policy Demo.runtime 4 element env (Demo.txt "x")
               (set_part_count 1 (set_dirty ({[32%nat]} ∪ ∅) env))
               32%nat [] []).
      * reflexivity.
      * vm_compute. discriminate.
      * apply not_elem_of_empty.
      * vm_compute. discriminate.
      * vm_compute. reflexivity.
      * vm_compute. discriminate.
    + vm_compute. reflexivity.
Defined.

(** [{ $n -> [one] item *[other] items }] with [n] bound to 3, whose plural
    category is [other], and with [n] bound to the text [one]. *)
Lemma select_expression_chooses_variant_witness :
  let select := SelectExpression (VariableReference (Demo.txt "n"))
                  Demo.plural_variants in
  let counted := initial_environment (Demo.bundle []) Demo.count_args in
  let named := initial_environment (Demo.bundle []) Demo.kind_args in
  @handle Demo.runtime 3 select counted
  = @handle Demo.runtime 2 (Pattern 41 [TextElement (Demo.txt "items")]) counted /\
  @handle Demo.runtime 3 select named
  = @handle Demo.runtime 2 (Pattern 40 [TextElement (Demo.txt "item")]) named.
Proof.
  intros select counted named. split.
  - apply (@select_expression_chooses_variant Demo.runtime 1
             (VariableReference (Demo.txt "n")) Demo.plural_variants counted
             (Int 3) counted).
    + vm_compute. reflexivity.
    + reflexivity.
    + repeat constructor.
  - apply (@select_expression_chooses_variant Demo.runtime 1
             (VariableReference (Demo.txt "n")) Demo.plural_variants named
             (Str (Demo.txt "one")) named).
    + vm_compute. reflexivity.
    + reflexivity.
    + repeat constructor.
Defined.

(** The variant list [*[nominative] Firefox [genitive] Firefoxa]. *)
Lemma variant_list_takes_first_default_witness :
  let env := initial_environment (Demo.bundle []) ∅ in
  @handle Demo.runtime 3 (VariantList Demo.cases_variants) env
  = @handle Demo.runtime 2 (Pattern 15 [TextElement (Demo.txt "Firefox")]) env.
Proof.
  intros env.
  apply (@variant_list_takes_first_default Demo.runtime 1 Demo.cases_variants env
           (Variant (Identifier (Demo.txt "nominative"))
                    (Pattern 15 [TextElement (Demo.txt "Firefox")]) true)).
  - repeat constructor.
  - reflexivity.
Defined.

(** [-brand[genitive]] and [-brand[locative]] on the term [cases]. *)
Lemma variant_expression_chooses_variant_witness :
  let env := initial_environment Demo.sound_bundle ∅ in
  let brand := TermReference (Demo.txt "brand") in
  @handle Demo.runtime 3 (VariantExpression brand (Demo.txt "genitive")) env
  = @handle Demo.runtime 2 (Pattern 16 [TextElement (Demo.txt "Firefoxa")]) env /\
  @handle Demo.runtime 3 (VariantExpression brand (Demo.txt "locative")) env
  = @handle Demo.runtime 2 (Pattern 15 [TextElement (Demo.txt "Firefox")])
      (errors_append (UnknownVariant (Str (Demo.txt "locative"))) env).
Proof.
  intros env brand. split.
  - apply (@variant_expression_chooses_variant Demo.runtime 1 brand
             (Demo.txt "genitive") Demo.cases Demo.cases_variants env
             (Variant (Identifier (Demo.txt "nominative"))
                      (Pattern 15 [TextElement (Demo.txt "Firefox")]) true)).
    + vm_compute. reflexivity.
    + reflexivity.
    + repeat constructor.
    + reflexivity.
  - apply (@variant_expression_chooses_variant Demo.runtime 1 brand
             (Demo.txt "locative") Demo.cases Demo.cases_variants env
             (Variant (Identifier (Demo.txt "nominative"))
                      (Pattern 15 [TextElement (Demo.txt "Firefox")]) true)).
    + vm_compute. reflexivity.
    + reflexivity.
    + repeat constructor.
    + reflexivity.
Defined.

(** [{ -thing }] with [-thing = { $name }], from an environment that binds
    [name]. *)
Lemma term_reference_hides_variables_witness :
  let env0 := initial_environment Demo.thing_bundle Demo.name_args in
  args (current env0) !! Demo.txt "name" = Some (Str (Demo.txt "x")) /\
  @handle Demo.runtime 8 (Ref (TermReference (Demo.txt "thing"))) env0
  = Return (Str (Demo.txt "name")) (set_part_count 1 env0).
Proof.
  intros env0. split; [vm_compute; reflexivity|].
  apply (@term_reference_hides_variables Demo.runtime 0 (Demo.txt "thing")
           (Demo.txt "name") 11%nat env0).
  - vm_compute. reflexivity.
  - apply not_elem_of_empty.
  - vm_compute. discriminate.
  - vm_compute. discriminate.
Defined.

(** [{ missing }] and [{ -missing }] where nothing is registered under these
    names, and [{ empty }] where [empty] has no body. *)
Lemma unknown_reference_placeholder_witness :
  let env := initial_environment Demo.hello_bundle ∅ in
  let bare := initial_environment Demo.bodiless_bundle ∅ in
  @handle Demo.runtime 2 (Ref (MessageReference (Demo.txt "missing"))) env
  = Return (Str (Demo.txt "missing"))
      (errors_append (UnknownReference (Demo.txt "missing")) env) /\
  @handle Demo.runtime 2 (Ref (TermReference (Demo.txt "missing"))) env
  = Return (Str (Demo.txt "-missing"))
      (errors_append (UnknownReference (Demo.txt "-missing")) env) /\
  @handle Demo.runtime 3 (Ref (MessageReference (Demo.txt "empty"))) bare
  = Raise LookupError bare.
Proof.
  intros env bare. split; [|split].
  - apply (proj1 (@unknown_reference_placeholder Demo.runtime 0
                    (Demo.txt "missing") env)).
    vm_compute. reflexivity.
  - apply (proj1 (proj2 (@unknown_reference_placeholder Demo.runtime 0
                           (Demo.txt "missing") env))).
    vm_compute. reflexivity.
  - apply (proj2 (proj2 (@unknown_reference_placeholder Demo.runtime 0
                           (Demo.txt "empty") bare))).
    vm_compute. reflexivity.
Defined.

(** [{ $x }] with [x] bound to 7, and [{ $user }] with [user] bound to an
    object of an unsupported type. *)
Lemma external_argument_rendered_witness :
  (exists env',
     @resolve Demo.runtime 9 (Demo.bundle [])
       (Message (Pattern 33 [Placeable (VariableReference (Demo.txt "x"))]))
       Demo.seven_args
     = Return (Demo.txt "#", []) env') /\
  (exists env',
     @resolve Demo.runtime 9 (Demo.bundle [])
       (Message (Pattern 33 [Placeable (VariableReference (Demo.txt "user"))]))
       Demo.odd_args
     = Return (Demo.txt "user",
               [UnsupportedExternalType (Demo.txt "user") (Unsupported (Opaque 1))])
         env').
Proof.
  split.
  - apply (proj1 (@external_argument_rendered Demo.runtime 0 (Demo.bundle [])
                    Demo.seven_args 33%nat (Demo.txt "x") (Int 7) eq_refl)).
    + reflexivity.
    + vm_compute. discriminate.
  - apply (proj2 (@external_argument_rendered Demo.runtime 0 (Demo.bundle [])
                    Demo.odd_args 33%nat (Demo.txt "user") (Unsupported (Opaque 1))
                    eq_refl)).
    + reflexivity.
    + vm_compute. discriminate.
Defined.

(** [{ hello.title }] where [hello] has the attribute, and where it has
    not. *)
Lemma attribute_reference_text_witness :
  let titled := initial_environment Demo.titled_bundle ∅ in
  let plain := initial_environment Demo.hello_bundle ∅ in
  @handle Demo.runtime 3 (Ref Demo.hello_title) titled
  = Return (Str (Demo.txt "Greeting")) (set_part_count 1 titled) /\
  @handle Demo.runtime 3 (Ref Demo.hello_title) plain
  = Return (Str (Demo.txt "Hello"))
      (set_part_count 1
         (errors_append (UnknownReference (Demo.txt "hello.title")) plain)).
Proof.
  intros titled plain. split.
  - apply (proj1 (@attribute_reference_text Demo.runtime 0
                    (MessageReference (Demo.txt "hello")) (Demo.txt "title")
                    [Demo.txt "Greeting"] 12%nat titled
                    ltac:(vm_compute; discriminate)
                    ltac:(apply not_elem_of_empty))).
    vm_compute. reflexivity.
  - apply (proj2 (@attribute_reference_text Demo.runtime 0
                    (MessageReference (Demo.txt "hello")) (Demo.txt "title")
                    [Demo.txt "Hello"] 10%nat plain
                    ltac:(vm_compute; discriminate)
                    ltac:(apply not_elem_of_empty))).
    + vm_compute. reflexivity.
    + vm_compute. reflexivity.
Defined.

(** [{ -thing("pos", name: "x") }] with [-thing = { $name }]. *)
Lemma term_call_binds_named_arguments_witness :
  let env0 := initial_environment Demo.thing_bundle ∅ in
  @handle Demo.runtime 8
    (CallExpression (TermReference (Demo.txt "thing"))
       [StringLiteral (Demo.txt "pos")]
       [(Demo.txt "name", StringLiteral (Demo.txt "x"))]) env0
  = Return (Str (Demo.txt "x"))
      (set_part_count 1
         (errors_append (IgnoredPositionalArguments (Demo.txt "-thing")) env0)).
Proof.
  intros env0.
  apply (@term_call_binds_named_arguments Demo.runtime 0 (Demo.txt "thing")
           (Demo.txt "name") 11%nat
           [StringLiteral (Demo.txt "pos")]
           [(Demo.txt "name", StringLiteral (Demo.txt "x"))]
           env0 [Str (Demo.txt "pos")] env0
           {[ Demo.txt "name" := Str (Demo.txt "x") ]} env0 (Str (Demo.txt "x"))).
  - vm_compute. reflexivity.
  - vm_compute. reflexivity.
  - vm_compute. reflexivity.
  - vm_compute. reflexivity.
  - reflexivity.
  - apply not_elem_of_empty.
  - vm_compute. discriminate.
  - vm_compute. discriminate.
Defined.

(** [Hi { $x }{ $x }] with [x] bound to a text of 3000 characters, in a
    bundle that asks for isolation: each placeable contributes its first
    2500 characters between two marks. *)
Lemma pattern_output_bounded_witness :
  let x := Placeable (VariableReference (Demo.txt "x")) in
  let elements := [TextElement (Demo.txt "Hi "); x; x] in
  let kept := take (Z.to_nat MAX_PART_LENGTH) Demo.long_text in
  let s := Demo.txt "Hi " ++ FSI ++ kept ++ PDI ++ FSI ++ kept ++ PDI in
  let errs := [TooManyCharacters (length Demo.long_text);
               TooManyCharacters (length Demo.long_text)] in
  exists env',
    @resolve Demo.runtime 6 Demo.isolating_bundle (Message (Pattern 34 elements))
      Demo.long_args
    = Return (s, errs) env' /\
    Z.of_nat (length s) = 5007 /\
    Z.of_nat (length s)
    <= text_length elements + (MAX_PART_LENGTH + 2) * MAX_PARTS
       + Z.of_nat (length (Demo.txt "???")).
Proof.
  intros x elements kept s errs.
  assert (Hrun : exists env',
            @resolve Demo.runtime 6 Demo.isolating_bundle
              (Message (Pattern 34 elements)) Demo.long_args
            = Return (s, errs) env')
    by (eexists; vm_compute; reflexivity).
  destruct Hrun as [env' Hrun]. exists env'.
  split; [exact Hrun|]. split; [vm_compute; reflexivity|].
  exact (proj2 (@pattern_output_bounded Demo.runtime 6 34%nat elements)
           Demo.isolating_bundle Demo.long_args s errs env' Hrun).
Defined.
